(** * L-Spider: a DHT infohash harvester with ut_metadata retrieval

    A shallow embedding of the parts of the Python sources that the
    specification's properties talk about, followed by the theorems.

    Conventions of the embedding:
    - Python [bytes] are [list Byte.byte]; Python [str] is [string].
    - Python [int] is [Z] (or [nat] for lengths and indexes that the code
      only ever produces as non-negative numbers).  Interpreter resource
      limits (the recursion depth, the cap on the number of digits of an
      int/str conversion) are not part of the model.
    - [time.time()] readings are rationals ([Q], seconds); every such
      reading is an explicit input of the function that makes it.
    - A raised exception is a value of the result type; a loop that the
      source writes as [while True] runs on fuel, and running out of fuel
      is its own outcome, never confused with a result of the code. *)

From Stdlib Require Import ZArith NArith QArith Lia Lqa List Bool.
From Stdlib Require Import Strings.Byte Strings.String Strings.Ascii.
From stdpp Require Import gmap strings list fin_maps sorting.

Set Warnings "-register-all".
Set Default Proof Using "Type".
#[local] Open Scope Z_scope.

(** ** Bytes *)

Abbreviation byte := Byte.byte.
Abbreviation bytes := (list Byte.byte).

#[global] Instance byte_eq_dec : EqDecision byte := Byte.byte_eq_dec.
#[global] Instance byte_countable : Countable byte :=
  inj_countable Byte.to_N Byte.of_N Byte.of_to_N.

(** [B "..."] is the Python literal [b"..."]. *)
Definition B (s : string) : bytes := list_byte_of_string s.

(** [bytes([n])] for [0 <= n < 256]; Python raises [ValueError] otherwise. *)
Definition byte_of_Z (n : Z) : option byte :=
  if (0 <=? n) && (n <? 256) then Byte.of_N (Z.to_N n) else None.

Definition Z_of_byte (b : byte) : Z := Z.of_N (Byte.to_N b).

(** [buf[lo:hi]] for non-negative [lo], [hi]. *)
Definition slice (buf : bytes) (lo hi : nat) : bytes :=
  take (hi - lo)%nat (drop lo buf).

(** [buf[i:i+1]]. *)
Definition at1 (buf : bytes) (i : nat) : bytes := slice buf i (i + 1).

Fixpoint starts_with (needle hay : bytes) : bool :=
  match needle, hay with
  | [], _ => true
  | _ :: _, [] => false
  | x :: needle', y :: hay' => bool_decide (x = y) && starts_with needle' hay'
  end.

Fixpoint find_in (needle hay : bytes) (pos : nat) : option nat :=
  if starts_with needle hay then Some pos
  else match hay with
       | [] => None
       | _ :: hay' => find_in needle hay' (S pos)
       end.

(** [buf.find(needle, start)] with [None] for Python's [-1]; it is also
    [buf.index(needle, start)] with [None] for the [ValueError]. *)
Definition bytes_find (buf needle : bytes) (start : nat) : option nat :=
  if (start <=? length buf)%nat then find_in needle (drop start buf) start
  else None.

(** Comparison of bytes objects: lexicographic on unsigned byte values,
    a proper prefix being smaller. *)
Fixpoint bytes_compare (a b : bytes) : comparison :=
  match a, b with
  | [], [] => Eq
  | [], _ :: _ => Lt
  | _ :: _, [] => Gt
  | x :: a', y :: b' =>
      match N.compare (Byte.to_N x) (Byte.to_N y) with
      | Eq => bytes_compare a' b'
      | c => c
      end
  end.

Definition bytes_leb (a b : bytes) : bool :=
  match bytes_compare a b with Gt => false | _ => true end.

Definition bytes_ltb (a b : bytes) : bool :=
  match bytes_compare a b with Lt => true | _ => false end.

(** [x.to_bytes(k, "big")] for [0 <= x < 256 ^ k] (Python raises
    [OverflowError] beyond). *)
Fixpoint to_be (k : nat) (x : Z) : bytes :=
  match k with
  | O => []
  | S k' =>
      to_be k' (x / 256)
      ++ [match Byte.of_N (Z.to_N (x mod 256)) with Some b => b | None => Byte.x00 end]
  end.

(** [int.from_bytes(b, "big")], which is [unpack(">I", b)[0]] on four
    bytes and [unpack("!H", b)[0]] on two. *)
Definition of_be (b : bytes) : Z := foldl (λ acc c, 256 * acc + Z_of_byte c) 0 b.

(** *** [int(b)] and [str(n).encode("ascii")] *)

(** [Py_ISSPACE]: space, TAB, LF, VT, FF, CR. *)
Definition is_space (c : byte) : bool :=
  let n := Byte.to_N c in ((9 <=? n) && (n <=? 13))%N || (n =? 32)%N.

Definition digit_val (c : byte) : option Z :=
  let n := Byte.to_N c in
  if ((48 <=? n) && (n <=? 57))%N then Some (Z.of_N n - 48) else None.

(** Digits with single underscores allowed between two digits. *)
Fixpoint parse_digits (s : bytes) (acc : Z) (after_digit : bool) : option Z :=
  match s with
  | [] => if after_digit then Some acc else None
  | c :: r =>
      match digit_val c with
      | Some d => parse_digits r (10 * acc + d) true
      | None =>
          if bool_decide (c = "_"%byte) && after_digit
          then parse_digits r acc false
          else None
      end
  end.

Fixpoint lstrip (s : bytes) : bytes :=
  match s with
  | c :: r => if is_space c then lstrip r else s
  | [] => []
  end.

Definition strip (s : bytes) : bytes := reverse (lstrip (reverse (lstrip s))).

(** [int(s)] on a bytes object, base 10; [None] is the [ValueError]. *)
Definition py_int (s : bytes) : option Z :=
  match strip s with
  | c :: r =>
      if bool_decide (c = "-"%byte) then Z.opp <$> parse_digits r 0 false
      else if bool_decide (c = "+"%byte) then parse_digits r 0 false
      else parse_digits (c :: r) 0 false
  | [] => None
  end.

Definition digit_byte (d : N) : byte :=
  match Byte.of_N (48 + d) with Some b => b | None => "0"%byte end.

Fixpoint digits_of (fuel : nat) (n : N) (acc : bytes) : bytes :=
  let acc' := digit_byte (n mod 10) :: acc in
  match fuel with
  | O => acc'
  | S fuel' => if (n <? 10)%N then acc' else digits_of fuel' (n / 10) acc'
  end.

(** Decimal digits of [n], most significant first; the binary logarithm of
    [n] bounds the number of decimal digits after the first. *)
Definition str_N (n : N) : bytes := digits_of (N.to_nat (N.log2 n)) n [].

(** [str(z).encode("ascii")]. *)
Definition str_Z (z : Z) : bytes :=
  if z <? 0 then "-"%byte :: str_N (Z.to_N (- z)) else str_N (Z.to_N z).

(** *** Hexadecimal text, [bytes.hex()] and [str.upper()] *)

Definition hex_digit (n : N) : ascii :=
  ascii_of_N (if (n <? 10)%N then 48 + n else 87 + n).

Definition hex (b : bytes) : string :=
  string_of_list_ascii
    (concat (map (fun c => [hex_digit (Byte.to_N c / 16); hex_digit (Byte.to_N c mod 16)]) b)).

Definition upper_ascii (c : ascii) : ascii :=
  let n := N_of_ascii c in
  if ((97 <=? n) && (n <=? 122))%N then ascii_of_N (n - 32) else c.

Definition upper (s : string) : string :=
  string_of_list_ascii (map upper_ascii (list_ascii_of_string s)).

(** ** Outcomes of loops that run on fuel *)

Inductive outcome (A : Type) : Type :=
| Ret (a : A)
| OutOfFuel.
Arguments Ret {A} a.
Arguments OutOfFuel {A}.

(** ** bt_metadata.py: the tolerant framing scan *)

Module bt_scan.

(** [bencode_next_index(buf, i)]: the function and its inner [while True]
    loop, each call and each iteration taking one unit of fuel.  [Ret None]
    is the Python [None]. *)
Fixpoint bencode_next_index_fuel (fuel : nat) (buf : bytes) (i : nat)
  : outcome (option nat) :=
  match fuel with
  | O => OutOfFuel
  | S fuel' =>
      let n := length buf in
      if (n <=? i)%nat then Ret None
      else
        let c := at1 buf i in
        if bool_decide (c = B "i") then
          match bytes_find buf (B "e") (i + 1) with
          | None => Ret None
          | Some j => Ret (Some (j + 1)%nat)
          end
        else if bool_decide (c = B "l") || bool_decide (c = B "d") then
          bencode_next_index_loop fuel' buf (i + 1)
        else if bytes_leb (B "0") c && bytes_leb c (B "9") then
          match bytes_find buf (B ":") i with
          | None => Ret None
          | Some colon =>
              match py_int (slice buf i colon) with
              | None => Ret None
              | Some ln =>
                  let start := (Z.of_nat colon + 1)%Z in
                  let end_ := (start + ln)%Z in
                  if (Z.of_nat n <? end_)%Z then Ret None
                  else Ret (Some (Z.to_nat end_))
              end
          end
        else Ret None
  end
with bencode_next_index_loop (fuel : nat) (buf : bytes) (i : nat)
  : outcome (option nat) :=
  match fuel with
  | O => OutOfFuel
  | S fuel' =>
      let n := length buf in
      if (n <=? i)%nat then Ret None
      else if bool_decide (at1 buf i = B "e") then Ret (Some (i + 1)%nat)
      else
        match bencode_next_index_fuel fuel' buf i with
        | Ret (Some ni) => bencode_next_index_loop fuel' buf ni
        | Ret None => Ret None
        | OutOfFuel => OutOfFuel
        end
  end.

(** Fuel that the scan never exhausts (see [bencode_next_index_total]). *)
Definition scan_fuel (buf : bytes) : nat := (2 * length buf + 1)%nat.

Definition bencode_next_index (buf : bytes) (i : nat) : outcome (option nat) :=
  bencode_next_index_fuel (scan_fuel buf) buf i.

End bt_scan.

(** ** Bencoded values

    The values that bencoding carries: ints, byte strings, lists, and
    dicts keyed by byte strings.  A Python dict is a finite map: its
    equality ignores the insertion order, and the encoder sorts the items
    before it emits them. *)

Inductive bvalue : Type :=
| BInt (z : Z)
| BBytes (b : bytes)
| BList (l : list bvalue)
| BDict (d : gmap bytes bvalue).

Fixpoint bsize (v : bvalue) : nat :=
  match v with
  | BInt _ | BBytes _ => 1%nat
  | BList l => S (sum_list (map bsize l))
  | BDict d => S (sum_list (map snd (map_to_list (bsize <$> d))))
  end.

(** ** magnet.py: the repository's own bencode codec *)

Module magnet.

(** [items.sort(key=lambda kv: kv[0])]: a stable sort on the key alone. *)
Fixpoint insert_item {A} (x : bytes * A) (l : list (bytes * A)) : list (bytes * A) :=
  match l with
  | [] => [x]
  | y :: r => if bytes_leb x.1 y.1 then x :: l else y :: insert_item x r
  end.

Definition sort_items {A} (l : list (bytes * A)) : list (bytes * A) :=
  foldr insert_item [] l.

(** [_bencode(x)] on a byte string. *)
Definition bencode_bytes (b : bytes) : bytes :=
  str_Z (Z.of_nat (length b)) ++ B ":" ++ b.

(** [_bencode(x)].  The [str] branch and the final [TypeError] of the
    source cannot be reached from a [bvalue], and every dict key is a byte
    string already.  The source sorts the items and then encodes each of
    them; the values are encoded first here, which the sort cannot see
    since it reads keys only ([_bencode_dict] states the source's order). *)
Fixpoint _bencode (x : bvalue) : bytes :=
  match x with
  | BInt z => B "i" ++ str_Z z ++ B "e"
  | BBytes b => bencode_bytes b
  | BList l => B "l" ++ concat (map _bencode l) ++ B "e"
  | BDict d =>
      B "d"
      ++ concat (map (fun kv : bytes * bytes => bencode_bytes kv.1 ++ kv.2)
                   (sort_items (map_to_list (_bencode <$> d))))
      ++ B "e"
  end.

(** [_bdecode(data, i)] with its two [while] loops ([_bdecode_list] for
    the list branch, [_bdecode_dict] for the dict branch).  [Ret None] is
    a raised [ValueError]. *)
Fixpoint _bdecode_fuel (fuel : nat) (data : bytes) (i : nat)
  : outcome (option (bvalue * nat)) :=
  match fuel with
  | O => OutOfFuel
  | S fuel' =>
      let c := at1 data i in
      if bool_decide (c = B "i") then
        match bytes_find data (B "e") i with
        | None => Ret None
        | Some j =>
            match py_int (slice data (i + 1) j) with
            | None => Ret None
            | Some z => Ret (Some (BInt z, (j + 1)%nat))
            end
        end
      else if bool_decide (c = B "l") then _bdecode_list fuel' data (i + 1) []
      else if bool_decide (c = B "d") then _bdecode_dict fuel' data (i + 1) ∅
      else if bytes_leb (B "0") c && bytes_leb c (B "9") then
        match bytes_find data (B ":") i with
        | None => Ret None
        | Some j =>
            match py_int (slice data i j) with
            | None => Ret None
            | Some n =>
                (* [n] is never negative: the literal starts with a digit *)
                let start := (j + 1)%nat in
                let end_ := (start + Z.to_nat n)%nat in
                Ret (Some (BBytes (slice data start end_), end_))
            end
        end
      else Ret None
  end
with _bdecode_list (fuel : nat) (data : bytes) (i : nat) (out : list bvalue)
  : outcome (option (bvalue * nat)) :=
  match fuel with
  | O => OutOfFuel
  | S fuel' =>
      if bool_decide (at1 data i ≠ B "e") then
        match _bdecode_fuel fuel' data i with
        | Ret (Some (v, i')) => _bdecode_list fuel' data i' (out ++ [v])
        | Ret None => Ret None
        | OutOfFuel => OutOfFuel
        end
      else Ret (Some (BList out, (i + 1)%nat))
  end
with _bdecode_dict (fuel : nat) (data : bytes) (i : nat) (out : gmap bytes bvalue)
  : outcome (option (bvalue * nat)) :=
  match fuel with
  | O => OutOfFuel
  | S fuel' =>
      if bool_decide (at1 data i ≠ B "e") then
        match _bdecode_fuel fuel' data i with
        | Ret (Some (BBytes k, i')) =>
            match _bdecode_fuel fuel' data i' with
            | Ret (Some (v, i'')) => _bdecode_dict fuel' data i'' (<[k:=v]> out)
            | Ret None => Ret None
            | OutOfFuel => OutOfFuel
            end
        | Ret (Some (_, _)) => Ret None
        | Ret None => Ret None
        | OutOfFuel => OutOfFuel
        end
      else Ret (Some (BDict out, (i + 1)%nat))
  end.

Definition decode_fuel (data : bytes) : nat := (2 * length data + 1)%nat.

Definition _bdecode (data : bytes) (i : nat) : outcome (option (bvalue * nat)) :=
  _bdecode_fuel (decode_fuel data) data i.

End magnet.

(** ** Fetch results and peer addresses *)

(** The status strings that [download_metadata] returns. *)
Inductive status : Type :=
| st_ok | st_handshake_fail | st_ext_fail | st_bad_pieces | st_no_pieces
| st_sha1_mismatch | st_timeout | st_os_error | st_exception.

#[global] Instance status_eq_dec : EqDecision status.
Proof. solve_decision. Defined.

(** [(ip, port)]. *)
Definition address : Type := string * Z.

(** [random.sample(pool, n)]: the interpreter draws [n] pairwise distinct
    positions of [pool]; the draw is an input of the model.  A negative
    [n] raises [ValueError] ([None]). *)
Definition valid_draw (len n : nat) (draw : list nat) : Prop :=
  length draw = n ∧ NoDup draw ∧ Forall (λ i, (i < len)%nat) draw.

Definition random_sample {A} (pool : list A) (n : Z) (draw : list nat) : option (list A) :=
  if n <? 0 then None else Some (omap (λ i, pool !! i) draw).

(** ** master.py *)

Module master.

(** [list.sort(key=lambda x: x[2], reverse=True)]: stable, most recent
    [last_ok] first. *)
Fixpoint insert_desc {A} (ts : A → Q) (x : A) (l : list A) : list A :=
  match l with
  | [] => [x]
  | y :: r => if Qle_bool (ts y) (ts x) then x :: l else y :: insert_desc ts x r
  end.

Definition sort_desc {A} (ts : A → Q) (l : list A) : list A :=
  foldr (insert_desc ts) [] l.

Module MetadataPeerStore.

Record t : Type := mk {
  ttl_seconds : Q;
  max_peers : nat;
  _peers : list (string * Z * Q);
}.

Fixpoint update_peer (ip : string) (port : Z) (now : Q) (l : list (string * Z * Q))
  : option (list (string * Z * Q)) :=
  match l with
  | [] => None
  | (p_ip, p_port, ts) :: r =>
      if bool_decide ((p_ip, p_port) = (ip, port)) then Some ((ip, port, now) :: r)
      else cons (p_ip, p_port, ts) <$> update_peer ip port now r
  end.

(** [mark_ok(address)] at time [now]; the line appended to the JSONL file
    is not part of the model. *)
Definition mark_ok (now : Q) (a : address) (s : t) : t :=
  let '(ip, port) := a in
  if (port <? 1) || (65535 <? port) then s
  else
    let peers :=
      match update_peer ip port now (_peers s) with
      | Some l => l
      | None => _peers s ++ [(ip, port, now)]
      end in
    let peers := sort_desc snd peers in
    let peers := if (max_peers s <? length peers)%nat then take (max_peers s) peers else peers in
    mk (ttl_seconds s) (max_peers s) peers.

(** [sample(k)]; [draw] is the draw of [random.sample]. *)
Definition sample (k : Z) (draw : list nat) (s : t) : option (list address) :=
  match _peers s with
  | [] => Some []
  | _ =>
      let n := Z.min k (Z.of_nat (length (_peers s))) in
      let pool := _peers s in
      let picks :=
        if n <? Z.of_nat (length pool) then random_sample pool n draw else Some pool in
      map (λ p : string * Z * Q, (p.1.1, p.1.2)) <$> picks
  end.

End MetadataPeerStore.

Record Master : Type := mkMaster {
  queue : list (address * bytes);
  seen : gset (string * string * Z);
  bad : gmap address Q;
  bad_ttl : Q;
  peer_store : MetadataPeerStore.t;
  hint_k : Z;
  fail_counts : gmap address (Z * Q);
  fail_window : Q;
  fail_threshold : Z;
  ok_count : Z;
  fail_count : Z;
}.

(** [Master.__init__]; the stores start from what the previous run left. *)
Definition init (store : MetadataPeerStore.t) : Master :=
  {| queue := []; seen := ∅; bad := ∅; bad_ttl := 300%Q;
     peer_store := store; hint_k := 5;
     fail_counts := ∅; fail_window := 180%Q; fail_threshold := 3;
     ok_count := 0; fail_count := 0 |}.

Definition set_bad (b : gmap address Q) (m : Master) : Master :=
  mkMaster (queue m) (seen m) b (bad_ttl m) (peer_store m) (hint_k m)
    (fail_counts m) (fail_window m) (fail_threshold m) (ok_count m) (fail_count m).

Definition set_fail_counts (f : gmap address (Z * Q)) (m : Master) : Master :=
  mkMaster (queue m) (seen m) (bad m) (bad_ttl m) (peer_store m) (hint_k m)
    f (fail_window m) (fail_threshold m) (ok_count m) (fail_count m).

Definition set_seen_queue (s : gset (string * string * Z)) (q : list (address * bytes))
    (m : Master) : Master :=
  mkMaster q s (bad m) (bad_ttl m) (peer_store m) (hint_k m)
    (fail_counts m) (fail_window m) (fail_threshold m) (ok_count m) (fail_count m).

Definition set_counts (okc failc : Z) (store : MetadataPeerStore.t) (m : Master) : Master :=
  mkMaster (queue m) (seen m) (bad m) (bad_ttl m) store (hint_k m)
    (fail_counts m) (fail_window m) (fail_threshold m) okc failc.

(** [_mark_bad(address)]; [now] is its reading of the clock. *)
Definition _mark_bad (now : Q) (a : address) (m : Master) : Master :=
  set_bad (<[a := (now + bad_ttl m)%Q]> (bad m)) m.

(** [_is_bad(address)]; [not until] holds for a missing entry and for an
    expiry of [0.0]. *)
Definition _is_bad (now : Q) (a : address) (m : Master) : bool * Master :=
  match bad m !! a with
  | None => (false, m)
  | Some until =>
      if Qeq_bool until 0 then (false, m)
      else if Qle_bool until now then (false, set_bad (delete a (bad m)) m)
      else (true, m)
  end.

(** [_record_failure(address)]; [now] is its reading of the clock and
    [now_mark] the later reading of [_mark_bad], if it is called. *)
Definition _record_failure (now now_mark : Q) (a : address) (m : Master) : Master :=
  let '(count, until) :=
    default (0, (now + fail_window m)%Q) (fail_counts m !! a) in
  let '(count, until) :=
    if Qle_bool until now then (0, (now + fail_window m)%Q) else (count, until) in
  let count := count + 1 in
  let m := set_fail_counts (<[a := (count, until)]> (fail_counts m)) m in
  if fail_threshold m <=? count then _mark_bad now_mark a m else m.

(** The seen-set key [(hid, address[0], address[1])]. *)
Definition seen_key (infohash : bytes) (a : address) : string * string * Z :=
  (upper (hex infohash), a.1, a.2).

(** [_enqueue_once(infohash, address)].  [address = None] stands for a
    falsy address; [infohash] is a bytes object, so the [isinstance] test
    holds.  The log line is not part of the model. *)
Definition _enqueue_once (now : Q) (infohash : bytes) (address : option address)
    (m : Master) : bool * Master :=
  match address with
  | None => (false, m)
  | Some a =>
      if bool_decide (length infohash ≠ 20%nat) then (false, m)
      else
        let '(is_bad, m) := _is_bad now a m in
        if is_bad then (false, m)
        else
          let key := seen_key infohash a in
          if bool_decide (key ∈ seen m) then (false, m)
          else
            let seen1 := {[key]} ∪ seen m in
            let seen2 := if 60000 <? Z.of_nat (size seen1) then ∅ else seen1 in
            (true, set_seen_queue seen2 (queue m ++ [(a, infohash)]) m)
  end.

(** [log_infohash(infohash, address)]; [clock i] is the reading of the
    clock in the [i]-th call of [_enqueue_once], [draw] the draw of
    [random.sample].  [None] is the [ValueError] of a negative [hint_k]. *)
Definition log_infohash (clock : nat → Q) (draw : list nat) (infohash : bytes)
    (a : address) (m : Master) : option Master :=
  let '(ok, m) := _enqueue_once (clock 0%nat) infohash (Some a) m in
  if ok && bool_decide (length infohash = 20%nat) then
    hints ← MetadataPeerStore.sample (hint_k m) draw (peer_store m);
    Some (foldl (λ m ip,
                   if bool_decide (ip.2 = a) then m
                   else (_enqueue_once (clock (S ip.1)) infohash (Some ip.2) m).2)
            m (imap (λ i p, (i, p)) hints))
  else Some m.

(** The bookkeeping of [_worker] once [download_metadata] has returned
    [result]: [now] is the reading of the clock in [mark_ok] or in
    [_record_failure], [now_mark] the one in [_mark_bad]. *)
Definition _worker (result : status) (now now_mark : Q) (a : address) (m : Master) : Master :=
  if bool_decide (result = st_ok) then
    set_counts (ok_count m + 1) (fail_count m) (MetadataPeerStore.mark_ok now a (peer_store m)) m
  else
    let m := set_counts (ok_count m) (fail_count m + 1) (peer_store m) m in
    if bool_decide (result = st_timeout ∨ result = st_os_error)
    then _record_failure now now_mark a m
    else m.

End master.

(** *** Sequences of calls of [_enqueue_once] *)

Module calls.
Import master.

(** A call of [_enqueue_once], as the dispatcher sees it. *)
Record call : Type := mkCall { c_now : Q; c_infohash : bytes; c_address : option address }.

Definition do_call (c : call) (m : Master) : bool * Master :=
  _enqueue_once (c_now c) (c_infohash c) (c_address c) m.

(** The state after a sequence of calls. *)
Definition run_calls (cs : list call) (m : Master) : Master :=
  foldl (λ m c, (do_call c m).2) m cs.

(** A call flushes the seen set when it inserts its key and the set then
    has more than 60000 elements. *)
Definition flushes (c : call) (m : Master) : Prop :=
  (do_call c m).1 = true ∧ seen (do_call c m).2 = ∅.

Fixpoint no_flush (cs : list call) (m : Master) : Prop :=
  match cs with
  | [] => True
  | c :: cs' => ¬ flushes c m ∧ no_flush cs' (do_call c m).2
  end.

End calls.

(** *** Sample data for concrete runs *)

Definition ih0 : bytes := replicate 20 Byte.x00.
Definition addr0 : address := ("1.2.3.4"%string, 6881).
Definition store0 : master.MetadataPeerStore.t :=
  master.MetadataPeerStore.mk 259200%Q 1000 [].

(** ** dht.py *)

Module dht.

(** The Python values of a KRPC message.  After [bdecode] and [to_str] a
    message is a dict with [str] keys; the queries this node builds have
    [bytes] keys.  A dict key is either ([inl] a byte string, [inr] a
    string); the two never compare equal. *)
Inductive pyval : Type :=
| PInt (z : Z)
| PBytes (b : bytes)
| PStr (s : string)
| PList (l : list pyval)
| PDict (d : gmap (bytes + string) pyval).

Fixpoint pysize (v : pyval) : nat :=
  match v with
  | PInt _ | PBytes _ | PStr _ => 1%nat
  | PList l => S (sum_list (map pysize l))
  | PDict d => S (sum_list (map snd (map_to_list (pysize <$> d))))
  end.

(** Python's [==] on these values. *)
Fixpoint pyval_eqb (x y : pyval) {struct x} : bool :=
  match x, y with
  | PInt a, PInt b => bool_decide (a = b)
  | PBytes a, PBytes b => bool_decide (a = b)
  | PStr a, PStr b => bool_decide (a = b)
  | PList l1, PList l2 =>
      (fix go (l1 l2 : list pyval) {struct l1} : bool :=
         match l1, l2 with
         | [], [] => true
         | a :: r1, b :: r2 => pyval_eqb a b && go r1 r2
         | _, _ => false
         end) l1 l2
  | PDict d1, PDict d2 =>
      bool_decide (dom d1 = dom d2)
      && map_fold (λ k v acc,
                     acc && match d2 !! k with
                            | Some v' => pyval_eqb v v'
                            | None => false
                            end) true d1
  | _, _ => false
  end.

(** The exceptions that the handlers tell apart. *)
Inductive pyerr : Type := KeyError | TypeError.

Definition ebind {A C} (x : pyerr + A) (f : A → pyerr + C) : pyerr + C :=
  match x with inl e => inl e | inr a => f a end.

Notation "'let*' x := e 'in' k" := (ebind e (λ x, k))
  (at level 10, x pattern, e at level 100, k at level 200).

(** [v[key]] for a [str] key: defined on dicts only. *)
Definition getitem (v : pyval) (key : string) : pyerr + pyval :=
  match v with
  | PDict d => match d !! inr key with Some x => inr x | None => inl KeyError end
  | _ => inl TypeError
  end.

(** [v[:n]]. *)
Definition prefix_of (v : pyval) (n : nat) : pyerr + pyval :=
  match v with
  | PBytes b => inr (PBytes (take n b))
  | PList l => inr (PList (take n l))
  | PStr s => inr (PStr (String.substring 0 n s))
  | PInt _ | PDict _ => inl TypeError
  end.

(** [get_neighbor(target, nid, end=10)] on byte strings. *)
Definition get_neighbor (target nid : bytes) (end_ : nat) : bytes :=
  take end_ target ++ drop end_ nid.

(** [get_neighbor(target, nid)] when [target] comes out of a message:
    only a byte string can be sliced and then joined to the bytes [nid]. *)
Definition get_neighbor_of (target : pyval) (nid : bytes) : pyerr + bytes :=
  match target with
  | PBytes b => inr (get_neighbor b nid 10)
  | _ => inl TypeError
  end.

Record KNode : Type := mkKNode { k_nid : bytes; k_ip : string; k_port : Z }.

Module DHTBootstrapStore.

(** [_peers] is a dict [(ip, port) -> last_ok]; its insertion order
    decides ties when it is sorted, so it is kept as the list of its
    items, with pairwise distinct keys. *)
Record t : Type := mk {
  ttl_seconds : Q;
  max_peers : nat;
  _peers : list (address * Q);
}.

(** [d[key] = ts] on the items of a dict: in place for a known key, at the
    end for a new one. *)
Fixpoint dict_set (key : address) (ts : Q) (l : list (address * Q)) : list (address * Q) :=
  match l with
  | [] => [(key, ts)]
  | (k, v) :: r => if bool_decide (k = key) then (key, ts) :: r else (k, v) :: dict_set key ts r
  end.

Fixpoint dict_get (key : address) (l : list (address * Q)) : option Q :=
  match l with
  | [] => None
  | (k, v) :: r => if bool_decide (k = key) then Some v else dict_get key r
  end.

Definition mark_ok (now : Q) (a : address) (s : t) : t :=
  let '(ip, port) := a in
  if (port <? 1) || (65535 <? port) then s
  else
    let peers :=
      match dict_get (ip, port) (_peers s) with
      | Some prev => if Qle_bool now prev then _peers s else dict_set (ip, port) now (_peers s)
      | None => dict_set (ip, port) now (_peers s)
      end in
    let peers :=
      if (max_peers s <? length peers)%nat
      then take (max_peers s) (master.sort_desc snd peers)
      else peers in
    mk (ttl_seconds s) (max_peers s) peers.

(** [items[:m]] for a Python int [m]. *)
Definition take_py {A} (m : Z) (l : list A) : list A :=
  if 0 <=? m then take (Z.to_nat m) l
  else take (length l - Z.to_nat (- m)) l.

(** [sample_previous(k)]; [draw] is the draw of [random.sample], [None]
    its [ValueError]. *)
Definition sample_previous (k : Z) (draw : list nat) (s : t) : option (list address) :=
  match _peers s with
  | [] => Some []
  | _ =>
      let items := master.sort_desc snd (_peers s) in
      let pool := map fst (take_py (Z.max (k * 4) k) items) in
      let n := Z.min k (Z.of_nat (length pool)) in
      if n <? Z.of_nat (length pool) then random_sample pool n draw else Some pool
  end.

End DHTBootstrapStore.

Record DHTProcess : Type := mkDHT {
  ip : string;
  port : Z;
  bootstrap_nodes : list address;
  max_node_qsize : nat;
  token_length : nat;
  tid_length : nat;
  nid : bytes;
  nodes : list KNode;
  bootstrap_store : DHTBootstrapStore.t;
  bootstrap_extra : list address;
}.

Definition set_nodes (q : list KNode) (store : DHTBootstrapStore.t) (self : DHTProcess)
  : DHTProcess :=
  mkDHT (ip self) (port self) (bootstrap_nodes self) (max_node_qsize self)
    (token_length self) (tid_length self) (nid self) q store (bootstrap_extra self).

(** What a handler does to the outside: a call of [send_krpc(msg, address)]
    (which encodes and sends, and swallows its own exceptions), or a call
    of [master.log_infohash(infohash, address)]. *)
Inductive event : Type :=
| SendKrpc (msg : pyval) (a : address)
| LogInfohash (infohash : pyval) (a : address).

Definition dict_of (l : list ((bytes + string) * pyval)) : pyval := PDict (list_to_map l).

(** [send_find_node(address, nid=None)]; [tid] is [entropy(tid_length)] and
    [target] is [random_id_fn()]. *)
Definition send_find_node (self : DHTProcess) (a : address) (nid_ : option bytes)
    (tid target : bytes) : list event :=
  let nid2 :=
    match nid_ with
    | Some (c :: r) => get_neighbor (c :: r) (nid self) 10
    | Some [] | None => nid self
    end in
  let msg :=
    dict_of [ (inl (B "t"), PBytes tid);
              (inl (B "y"), PBytes (B "q"));
              (inl (B "q"), PBytes (B "find_node"));
              (inl (B "a"), dict_of [ (inl (B "id"), PBytes nid2);
                                      (inl (B "target"), PBytes target) ]) ] in
  [SendKrpc msg a].

(** [join_dht()]; [rand i] is the [(tid, target)] drawn for the [i]-th
    query. *)
Definition join_dht (self : DHTProcess) (rand : nat → bytes * bytes) : list event :=
  concat (imap (λ i a, send_find_node self a None (rand i).1 (rand i).2)
            (bootstrap_nodes self ++ bootstrap_extra self)).

(** One turn of the loop of [auto_send_find_node()]: pop the oldest node
    and query it (an empty deque raises [IndexError], which is passed). *)
Definition auto_send_find_node (self : DHTProcess) (tid target : bytes)
  : list event * DHTProcess :=
  match nodes self with
  | [] => ([], self)
  | node :: rest =>
      (send_find_node self (k_ip node, k_port node) (Some (k_nid node)) tid target,
       set_nodes rest (bootstrap_store self) self)
  end.

(** [inet_ntoa] of four bytes. *)
Definition inet_ntoa (b : bytes) : string :=
  string_of_list_byte
    (concat (imap (λ i c, (if (i =? 0)%nat then [] else B ".") ++ str_N (Byte.to_N c)) b)).

Fixpoint decode_nodes_go (count : nat) (nodes_ : bytes) : list (bytes * string * Z) :=
  match count with
  | O => []
  | S count' =>
      (slice nodes_ 0 20, inet_ntoa (slice nodes_ 20 24), of_be (slice nodes_ 24 26))
      :: decode_nodes_go count' (drop 26 nodes_)
  end.

(** [decode_nodes(nodes)]. *)
Definition decode_nodes (nodes_ : bytes) : list (bytes * string * Z) :=
  if bool_decide ((length nodes_ mod 26)%nat ≠ 0%nat) then []
  else decode_nodes_go (length nodes_ / 26) nodes_.

(** [deque(maxlen=n).append(x)]. *)
Definition deque_append {A} (maxlen : nat) (x : A) (q : list A) : list A :=
  drop (length (q ++ [x]) - maxlen) (q ++ [x]).

(** [process_find_node_response(msg, address)] at time [now], for a
    message that is a dict. *)
Definition process_find_node_response (self : DHTProcess) (now : Q) (msg : pyval)
    (a : address) : DHTProcess :=
  match msg with
  | PDict m =>
      match m !! inr "r"%string with
      | Some (PDict r) =>
          let raw :=
            match r !! inr "nodes"%string with
            | Some (PBytes b) => b
            | Some (PStr s) => list_byte_of_string s
            | Some _ => []
            | None => []
            end in
          let found := decode_nodes raw in
          let store :=
            match found with
            | [] => bootstrap_store self
            | _ => DHTBootstrapStore.mark_ok now a (bootstrap_store self)
            end in
          let q :=
            foldl (λ q n,
                     let '(nid_, ip_, port_) := n in
                     if bool_decide (length nid_ ≠ 20%nat) then q
                     else if bool_decide (ip_ = ip self) then q
                     else if (port_ <? 1) || (65535 <? port_) then q
                     else deque_append (max_node_qsize self) (mkKNode nid_ ip_ port_) q)
              (nodes self) found in
          set_nodes q store self
      | _ => self
      end
  | _ => self
  end.

(** A handler's outcome: the calls it made, and whether an exception left
    it (the receive loop prints it and goes on). *)
Definition outcome_of (body : pyerr + list event) : list event * option pyerr :=
  match body with
  | inr evs => (evs, None)
  | inl KeyError => ([], None)
  | inl TypeError => ([], Some TypeError)
  end.

(** [on_get_peers_request(msg, address)]: [KeyError] is passed. *)
Definition on_get_peers_request (self : DHTProcess) (msg : pyval) (a : address)
  : list event * option pyerr :=
  outcome_of
    (let* args := getitem msg "a" in
     let* infohash := getitem args "info_hash" in
     let* tid := getitem msg "t" in
     let* token := prefix_of infohash (token_length self) in
     let* id_ := get_neighbor_of infohash (nid self) in
     inr [SendKrpc
            (dict_of [ (inr "t"%string, tid);
                       (inr "y"%string, PStr "r");
                       (inr "r"%string,
                         dict_of [ (inr "id"%string, PBytes id_);
                                   (inr "nodes"%string, PStr "");
                                   (inr "token"%string, token) ]) ]) a]).

(** [ok(msg, address)]: [KeyError] is passed. *)
Definition ok (self : DHTProcess) (msg : pyval) (a : address)
  : list event * option pyerr :=
  outcome_of
    (let* tid := getitem msg "t" in
     let* args := getitem msg "a" in
     let* nid_ := getitem args "id" in
     let* id_ := get_neighbor_of nid_ (nid self) in
     inr [SendKrpc
            (dict_of [ (inr "t"%string, tid);
                       (inr "y"%string, PStr "r");
                       (inr "r"%string, dict_of [ (inr "id"%string, PBytes id_) ]) ]) a]).

(** The [try] block of [on_announce_peer_request]: the calls of
    [master.log_infohash] it makes, or the exception that ends it. *)
Definition announce_body (self : DHTProcess) (msg : pyval) (a : address)
  : pyerr + list event :=
  let* args := getitem msg "a" in
  let* infohash := getitem args "info_hash" in
  let* token := getitem args "token" in
  let* pre := prefix_of infohash (token_length self) in
  if negb (pyval_eqb pre token) then inr []
  else
    let implied :=
      match getitem args "implied_port" with
      | inr v => negb (pyval_eqb v (PInt 0))
      | inl _ => false
      end in
    let* port_ :=
      (if implied then inr (Some a.2)
       else
         let* p := getitem args "port" in
         match p with
         | PInt z => if (z <? 1) || (65535 <? z) then inr None else inr (Some z)
         | _ => inl TypeError
         end) in
    match port_ with
    | None => inr []
    | Some p =>
        let candidates := if bool_decide (a.2 ≠ p) then [p; a.2] else [p] in
        inr (map (λ c, LogInfohash infohash (a.1, c)) candidates)
    end.

(** [on_announce_peer_request(msg, address)]: every exception of the
    [try] block is passed, and [ok] runs in the [finally] clause. *)
Definition on_announce_peer_request (self : DHTProcess) (msg : pyval) (a : address)
  : list event * option pyerr :=
  let logged := match announce_body self msg a with inr evs => evs | inl _ => [] end in
  let '(sent, raised) := ok self msg a in
  (logged ++ sent, raised).

(** [play_dead(msg, address)]. *)
Definition play_dead (self : DHTProcess) (msg : pyval) (a : address)
  : list event * option pyerr :=
  outcome_of
    (let* tid := getitem msg "t" in
     inr [SendKrpc
            (dict_of [ (inr "t"%string, tid);
                       (inr "y"%string, PStr "e");
                       (inr "e"%string, PList [PInt 202; PStr "Server Error"]) ]) a]).

(** ["nodes" in r]. *)
Definition contains_nodes (r : pyval) : pyerr + bool :=
  match r with
  | PDict d => inr (bool_decide (is_Some (d !! inr "nodes"%string)))
  | PList l => inr (existsb (pyval_eqb (PStr "nodes")) l)
  | PStr s => inr (bool_decide (is_Some (String.index 0 "nodes" s)))
  | PBytes _ | PInt _ => inl TypeError
  end.

(** [on_message(msg, address)] at time [now]: [KeyError] is passed, and
    a list or a dict as [q] cannot be looked up in the table of handlers. *)
Definition on_message (self : DHTProcess) (now : Q) (msg : pyval) (a : address)
  : list event * option pyerr * DHTProcess :=
  match getitem msg "y" with
  | inl KeyError => ([], None, self)
  | inl TypeError => ([], Some TypeError, self)
  | inr y =>
      if pyval_eqb y (PStr "r") then
        match contains_nodes (match getitem msg "r" with inr r => r | inl _ => PDict ∅ end) with
        | inl e => ([], Some e, self)
        | inr true => ([], None, process_find_node_response self now msg a)
        | inr false => ([], None, self)
        end
      else if pyval_eqb y (PStr "q") then
        match getitem msg "q" with
        | inr (PList _) | inr (PDict _) => ([], Some TypeError, self)
        | inr (PStr q) =>
            if bool_decide (q = "get_peers"%string) then (on_get_peers_request self msg a, self)
            else if bool_decide (q = "announce_peer"%string)
                 then (on_announce_peer_request self msg a, self)
                 else (play_dead self msg a, self)
        | _ => (play_dead self msg a, self)
        end
      else ([], None, self)
  end.

End dht.

(** *** Vocabulary and sample data for the DHT node *)

Module dht_data.
Import dht.

(** The [id] argument of a query that [send_krpc] was called with. *)
Definition find_node_id (e : event) : option pyval :=
  match e with
  | SendKrpc (PDict m) _ =>
      match m !! inl (B "a") with
      | Some (PDict args) => args !! inl (B "id")
      | _ => None
      end
  | _ => None
  end.

Definition store1 : DHTBootstrapStore.t := DHTBootstrapStore.mk 259200%Q 5000 [].

Definition peer1 : KNode := mkKNode (replicate 20 Byte.x11) "5.6.7.8" 6881.

(** A node as [dht_spider.py] starts it ([token_length = 2]), with the
    node id [22 22 ... 22] and one node in its queue. *)
Definition dht1 : DHTProcess :=
  mkDHT "0.0.0.0" 6882
    [("router.bittorrent.com"%string, 6881); ("dht.transmissionbt.com"%string, 6881);
     ("router.utorrent.com"%string, 6881)]
    200 2 2 (replicate 20 Byte.x22) [peer1] store1 [].

(** An [announce_peer] query, after [bdecode] and [to_str]. *)
Definition announce_msg (args : list ((bytes + string) * pyval)) : pyval :=
  dict_of [ (inr "t"%string, PBytes (B "aa"));
            (inr "y"%string, PStr "q");
            (inr "q"%string, PStr "announce_peer");
            (inr "a"%string, dict_of args) ].

Definition src1 : address := ("1.2.3.4"%string, 55555).

(** The reply of [ok]: [{t, y: "r", r: {id: get_neighbor(peer_id, self.nid)}}]. *)
Definition ok_reply (self : DHTProcess) (tid : pyval) (peer_id : bytes) : pyval :=
  dict_of [ (inr "t"%string, tid);
            (inr "y"%string, PStr "r");
            (inr "r"%string,
              dict_of [ (inr "id"%string, PBytes (get_neighbor peer_id (nid self) 10)) ]) ].

(** [implied_port] is present in the arguments and is not [0]. *)
Definition implied (args : pyval) : Prop :=
  ∃ v, getitem args "implied_port" = inr v ∧ v ≠ PInt 0.

Definition peer_id1 : bytes := replicate 20 Byte.x33.

(** [announce_peer{info_hash = ih0, token = ih0[:2], port}] from a peer
    whose id is [peer_id1]. *)
Definition announce_args1 (port_ : Z) : list ((bytes + string) * pyval) :=
  [ (inr "id"%string, PBytes peer_id1);
    (inr "info_hash"%string, PBytes ih0);
    (inr "token"%string, PBytes (take 2 ih0));
    (inr "port"%string, PInt port_) ].

Definition announce1 (port_ : Z) : pyval := announce_msg (announce_args1 port_).

(** A metadata peer store holding five peers, most recent first, as
    [mark_ok] keeps it. *)
Definition mstore5 : master.MetadataPeerStore.t :=
  master.MetadataPeerStore.mk 259200%Q 1000
    [ ("10.0.0.1"%string, 6881, 50%Q); ("10.0.0.2"%string, 6881, 40%Q);
      ("10.0.0.3"%string, 6881, 30%Q); ("10.0.0.4"%string, 6881, 20%Q);
      ("10.0.0.5"%string, 6881, 10%Q) ].

(** The pool of [sample_previous(k)]: the addresses of the
    [max(4k, k)] most recent entries. *)
Definition top_pool (k : Z) (s : DHTBootstrapStore.t) : list address :=
  map fst (DHTBootstrapStore.take_py (Z.max (k * 4) k)
             (master.sort_desc snd (DHTBootstrapStore._peers s))).

End dht_data.

(** ** SHA-1 (FIPS 180-4), the reference for [hashlib.sha1]

    The fetcher is verified for every function [sha1]; this one is what
    the concrete runs below are computed with. *)

Module SHA1.

Definition w32 (x : Z) : Z := x mod 2 ^ 32.

Definition rotl (n x : Z) : Z :=
  w32 (Z.lor (Z.shiftl x n) (Z.shiftr x (32 - n))).

Definition pad (msg : bytes) : bytes :=
  msg ++ [Byte.x80]
  ++ replicate (Z.to_nat ((55 - Z.of_nat (length msg)) mod 64)) Byte.x00
  ++ to_be 8 (8 * Z.of_nat (length msg)).

Fixpoint words (count : nat) (block : bytes) : list Z :=
  match count with
  | O => []
  | S count' => of_be (take 4 block) :: words count' (drop 4 block)
  end.

Definition word_at (ws : list Z) (i : nat) : Z := nth i ws 0.

Fixpoint extend (count : nat) (ws : list Z) : list Z :=
  match count with
  | O => ws
  | S count' =>
      let t := length ws in
      let w := rotl 1 (Z.lxor (Z.lxor (word_at ws (t - 3)) (word_at ws (t - 8)))
                         (Z.lxor (word_at ws (t - 14)) (word_at ws (t - 16)))) in
      extend count' (ws ++ [w])
  end.

Definition round_f (t : nat) (b c d : Z) : Z :=
  if (t <? 20)%nat then Z.lor (Z.land b c) (Z.land (Z.lxor b (2 ^ 32 - 1)) d)
  else if (t <? 40)%nat then Z.lxor (Z.lxor b c) d
  else if (t <? 60)%nat then Z.lor (Z.lor (Z.land b c) (Z.land b d)) (Z.land c d)
  else Z.lxor (Z.lxor b c) d.

Definition round_k (t : nat) : Z :=
  if (t <? 20)%nat then 1518500249
  else if (t <? 40)%nat then 1859775393
  else if (t <? 60)%nat then 2400959708
  else 3395469782.

Definition hstate : Type := Z * Z * Z * Z * Z.

Definition round (st : hstate) (tw : nat * Z) : hstate :=
  let '(a, b, c, d, e) := st in
  let '(t, w) := tw in
  let temp := w32 (rotl 5 a + round_f t b c d + e + round_k t + w) in
  (temp, a, rotl 30 b, c, d).

Definition compress (h : hstate) (block : bytes) : hstate :=
  let ws := extend 64 (words 16 block) in
  let '(a, b, c, d, e) := foldl round h (imap (λ t w, (t, w)) ws) in
  let '(h0, h1, h2, h3, h4) := h in
  (w32 (h0 + a), w32 (h1 + b), w32 (h2 + c), w32 (h3 + d), w32 (h4 + e)).

Fixpoint blocks (count : nat) (h : hstate) (data : bytes) : hstate :=
  match count with
  | O => h
  | S count' => blocks count' (compress h (take 64 data)) (drop 64 data)
  end.

Definition init : hstate :=
  (1732584193, 4023233417, 2562383102, 271733878, 3285377520).

Definition digest (msg : bytes) : bytes :=
  let data := pad msg in
  let '(h0, h1, h2, h3, h4) := blocks (length data / 64) init data in
  to_be 4 h0 ++ to_be 4 h1 ++ to_be 4 h2 ++ to_be 4 h3 ++ to_be 4 h4.

End SHA1.

(** ** bt_metadata.py: the metadata fetcher *)

Module bt_metadata.
Import bt_scan.

Definition BT_PROTOCOL : bytes := B "BitTorrent protocol".

(** [bytes([BT_MSG_ID])] and [bytes([EXT_HANDSHAKE_ID])]. *)
Definition BT_MSG_ID : byte := Byte.x14.
Definition EXT_HANDSHAKE_ID : byte := Byte.x00.

(** The exception classes that [download_metadata] tells apart:
    [socket.timeout], any other [OSError], any other [Exception]. *)
Inductive exn : Type := socket_timeout | OSError | Exception.

(** The record handed to [storage_info_fn]. *)
Record info : Type := mkInfo {
  hash_id : string;
  hash_name : string;
  hash_size : string;
  files : list (bvalue * list string);
  a_ip : string;
}.

(** What the fetcher does to the outside, in order. *)
Inductive io_event : Type :=
| EvSend (data : bytes)
| EvMeta (what : string)
| EvStorage (i : info) (torrent_bytes : bytes) (a : address)
| EvClose.

(** The environment of one fetch: the socket, the clock and the two
    callbacks, as functions on a world [W] that the fetcher threads
    through.  Nothing is assumed of them. *)
Class Env (W : Type) : Type := {
  sock_create : W → option exn * W;           (* socket.socket(AF_INET, SOCK_STREAM) *)
  sock_settimeout : Q → W → option exn * W;
  sock_setblocking : bool → W → option exn * W;
  sock_connect : address → W → option exn * W;
  sock_send : bytes → W → option exn * W;
  sock_recv : nat → W → (exn + bytes) * W;    (* sock.recv(bufsize) *)
  sock_close : W → W;                         (* close(), its exceptions passed *)
  time_now : W → Q * W;                       (* time.time() *)
  sleep : Q → W → W;
  random_id_fn : W → bytes * W;
  storage_info_fn : info → bytes → address → W → option exn * W;
}.

(** The library functions the fetcher calls. *)
Class Lib : Type := {
  sha1 : bytes → bytes;                       (* hashlib.sha1(x).digest() *)
  bdecode : bytes → option bvalue;            (* bencodepy.decode; None: it raises *)
  bencode : bvalue → bytes;                   (* bencodepy.encode *)
  decode_torrent_text : option bvalue → bvalue → string;  (* utils.py, Python codecs *)
  str_strip : string → string;                (* str.strip() *)
}.

Section fetcher.
Context {W : Type} `{!Env W} `{!Lib}.

Definition state : Type := W * list io_event.

Inductive result (A : Type) : Type :=
| Done (a : A)
| Raised (e : exn)
| NoFuel.
Arguments Done {A} a.
Arguments Raised {A} e.
Arguments NoFuel {A}.

Definition M (A : Type) : Type := state → result A * state.

Definition ret {A} (a : A) : M A := λ s, (Done a, s).

Definition bind {A C} (m : M A) (f : A → M C) : M C :=
  λ s, match m s with
       | (Done a, s') => f a s'
       | (Raised e, s') => (Raised e, s')
       | (NoFuel, s') => (NoFuel, s')
       end.

Notation "'let!' x := m 'in' k" := (bind m (λ x, k))
  (at level 10, x pattern, m at level 100, k at level 200).
Notation "m ;; k" := (bind m (λ _, k))
  (at level 100, k at level 200, right associativity).

Definition raise {A} (e : exn) : M A := λ s, (Raised e, s).
Definition out_of_fuel {A} : M A := λ s, (NoFuel, s).

Definition emit (ev : io_event) : M unit := λ s, (Done tt, (s.1, s.2 ++ [ev])).

Definition call (f : W → option exn * W) : M unit :=
  λ s, match f s.1 with
       | (None, w) => (Done tt, (w, s.2))
       | (Some e, w) => (Raised e, (w, s.2))
       end.

Definition call_val {A} (f : W → (exn + A) * W) : M A :=
  λ s, match f s.1 with
       | (inr a, w) => (Done a, (w, s.2))
       | (inl e, w) => (Raised e, (w, s.2))
       end.

Definition read {A} (f : W → A * W) : M A :=
  λ s, let '(a, w) := f s.1 in (Done a, (w, s.2)).

Definition effect (f : W → W) : M unit := λ s, (Done tt, (f s.1, s.2)).

(** [try: m  except Exception: pass]. *)
Definition catch {A} (m : M A) : M (option A) :=
  λ s, match m s with
       | (Done a, s') => (Done (Some a), s')
       | (Raised _, s') => (Done None, s')
       | (NoFuel, s') => (NoFuel, s')
       end.

Definition send (data : bytes) : M unit := emit (EvSend data);; call (sock_send data).
Definition meta (what : string) : M unit := emit (EvMeta what).

(** [send_message_lenpref(sock, msg)]. *)
Definition send_message_lenpref (msg : bytes) : M unit :=
  send (to_be 4 (Z.of_nat (length msg)) ++ msg).

(** [send_handshake(sock, infohash, random_id_fn)]. *)
Definition send_handshake (infohash : bytes) : M unit :=
  let pstrlen := [Byte.x13] in
  let reserved := [Byte.x00; Byte.x00; Byte.x00; Byte.x00; Byte.x00; Byte.x10; Byte.x00; Byte.x00] in
  let! peer_id := read random_id_fn in
  send (pstrlen ++ BT_PROTOCOL ++ reserved ++ infohash ++ peer_id).

(** [check_handshake(packet, self_infohash)]. *)
Definition check_handshake (packet self_infohash : bytes) : bool :=
  match packet with
  | [] => false
  | pstrlen :: _ =>
      if bool_decide (Z_of_byte pstrlen ≠ Z.of_nat (length BT_PROTOCOL)) then false
      else if (length packet <? 1 + 19 + 8 + 20)%nat then false
      else if bool_decide (slice packet 1 (1 + 19) ≠ BT_PROTOCOL) then false
      else bool_decide (slice packet (1 + 19 + 8) (1 + 19 + 8 + 20) = self_infohash)
  end.

(** [send_ext_handshake(sock)]. *)
Definition send_ext_handshake : M unit :=
  let payload :=
    bencode (BDict {[ B "m" := BDict {[ B "ut_metadata" := BInt 1 ]} ]}) in
  send_message_lenpref ([BT_MSG_ID] ++ [EXT_HANDSHAKE_ID] ++ payload).

(** [request_metadata(sock, ut_metadata, piece)]; [bytes([ut_metadata])]
    raises [ValueError] outside [0..255]. *)
Definition request_metadata (ut_metadata piece : Z) : M unit :=
  let payload :=
    bencode (BDict (<[ B "msg_type" := BInt 0 ]> {[ B "piece" := BInt piece ]})) in
  match byte_of_Z ut_metadata with
  | None => raise Exception
  | Some ut => send_message_lenpref ([BT_MSG_ID] ++ [ut] ++ payload)
  end.

(** The loop of [utils.recv_exact]: every turn appends a non-empty chunk,
    so [n] turns are enough and the fuel [n] is never exhausted. *)
Fixpoint recv_exact_loop (fuel n : nat) (timeout start : Q) (buf : bytes) : M bytes :=
  if (length buf <? n)%nat then
    match fuel with
    | O => out_of_fuel
    | S fuel' =>
        let! now := read time_now in
        if Qle_bool (now - start) timeout then
          let! chunk := call_val (sock_recv (n - length buf)) in
          match chunk with
          | [] => ret buf
          | _ => recv_exact_loop fuel' n timeout start (buf ++ chunk)
          end
        else ret buf
    end
  else ret buf.

(** [utils.recv_exact(sock, n, timeout)]. *)
Definition recv_exact (n : nat) (timeout : Q) : M bytes :=
  call (sock_settimeout timeout);;
  let! start := read time_now in
  recv_exact_loop n n timeout start [].

(** The [while True] loop of [recvall]. *)
Fixpoint recvall_loop (fuel : nat) (timeout begin : Q) (total : bytes) : M bytes :=
  match fuel with
  | O => out_of_fuel
  | S fuel' =>
      effect (sleep 0.05%Q);;
      let! now := read time_now in
      if negb (bool_decide (total = [])) && negb (Qle_bool (now - begin) timeout) then ret total
      else if negb (Qle_bool (now - begin) (timeout * 2)) then ret total
      else
        let! chunk := catch (call_val (sock_recv 4096)) in
        match chunk with
        | Some (c :: r) => recvall_loop fuel' timeout now (total ++ c :: r)
        | Some [] | None => recvall_loop fuel' timeout begin total
        end
  end.

(** [recvall(sock, timeout)]. *)
Definition recvall (fuel : nat) (timeout : Q) : M bytes :=
  call (sock_setblocking false);;
  let! begin := read time_now in
  recvall_loop fuel timeout begin [].

(** [parse_ext_handshake(packet)]: [Some (ut_metadata, metadata_size)],
    or [None] for [(None, None)]. *)
Definition parse_ext_handshake (packet : bytes) : option (Z * Z) :=
  if (length packet <? 6)%nat then None
  else
    let msg_len := of_be (take 4 packet) in
    if msg_len <=? 2 then None
    else if Z.of_nat (length packet) <? 4 + msg_len then None
    else if bool_decide (at1 packet 4 ≠ [BT_MSG_ID]) then None
    else if bool_decide (at1 packet 5 ≠ [EXT_HANDSHAKE_ID]) then None
    else
      let payload := slice packet 6 (Z.to_nat (4 + msg_len)) in
      match bdecode payload with
      | Some (BDict d) =>
          let m := d !! B "m" in
          let size := d !! B "metadata_size" in
          let ut := match m with Some (BDict m') => m' !! B "ut_metadata" | _ => None end in
          match ut, size with
          | Some (BInt ut'), Some (BInt size') =>
              if 0 <? size' then Some (ut', size') else None
          | _, _ => None
          end
      | _ => None
      end.

(** [split_ut_metadata_message(buf)]: [Some (header, payload)], or [None]
    for [(None, None)]. *)
Definition split_ut_metadata_message (buf : bytes)
  : outcome (option (gmap bytes bvalue * bytes)) :=
  match bytes_find buf (B "d") 0 with
  | None => Ret None
  | Some start =>
      match bencode_next_index buf start with
      | OutOfFuel => OutOfFuel
      | Ret None => Ret None
      | Ret (Some end_) =>
          match bdecode (slice buf start end_) with
          | Some (BDict header) => Ret (Some (header, drop end_ buf))
          | _ => Ret None
          end
      end
  end.

(** [v != n] for what [dict.get] returned and an int [n]. *)
Definition differs_from_int (v : option bvalue) (n : Z) : bool :=
  match v with
  | Some (BInt z) => negb (z =? n)
  | _ => true
  end.

(** The body of [for piece in range(pieces)], from [piece] on, [count]
    pieces to go. *)
Fixpoint piece_loop (fuel : nat) (timeout : Q) (ut_metadata : Z) (count : nat)
    (piece : Z) (metadata_parts : list bytes) : M (list bytes) :=
  match count with
  | O => ret metadata_parts
  | S count' =>
      let next := piece_loop fuel timeout ut_metadata count' (piece + 1) in
      request_metadata ut_metadata piece;;
      let! blob := recvall fuel timeout in
      match blob with
      | [] => next metadata_parts
      | _ =>
          let marker := B "ee" in
          match bytes_find blob marker 0 with
          | Some idx => next (metadata_parts ++ [drop (idx + length marker) blob])
          | None =>
              match split_ut_metadata_message blob with
              | OutOfFuel => out_of_fuel
              | Ret None => next metadata_parts
              | Ret (Some (header, payload)) =>
                  if differs_from_int (header !! B "msg_type") 1 then next metadata_parts
                  else if differs_from_int (header !! B "piece") piece then next metadata_parts
                  else next (metadata_parts ++ [payload])
              end
          end
      end
  end.

(** [utils.pick_torrent_field(info_dict, utf8_key, plain_key)]. *)
Definition pick_torrent_field (info_dict : bvalue) (utf8_key plain_key : bytes)
  : option bvalue :=
  match info_dict with
  | BDict d => match d !! utf8_key with Some v => Some v | None => d !! plain_key end
  | _ => None
  end.

(** [utils.decode_torrent_path_list(path_list, info_dict)]. *)
Definition decode_torrent_path_list (path_list : option bvalue) (info_dict : bvalue)
  : list string :=
  match path_list with
  | Some (BList l) => map (λ p, decode_torrent_text (Some p) info_dict) l
  | _ => []
  end.

(** The record built from the decoded metadata (lines 267-294 of the
    source). *)
Definition make_info (infohash : bytes) (meta_data : bvalue) (a : address) : info :=
  let raw_name := pick_torrent_field meta_data (B "name.utf-8") (B "name") in
  let name := str_strip (decode_torrent_text raw_name meta_data) in
  let '(total_size, files_) :=
    match meta_data with
    | BDict d =>
        match d !! B "files" with
        | Some (BList items) =>
            foldl (λ acc item,
                     match item with
                     | BDict it =>
                         let ln := default (BInt 0) (it !! B "length") in
                         let total := match ln with BInt z => acc.1 + z | _ => acc.1 end in
                         let raw_path := pick_torrent_field item (B "path.utf-8") (B "path") in
                         (total, acc.2 ++ [(ln, decode_torrent_path_list raw_path meta_data)])
                     | _ => acc
                     end) (0, []) items
        | _ => (match d !! B "length" with Some (BInt z) => z | _ => 0 end, [])
        end
    | _ => (0, [])
    end in
  mkInfo (upper (hex infohash)) name (string_of_list_byte (str_Z total_size)) files_ a.1.

(** [int(math.ceil(metadata_size / (16.0 * 1024)))] for a positive
    [metadata_size]: converting an int of [2^1024 - 2^970] or more to a
    float raises [OverflowError]; below [2^53] the quotient is exact, and
    from there on its rounding leaves it above 4096, which is all the
    code asks of it. *)
Definition piece_count (metadata_size : Z) : option Z :=
  if 2 ^ 1024 - 2 ^ 970 <=? metadata_size then None
  else Some ((metadata_size + 16383) / 16384).

(** Lines 188-216: the timeout, connect, both handshakes, and the receipt
    of the extension handshake; [inr packet] when the code goes on to
    parse [packet = lp + body]. *)
Definition open_and_handshake (a : address) (infohash : bytes) (timeout : Q)
  : M (status + bytes) :=
  call (sock_settimeout timeout);;
  meta "connect";;
  call (sock_connect a);;
  send_handshake infohash;;
  let! packet := recv_exact 68 timeout in
  if negb (check_handshake packet infohash) then
    meta "handshake_fail";; ret (inl st_handshake_fail)
  else
    send_ext_handshake;;
    let! lp := recv_exact 4 timeout in
    if bool_decide (length lp ≠ 4%nat) then
      meta "ext_fail";; ret (inl st_ext_fail)
    else
      let msg_len := of_be lp in
      if (msg_len <=? 0) || (2000000 <? msg_len) then
        meta "ext_fail";; ret (inl st_ext_fail)
      else
        let! body := recv_exact (Z.to_nat msg_len) timeout in
        if bool_decide (Z.of_nat (length body) ≠ msg_len) then
          meta "ext_fail";; ret (inl st_ext_fail)
        else ret (inr (lp ++ body)).

(** Lines 218-226: the parse of the extension handshake and the piece
    count; [inr (ut_metadata, pieces)] when the code goes on to fetch. *)
Definition negotiate (packet : bytes) : M (status + Z * Z) :=
  match parse_ext_handshake packet with
  | None => meta "ext_fail";; ret (inl st_ext_fail)
  | Some (ut_metadata, metadata_size) =>
      match piece_count metadata_size with
      | None => raise Exception
      | Some pieces =>
          if (pieces <=? 0) || (4096 <? pieces) then
            meta "bad_pieces";; ret (inl st_bad_pieces)
          else ret (inr (ut_metadata, pieces))
      end
  end.

(** Lines 253-301: reassemble, verify, decode and emit. *)
Definition verify_and_store (a : address) (infohash : bytes) (metadata_parts : list bytes)
  : M status :=
  match metadata_parts with
  | [] => meta "no_pieces";; ret st_no_pieces
  | _ =>
      let metadata := concat metadata_parts in
      let check_metadata := upper (hex (sha1 metadata)) in
      if bool_decide (check_metadata ≠ upper (hex infohash)) then
        meta "sha1_mismatch";; ret st_sha1_mismatch
      else
        match bdecode metadata with
        | None => raise Exception
        | Some meta_data =>
            let torrent_bytes := B "d4:info" ++ metadata ++ B "e" in
            let info_ := make_info infohash meta_data a in
            emit (EvStorage info_ torrent_bytes a);;
            call (storage_info_fn info_ torrent_bytes a);;
            meta "saved";;
            ret st_ok
        end
  end.

(** The [try] block of [download_metadata], after the socket exists. *)
Definition download_body (fuel : nat) (a : address) (infohash : bytes) (timeout : Q)
  : M status :=
  let! r := open_and_handshake a infohash timeout in
  match r with
  | inl st => ret st
  | inr packet =>
      let! r := negotiate packet in
      match r with
      | inl st => ret st
      | inr (ut_metadata, pieces) =>
          let! metadata_parts :=
            piece_loop fuel timeout ut_metadata (Z.to_nat pieces) 0 [] in
          verify_and_store a infohash metadata_parts
      end
  end.

(** The [except] clauses. *)
Definition handle (e : exn) : M status :=
  match e with
  | socket_timeout => meta "timeout";; ret st_timeout
  | OSError => meta "os_error";; ret st_os_error
  | Exception => meta "exception";; ret st_exception
  end.

(** [download_metadata(address, infohash, logger, random_id_fn,
    storage_info_fn, timeout)]: the status it returns and the state it
    leaves, or [OutOfFuel] when a [recvall] has not returned within [fuel]
    turns of its loop. *)
Definition download_metadata (fuel : nat) (a : address) (infohash : bytes) (timeout : Q)
    (s : state) : outcome status * state :=
  match call sock_create s with
  | (Done _, s0) =>
      let '(r, s1) :=
        match download_body fuel a infohash timeout s0 with
        | (Done st, s1) => (Ret st, s1)
        | (Raised e, s1) =>
            match handle e s1 with
            | (Done st, s2) => (Ret st, s2)
            | (_, s2) => (OutOfFuel, s2)
            end
        | (NoFuel, s1) => (OutOfFuel, s1)
        end in
      (r, (sock_close s1.1, s1.2 ++ [EvClose]))
  | (Raised e, s0) =>
      match handle e s0 with
      | (Done st, s1) => (Ret st, s1)
      | (_, s1) => (OutOfFuel, s1)
      end
  | (NoFuel, s0) => (OutOfFuel, s0)
  end.

(** The calls of [storage_info_fn] in a trace. *)
Definition storage_calls (tr : list io_event) : list (info * bytes * address) :=
  omap (λ ev, match ev with EvStorage i tb a => Some (i, tb, a) | _ => None end) tr.

(** [safe φ m]: running [m] adds no call of [storage_info_fn], and a
    value it returns satisfies [φ]. *)
Definition safe {A} (φ : A → Prop) (m : M A) : Prop :=
  ∀ (s : state) (r : result A) (s' : state), m s = (r, s') →
    storage_calls s'.2 = storage_calls s.2 ∧ ∀ a, r = Done a → φ a.

(** The statuses each stage of the fetch can stop with. *)
Definition handshake_stop (r : status + bytes) : Prop :=
  ∀ st, r = inl st → st = st_handshake_fail ∨ st = st_ext_fail.

Definition negotiate_stop (r : status + Z * Z) : Prop :=
  ∀ st, r = inl st → st = st_ext_fail ∨ st = st_bad_pieces.

Definition handled_status (st : status) : Prop :=
  st = st_timeout ∨ st = st_os_error ∨ st = st_exception.

(** The payloads that a fetch captures: the socket is created, both
    handshakes succeed, the piece count is accepted, and the loop over
    the pieces returns [parts]. *)
Definition pieces_captured (fuel : nat) (a : address) (infohash : bytes) (timeout : Q)
    (s : state) (parts : list bytes) : Prop :=
  ∃ s0 s1 s2 s3 packet ut pieces,
    call sock_create s = (Done tt, s0)
    ∧ open_and_handshake a infohash timeout s0 = (Done (inr packet), s1)
    ∧ negotiate packet s1 = (Done (inr (ut, pieces)), s2)
    ∧ piece_loop fuel timeout ut (Z.to_nat pieces) 0 [] s2 = (Done parts, s3).

(** [packet[6 : 4 + msg_len]], the payload that [parse_ext_handshake]
    decodes. *)
Definition ext_payload (packet : bytes) : bytes :=
  slice packet 6 (Z.to_nat (4 + of_be (take 4 packet))).

(** The payload decodes to a dict [d] where [d[b"m"]] is a dict with an
    int under [b"ut_metadata"], and [d[b"metadata_size"]] is a positive
    int. *)
Definition good_fields (packet : bytes) : Prop :=
  ∃ d m ut size,
    bdecode (ext_payload packet) = Some (BDict d)
    ∧ d !! B "m" = Some (BDict m)
    ∧ m !! B "ut_metadata" = Some (BInt ut)
    ∧ d !! B "metadata_size" = Some (BInt size)
    ∧ 0 < size.

End fetcher.

Arguments Done {A} a.
Arguments Raised {A} e.
Arguments NoFuel {A}.

End bt_metadata.

(** *** A scripted peer, for concrete runs of the fetcher *)

Module script.
Import bt_metadata.

(** The world of a scripted run: a clock that every reading advances by
    one second, the byte segments the peer will deliver (a [recv] takes
    from the first of them, and raises when there is none), and what
    [storage_info_fn] raises, if anything. *)
Record world : Type := mkWorld {
  clock : Q;
  inbox : list bytes;
  storage_raises : option exn;
}.

Definition script_recv (n : nat) (w : world) : (exn + bytes) * world :=
  match inbox w with
  | [] => (inl socket_timeout, w)
  | seg :: rest =>
      (inr (take n seg),
       mkWorld (clock w) (match drop n seg with [] => rest | more => more :: rest end)
         (storage_raises w))
  end.

Definition script_env : Env world :=
  {| sock_create := λ w, (None, w);
     sock_settimeout := λ _ w, (None, w);
     sock_setblocking := λ _ w, (None, w);
     sock_connect := λ _ w, (None, w);
     sock_send := λ _ w, (None, w);
     sock_recv := script_recv;
     sock_close := λ w, w;
     time_now := λ w, (clock w, mkWorld (clock w + 1)%Q (inbox w) (storage_raises w));
     sleep := λ d w, mkWorld (clock w + d)%Q (inbox w) (storage_raises w);
     random_id_fn := λ w, (replicate 20 Byte.x2d, w);
     storage_info_fn := λ _ _ _ w, (storage_raises w, w) |}.

(** A strict decoder on top of [magnet._bdecode]: the whole input must be
    one value. *)
Definition bdecode_strict (data : bytes) : option bvalue :=
  match magnet._bdecode data 0 with
  | Ret (Some (v, n)) => if (n =? length data)%nat then Some v else None
  | _ => None
  end.

Definition ref_lib : Lib :=
  {| sha1 := SHA1.digest;
     bdecode := bdecode_strict;
     bencode := magnet._bencode;
     decode_torrent_text :=
       λ v _, match v with Some (BBytes b) => string_of_list_byte b | _ => ""%string end;
     str_strip := λ s, s |}.

(** The 30 bytes of an [info] dict, and their SHA-1. *)
Definition metadata1 : bytes := B "d6:lengthi7e4:name9:abcde.txte".
Definition infohash1 : bytes := SHA1.digest metadata1.

(** The peer's 68-byte handshake for [infohash1]. *)
Definition peer_handshake : bytes :=
  [Byte.x13] ++ BT_PROTOCOL ++ replicate 8 Byte.x00 ++ infohash1 ++ replicate 20 Byte.x50.

(** An extension handshake from the peer, length prefix included, with
    the bencoded [d] as its payload. *)
Definition peer_ext_message (d : bvalue) : bytes :=
  let body := [BT_MSG_ID; EXT_HANDSHAKE_ID] ++ magnet._bencode d in
  to_be 4 (Z.of_nat (length body)) ++ body.

(** The one advertising [m.ut_metadata = ut] and [metadata_size = size]. *)
Definition peer_ext_handshake (ut size : Z) : bytes :=
  peer_ext_message
    (BDict (<[ B "m" := BDict {[ B "ut_metadata" := BInt ut ]} ]>
              {[ B "metadata_size" := BInt size ]})).

(** The peer's answer to the request of piece 0. *)
Definition peer_piece (payload : bytes) : bytes :=
  B "d8:msg_typei1e5:piecei0e10:total_sizei30ee" ++ payload.

Definition start (segments : list bytes) : world * list io_event :=
  (mkWorld 1000 segments None, []).

(** A fetch of [infohash1] from [addr0], with the default timeout, from a
    peer that delivers [segments]. *)
Definition fetch (segments : list bytes) : outcome status * (world * list io_event) :=
  @download_metadata world script_env ref_lib 20 addr0 infohash1 6 (start segments).

(** A peer that serves [metadata1], and one that serves other bytes. *)
Definition metadata2 : bytes := B "d6:lengthi8e4:name9:abcde.txte".
Definition good_peer : list bytes :=
  [peer_handshake; peer_ext_handshake 1 30; peer_piece metadata1].
Definition corrupt_peer : list bytes :=
  [peer_handshake; peer_ext_handshake 1 30; peer_piece metadata2].

(** Peers whose extension handshake lacks [m], advertises size 0, or
    names the extension 0. *)
Definition no_m_peer : list bytes :=
  [peer_handshake; peer_ext_message (BDict {[ B "metadata_size" := BInt 30 ]})].
Definition size_zero_peer : list bytes :=
  [peer_handshake; peer_ext_handshake 1 0].
Definition ut_zero_peer : list bytes :=
  [peer_handshake; peer_ext_handshake 0 30; peer_piece metadata1].

End script.

(** *** Reading hexadecimal text back *)

Definition hex_val (a : ascii) : N :=
  let n := N_of_ascii a in if (n <? 58)%N then (n - 48)%N else (n - 55)%N.

Definition unhex_pair (x y : ascii) : byte :=
  match Byte.of_N (16 * hex_val x + hex_val y) with Some b => b | None => Byte.x00 end.

Fixpoint unhex (l : list ascii) : bytes :=
  match l with
  | x :: y :: r => unhex_pair x y :: unhex r
  | _ => []
  end.

(** *** Predicates used in the statements *)

(** A result of the framing scan from index [i] in a buffer of [n] bytes
    lies past [i] and within the buffer. *)
Definition advances (i n : nat) (r : option nat) : Prop :=
  match r with Some j => (i < j ≤ n)%nat | None => True end.

Definition is_digit (c : byte) : Prop := is_Some (digit_val c).

(** The order of dictionary items by key, as [sorted(d.items())] compares
    them when keys are distinct. *)
Definition key_le {A} : relation (bytes * A) := λ x y, bytes_leb x.1 y.1 = true.
Definition key_lt {A} : relation (bytes * A) := λ x y, bytes_ltb x.1 y.1 = true.

(** [rt v]: in any buffer, at the start of an encoding of [v], the decoder
    returns [v] and the index just past the encoding. *)
Definition rt (v : bvalue) : Prop :=
  ∀ fuel pre suf, (2 * length (magnet._bencode v) ≤ fuel)%nat →
    magnet._bdecode_fuel fuel (pre ++ magnet._bencode v ++ suf) (length pre)
    = Ret (Some (v, (length pre + length (magnet._bencode v))%nat)).

(** The bytes between [l] or [d] and the closing [e]. *)
Definition enc_list (l : list bvalue) : bytes := concat (map magnet._bencode l).

Definition enc_items (items : list (bytes * bvalue)) : bytes :=
  concat (map (λ kv : bytes * bvalue,
                 magnet._bencode (BBytes kv.1) ++ magnet._bencode kv.2) items).

Definition put_items (out : gmap bytes bvalue) (items : list (bytes * bvalue))
  : gmap bytes bvalue :=
  foldl (λ m kv, <[kv.1 := kv.2]> m) out items.

(** The counter entry of [a] has no unexpired window at time [now]. *)
Definition window_closed (m : master.Master) (a : address) (now : Q) : Prop :=
  match master.fail_counts m !! a with
  | None => True
  | Some (_, until) => (until <= now)%Q
  end.

(** The results that [_worker] hands to [_record_failure]. *)
Definition qualifying (r : status) : Prop := r = st_timeout ∨ r = st_os_error.

(** Every node in the queue has a 20-byte id: the response handler
    appends no other. *)
Definition queue_ok (self : dht.DHTProcess) : Prop :=
  Forall (λ n, length (dht.k_nid n) = 20%nat) (dht.nodes self).

(** The code's test ["implied_port" in a and a["implied_port"] != 0]. *)
Definition implied_b (args : dht.pyval) : bool :=
  match dht.getitem args "implied_port" with
  | inr v => negb (dht.pyval_eqb v (dht.PInt 0))
  | inl _ => false
  end.

(** The calls of [log_infohash] that the handler makes for well-typed
    arguments, in one expression. *)
Definition announce_logs (self : dht.DHTProcess) (args : dht.pyval) (ih tok : bytes)
    (a : address) : list dht.event :=
  if bool_decide (take (dht.token_length self) ih = tok) then
    if implied_b args then [dht.LogInfohash (dht.PBytes ih) (a.1, a.2)]
    else
      match dht.getitem args "port" with
      | inr (dht.PInt z) =>
          if (z <? 1) || (65535 <? z) then []
          else dht.LogInfohash (dht.PBytes ih) (a.1, z)
               :: (if bool_decide (a.2 ≠ z)
                   then [dht.LogInfohash (dht.PBytes ih) (a.1, a.2)] else [])
      | _ => []
      end
  else [].

(** ** magnet.py: [torrent_to_magnet] *)

(** What a successful [_bdecode] from index [i] returns: an index past
    [i], which lies within the data unless the value is a byte string
    (whose declared length may overrun the data). *)
Definition decoded (data : bytes) (i : nat) (r : option (bvalue * nat)) : Prop :=
  match r with
  | Some (v, j) =>
      (i < j)%nat ∧ (i < length data)%nat
      ∧ match v with BBytes _ => True | _ => (j ≤ length data)%nat end
  | None => True
  end.

Module magnet_link.

(** The exceptions that leave [torrent_to_magnet]. *)
Inductive error : Type := ValueError | AttributeError.

Section torrent_to_magnet.

(** [hashlib.sha1(x).digest()], [bytes.decode("utf-8", "strict")] ([None]
    is its [UnicodeDecodeError]; a Python [str] is the list of its code
    points) and [urllib.parse.quote]. *)
Context (sha1 : bytes → bytes) (decode_utf8 : bytes → option (list N))
  (quote : list N → string).

(** The display name [dn] taken from the info dict. *)
Definition display_name (info : gmap bytes bvalue) : list N :=
  match info !! B "name" with
  | Some (BBytes name) => default [] (decode_utf8 name)
  | _ => []
  end.

(** [torrent_to_magnet(path)] on the bytes [raw] that [path.read_bytes()]
    returned. *)
Definition torrent_to_magnet (raw : bytes) : outcome (error + string) :=
  match magnet._bdecode raw 0 with
  | OutOfFuel => OutOfFuel
  | Ret None => Ret (inl ValueError)
  | Ret (Some (meta, end_)) =>
      if bool_decide (end_ ≠ length raw) then Ret (inl ValueError)
      else
        match meta with
        | BDict d =>
            match d !! B "info" with
            | None => Ret (inl ValueError)
            | Some info =>
                let info_b := magnet._bencode info in
                let infohash := hex (sha1 info_b) in
                match info with
                | BDict i =>
                    let dn := display_name i in
                    let magnet := ("magnet:?xt=urn:btih:" ++ infohash)%string in
                    Ret (inr (if bool_decide (dn = []) then magnet
                              else (magnet ++ "&dn=" ++ quote dn)%string))
                | _ => Ret (inl AttributeError)
                end
            end
        | _ => Ret (inl ValueError)
        end
  end.

End torrent_to_magnet.

End magnet_link.
(** *** The framing scan on encodings *)

(** [framed v]: in any buffer, at the start of an encoding of [v], the scan
    returns the index just past the encoding. *)
Definition framed (v : bvalue) : Prop :=
  ∀ fuel pre suf, (2 * length (magnet._bencode v) ≤ fuel)%nat →
    bt_scan.bencode_next_index_fuel fuel (pre ++ magnet._bencode v ++ suf) (length pre)
    = Ret (Some (length pre + length (magnet._bencode v))%nat).

(** ** bt_metadata.py: vocabulary for what a fetch does *)

Module fetch_spec.
Import bt_metadata.

(** The status that the [except] clauses give to an exception class. *)
Definition status_of_exn (e : exn) : status :=
  match e with
  | socket_timeout => st_timeout
  | OSError => st_os_error
  | Exception => st_exception
  end.

(** The statuses that [download_metadata] returns from its [try] block,
    as opposed to those of its [except] clauses. *)
Definition plain_status (st : status) : Prop :=
  st = st_ok ∨ st = st_handshake_fail ∨ st = st_ext_fail ∨ st = st_bad_pieces
  ∨ st = st_no_pieces ∨ st = st_sha1_mismatch.

Section spec.
Context {W : Type} `{!Env W} `{!Lib}.

(** [runs P E φ m]: whatever [m] does, it only appends events that
    satisfy [P] to the trace, an exception that leaves it satisfies [E],
    and a value it returns satisfies [φ]. *)
Definition runs {A} (P : io_event → Prop) (E : exn → Prop) (φ : A → Prop) (m : M A)
  : Prop :=
  ∀ (s : state (W:=W)) (r : result A) (s' : state (W:=W)), m s = (r, s') →
    (∃ new, s'.2 = s.2 ++ new ∧ Forall P new)
    ∧ (∀ e, r = Raised e → E e)
    ∧ (∀ a, r = Done a → φ a).

(** Every exception that the socket or the storage callback raises
    satisfies [E]. *)
Definition env_raises (E : exn → Prop) : Prop :=
  (∀ w e, (sock_create w).1 = Some e → E e)
  ∧ (∀ t w e, (sock_settimeout t w).1 = Some e → E e)
  ∧ (∀ b w e, (sock_setblocking b w).1 = Some e → E e)
  ∧ (∀ a w e, (sock_connect a w).1 = Some e → E e)
  ∧ (∀ d w e, (sock_send d w).1 = Some e → E e)
  ∧ (∀ n w e, (sock_recv n w).1 = inl e → E e)
  ∧ (∀ i tb a w e, (storage_info_fn i tb a w).1 = Some e → E e).

(** [sock.recv(bufsize)] returns at most [bufsize] bytes. *)
Definition recv_bounded : Prop :=
  ∀ n w chunk, (sock_recv n w).1 = inr chunk → (length chunk ≤ n)%nat.

(** The events that a fetch adds to the trace [tr]. *)
Definition added (tr : list io_event) (s' : state (W:=W)) : list io_event :=
  drop (length tr) s'.2.

End spec.

(** A peer that never answers and an environment in which nothing raises:
    every [recv] returns [b""], and the clock stands still. *)
Definition silent_env : Env unit :=
  {| sock_create := λ w, (None, w);
     sock_settimeout := λ _ w, (None, w);
     sock_setblocking := λ _ w, (None, w);
     sock_connect := λ _ w, (None, w);
     sock_send := λ _ w, (None, w);
     sock_recv := λ _ w, (inr [], w);
     sock_close := λ w, w;
     time_now := λ w, (0%Q, w);
     sleep := λ _ w, w;
     random_id_fn := λ w, (replicate 20 Byte.x2d, w);
     storage_info_fn := λ _ _ _ w, (None, w) |}.

End fetch_spec.

(** *** The totals of a multi-file torrent *)

(** What an item of [files] adds to [total_size]: its [length] when the
    item is a dict and the length an int ([0] when the key is absent). *)
Definition file_length (item : bvalue) : Z :=
  match item with
  | BDict it => match default (BInt 0) (it !! B "length") with BInt z => z | _ => 0 end
  | _ => 0
  end.

Definition is_dict (v : bvalue) : bool :=
  match v with BDict _ => true | _ => false end.
(** *** Sample data for the further properties *)

Module samples.

(** A torrent with the info dict of [script.metadata1]. *)
Definition info1 : gmap bytes bvalue :=
  <[ B "length" := BInt 7 ]> {[ B "name" := BBytes (B "abcde.txt") ]}.
Definition torrent1 : gmap bytes bvalue :=
  <[ B "announce" := BBytes (B "udp://t") ]> {[ B "info" := BDict info1 ]}.

(** ASCII text only: a stand-in for the strict UTF-8 decoder and for
    [quote] on the sample names. *)
Definition ascii_text (b : bytes) : option (list N) :=
  if forallb (λ c, (Byte.to_N c <? 128)%N) b then Some (map Byte.to_N b) else None.
Definition plain_quote (s : list N) : string :=
  string_of_list_ascii (map ascii_of_N s).

(** The header of a ut_metadata data message, and an extension handshake
    payload. *)
Definition header1 : gmap bytes bvalue :=
  <[ B "msg_type" := BInt 1 ]> (<[ B "piece" := BInt 0 ]> {[ B "total_size" := BInt 30 ]}).
Definition ext_m1 : gmap bytes bvalue := {[ B "ut_metadata" := BInt 3 ]}.
Definition ext_dict1 : gmap bytes bvalue :=
  <[ B "m" := BDict ext_m1 ]> {[ B "metadata_size" := BInt 40000 ]}.

(** A two-file torrent's info dict, with one item that is no dict. *)
Definition files1 : list bvalue :=
  [ BDict (<[ B "length" := BInt 5 ]> {[ B "path" := BList [BBytes (B "a")] ]});
    BInt 9;
    BDict (<[ B "length" := BInt 11 ]> {[ B "path" := BList [BBytes (B "b")] ]}) ].
Definition multi1 : gmap bytes bvalue :=
  <[ B "files" := BList files1 ]> {[ B "name" := BBytes (B "dir") ]}.

End samples.

(** *** The master's threads, one step at a time *)

Module dispatch.
Import master.

(** What the threads of the master do to its state: the bookkeeping of a
    worker whose fetch from [a] has returned [result] ([now] and
    [now_mark] are its clock readings), or a call of [_enqueue_once]. *)
Inductive master_event : Type :=
| Finished (result : status) (now now_mark : Q) (a : address)
| Enqueue (c : calls.call).

Definition master_step (m : Master) (e : master_event) : Master :=
  match e with
  | Finished result now now_mark a => _worker result now now_mark a m
  | Enqueue c => (calls.do_call c m).2
  end.

Definition run_master (log : list master_event) (m : Master) : Master :=
  foldl master_step m log.

(** The fetch from [a] ended in a result of {timeout, os_error}. *)
Definition counted_failure (a : address) (e : master_event) : bool :=
  match e with
  | Finished result _ _ a' =>
      bool_decide (a' = a ∧ (result = st_timeout ∨ result = st_os_error))
  | Enqueue _ => false
  end.

Definition failures_of (a : address) (log : list master_event) : nat :=
  length (List.filter (counted_failure a) log).

(** A failure counted for [a] is recorded before [until]. *)
Definition in_window (a : address) (until : Q) (e : master_event) : Prop :=
  match e with
  | Finished _ now _ _ => counted_failure a e = true → (now < until)%Q
  | Enqueue _ => True
  end.

(** A call of [_enqueue_once] for [a] is made before [expiry]. *)
Definition enqueued_before (a : address) (expiry : Q) (e : master_event) : Prop :=
  match e with
  | Finished _ _ _ _ => True
  | Enqueue c => calls.c_address c = Some a → (calls.c_now c < expiry)%Q
  end.

(** The three settings, which nothing writes after [__init__]. *)
Definition settings (m : Master) : Z * Q * Q :=
  (fail_threshold m, fail_window m, bad_ttl m).

End dispatch.

(** *** The calls a fetch makes to its environment *)

Module recorded.
Import bt_metadata.

(** A call of one of the operations of [Env], with its arguments. *)
Inductive env_call : Type :=
| CallCreate
| CallSettimeout (t : Q)
| CallSetblocking (flag : bool)
| CallConnect (a : address)
| CallSend (data : bytes)
| CallRecv (bufsize : nat)
| CallClose
| CallTime
| CallSleep (t : Q)
| CallRandomId
| CallStorage (i : info) (torrent_bytes : bytes) (a : address).

(** The operation [f], noting the call [c] in the list beside the world. *)
Definition noting {W A} (c : env_call) (f : W → A * W)
  : W * list env_call → A * (W * list env_call) :=
  λ w, ((f w.1).1, ((f w.1).2, w.2 ++ [c])).

(** The environment [E] with a record of the calls made to it: every
    operation does what it does in [E] and notes itself.  What a fetch
    run in [recording E] leaves in the record is what it has called, in
    order; nothing else writes to it. *)
#[export] Instance recording {W : Type} (E : Env W) : Env (W * list env_call) :=
  {| sock_create := noting CallCreate sock_create;
     sock_settimeout := λ t, noting (CallSettimeout t) (sock_settimeout t);
     sock_setblocking := λ flag, noting (CallSetblocking flag) (sock_setblocking flag);
     sock_connect := λ a, noting (CallConnect a) (sock_connect a);
     sock_send := λ data, noting (CallSend data) (sock_send data);
     sock_recv := λ n, noting (CallRecv n) (sock_recv n);
     sock_close := λ w, (sock_close w.1, w.2 ++ [CallClose]);
     time_now := noting CallTime time_now;
     sleep := λ t w, (sleep t w.1, w.2 ++ [CallSleep t]);
     random_id_fn := noting CallRandomId random_id_fn;
     storage_info_fn :=
       λ i torrent_bytes a, noting (CallStorage i torrent_bytes a)
                              (storage_info_fn i torrent_bytes a) |}.

(** The record of a state of a fetch in [recording E]. *)
Definition calls_made {W : Type} (s : (W * list env_call) * list io_event)
  : list env_call := s.1.2.

(** The calls of [storage_info_fn] in a record, with their arguments. *)
Definition stored (l : list env_call) : list (info * bytes * address) :=
  omap (λ c, match c with CallStorage i tb a => Some (i, tb, a) | _ => None end) l.

(** A call other than [close] and [storage_info_fn]. *)
Definition plain_call (c : env_call) : Prop :=
  match c with CallClose | CallStorage _ _ _ => False | _ => True end.

(** [logs Q m]: whatever [m] does in an environment [recording E], it
    only adds to the record, and only calls that satisfy [Q]. *)
Definition logs {W A : Type} (Q : env_call → Prop) (m : M (W:=W * list env_call) A)
  : Prop :=
  ∀ s r s', m s = (r, s') →
    ∃ new, calls_made s' = calls_made s ++ new ∧ Forall Q new.

(** A state of a fetch in [recording E], without the record; and
    [erases m' m]: without the record, the run of [m'] in [recording E]
    is the run of [m] in [E]. *)
Definition erase {W : Type} (s : (W * list env_call) * list io_event)
  : W * list io_event := (s.1.1, s.2).

Definition erases {W A : Type} (m' : M (W:=W * list env_call) A) (m : M (W:=W) A)
  : Prop :=
  ∀ s, m (erase s) = ((m' s).1, erase (m' s).2).

Section pieces.
Context {W : Type} `{!Env W} `{!Lib}.

(** The traffic of the loop over the pieces, without what it does with
    the answers: from [piece] on, [count] times, the request for a piece
    and the blob that [recvall] returns after it. *)
Fixpoint answers (fuel : nat) (timeout : Q) (ut_metadata : Z) (count : nat) (piece : Z)
  : M (list (Z * bytes)) :=
  match count with
  | O => ret []
  | S count' =>
      bind (request_metadata ut_metadata piece) (λ _,
      bind (recvall fuel timeout) (λ blob,
      bind (answers fuel timeout ut_metadata count' (piece + 1)) (λ rest,
      ret ((piece, blob) :: rest))))
  end.

(** The payload that the loop keeps of [blob], the answer to its request
    for [piece]: nothing of an empty blob; what follows the first [b"ee"]
    if there is one; else the payload of a [ut_metadata] message whose
    header has [msg_type = 1] and this [piece]. *)
Definition kept (answer : Z * bytes) : option bytes :=
  let '(piece, blob) := answer in
  match blob with
  | [] => None
  | _ =>
      match bytes_find blob (B "ee") 0 with
      | Some idx => Some (drop (idx + 2) blob)
      | None =>
          match split_ut_metadata_message blob with
          | Ret (Some (header, payload)) =>
              if differs_from_int (header !! B "msg_type") 1 then None
              else if differs_from_int (header !! B "piece") piece then None
              else Some payload
          | _ => None
          end
      end
  end.

(** The answers that a fetch receives to its requests: the socket is
    created, both handshakes succeed, the piece count is accepted, and
    the requests for the pieces are answered by [ans]. *)
Definition pieces_answered (fuel : nat) (a : address) (infohash : bytes) (timeout : Q)
    (s : state) (ans : list (Z * bytes)) : Prop :=
  ∃ s0 s1 s2 s3 packet ut pieces,
    call sock_create s = (Done tt, s0)
    ∧ open_and_handshake a infohash timeout s0 = (Done (inr packet), s1)
    ∧ negotiate packet s1 = (Done (inr (ut, pieces)), s2)
    ∧ answers fuel timeout ut (Z.to_nat pieces) 0 s2 = (Done ans, s3).

End pieces.

(** The fetch of [script.fetch], in the recording environment. *)
Definition start_recorded (segments : list bytes)
  : (script.world * list env_call) * list io_event :=
  (((script.start segments).1, []), []).

Definition fetch_recorded (segments : list bytes)
  : outcome status * ((script.world * list env_call) * list io_event) :=
  download_metadata (Env0:=recording script.script_env) (H:=script.ref_lib)
    20 addr0 script.infohash1 6 (start_recorded segments).

End recorded.

(** ** master.py and dht.py: vocabulary for the stores and the dispatcher *)

Module store_spec.

(** Most recent first: [x] may stand before [y]. *)
Definition newest_first {A} (ts : A → Q) : relation A := λ x y, (ts y <= ts x)%Q.

Definition valid_port (port : Z) : Prop := 1 ≤ port ≤ 65535.

(** The address of an entry of the metadata peer store. *)
Definition peer_key (p : string * Z * Q) : address := (p.1.1, p.1.2).

(** What [MetadataPeerStore] keeps of its list: one entry per address,
    most recent first, at most [max_peers] of them, valid ports only. *)
Definition metadata_store_ok (s : master.MetadataPeerStore.t) : Prop :=
  NoDup (map peer_key (master.MetadataPeerStore._peers s))
  ∧ StronglySorted (newest_first snd) (master.MetadataPeerStore._peers s)
  ∧ (length (master.MetadataPeerStore._peers s) ≤ master.MetadataPeerStore.max_peers s)%nat
  ∧ Forall (λ p, valid_port p.1.2) (master.MetadataPeerStore._peers s).

(** What [DHTBootstrapStore] keeps of its dict: at most [max_peers]
    items, valid ports only (the keys of a dict are distinct). *)
Definition bootstrap_store_ok (s : dht.DHTBootstrapStore.t) : Prop :=
  NoDup (map fst (dht.DHTBootstrapStore._peers s))
  ∧ (length (dht.DHTBootstrapStore._peers s) ≤ dht.DHTBootstrapStore.max_peers s)%nat
  ∧ Forall (λ p : address * Q, valid_port p.1.2) (dht.DHTBootstrapStore._peers s).

(** The node queue holds at most [max_node_qsize] nodes, each with a
    20-byte id, a valid port and an ip other than the node's own. *)
Definition node_queue_ok (self : dht.DHTProcess) : Prop :=
  (length (dht.nodes self) ≤ dht.max_node_qsize self)%nat
  ∧ Forall (λ n, length (dht.k_nid n) = 20%nat ∧ valid_port (dht.k_port n)
                 ∧ dht.k_ip n ≠ dht.ip self) (dht.nodes self).

(** A node in the compact format of a [find_node] response: 20 bytes of
    id, 4 of IPv4 address, 2 of port. *)
Definition compact_node (n : bytes * bytes * Z) : bytes :=
  n.1.1 ++ n.1.2 ++ to_be 2 n.2.

(** Where a handler's action goes: a datagram to [a], or an infohash
    logged for the ip of [a]. *)
Definition goes_to (a : address) (e : dht.event) : Prop :=
  match e with
  | dht.SendKrpc _ dst => dst = a
  | dht.LogInfohash _ src => src.1 = a.1
  end.

(** The datagrams among a handler's actions. *)
Definition is_send (e : dht.event) : bool :=
  match e with dht.SendKrpc _ _ => true | dht.LogInfohash _ _ => false end.

(** The token that a reply to [get_peers] carries. *)
Definition reply_token (reply : dht.pyval) : dht.pyerr + dht.pyval :=
  dht.ebind (dht.getitem reply "r") (λ r, dht.getitem r "token").

End store_spec.

(* ================================================================== *)
(** * Theorems *)
(* ================================================================== *)

(** ** Bytes *)

Lemma find_in_bounds needle hay pos j :
  find_in needle hay pos = Some j →
  (pos ≤ j ∧ j + length needle ≤ pos + length hay)%nat.
Proof.
  revert pos. induction hay as [|y hay IH]; intros pos; simpl.
  - destruct needle; simpl; [|done]. intros [= <-]. simpl. lia.
  - destruct (starts_with needle (y :: hay)) eqn:E.
    + intros [= <-]. split; [lia|].
      assert (length needle ≤ length (y :: hay))%nat; [|simpl in *; lia].
      clear -E. revert E. generalize (y :: hay). induction needle as [|x nd IHn];
        intros [|z h]; simpl; try done; try lia.
      intros [_ Hs]%andb_prop. apply IHn in Hs. lia.
    + intros H. apply IH in H. simpl. lia.
Qed.

Lemma bytes_find_bounds buf needle start j :
  bytes_find buf needle start = Some j →
  (start ≤ j ∧ j + length needle ≤ length buf)%nat.
Proof.
  unfold bytes_find. destruct (start <=? length buf)%nat eqn:E; [|done].
  intros Hf%find_in_bounds. rewrite length_drop in Hf.
  apply Nat.leb_le in E. lia.
Qed.

Lemma at1_lookup (buf : bytes) i :
  (i < length buf)%nat → ∃ x, buf !! i = Some x ∧ at1 buf i = [x].
Proof.
  intros Hi. destruct (lookup_lt_is_Some_2 buf i Hi) as [x Hx].
  exists x. split; [done|]. unfold at1, slice.
  replace (i + 1 - i)%nat with 1%nat by lia.
  rewrite (drop_S _ _ _ Hx). done.
Qed.

Lemma slice_cons (buf : bytes) i j x :
  buf !! i = Some x → (i < j)%nat → slice buf i j = x :: slice buf (S i) j.
Proof.
  intros Hx Hij. unfold slice. rewrite (drop_S _ _ _ Hx).
  replace (j - i)%nat with (S (j - S i)) by lia. done.
Qed.

Lemma digit_val_range c d : digit_val c = Some d → 0 ≤ d ≤ 9.
Proof.
  unfold digit_val. destruct (_ && _)%N eqn:E; [|done]. intros [= <-].
  apply andb_prop in E as [?%N.leb_le ?%N.leb_le]. lia.
Qed.

Lemma digit_val_not_space c d : digit_val c = Some d → is_space c = false.
Proof.
  unfold digit_val, is_space. destruct (_ && _)%N eqn:E; [|done]. intros _.
  apply andb_prop in E as [?%N.leb_le ?%N.leb_le].
  apply orb_false_intro; [apply andb_false_intro2|]; [apply N.leb_gt|apply N.eqb_neq]; lia.
Qed.

Lemma bytes_leb_single x y :
  bytes_leb [x] [y] = (Byte.to_N x <=? Byte.to_N y)%N.
Proof.
  unfold bytes_leb, N.leb. simpl. by destruct (_ ?= _)%N.
Qed.

Lemma digit_leb_bounds x :
  bytes_leb (B "0") [x] && bytes_leb [x] (B "9") = true →
  ∃ d, digit_val x = Some d.
Proof.
  change (B "0") with ["0"%byte]. change (B "9") with ["9"%byte].
  rewrite !bytes_leb_single. unfold digit_val.
  change (Byte.to_N "0") with 48%N. change (Byte.to_N "9") with 57%N.
  intros ->. eauto.
Qed.

Lemma parse_digits_nonneg s acc b v :
  0 ≤ acc → parse_digits s acc b = Some v → 0 ≤ v.
Proof.
  revert acc b. induction s as [|c r IH]; intros acc b Hacc; simpl.
  - destruct b; [|done]. by intros [= <-].
  - destruct (digit_val c) as [d|] eqn:Ed.
    + apply digit_val_range in Ed. apply IH. lia.
    + destruct (_ && _); [|done]. by apply IH.
Qed.

Lemma lstrip_snoc_nonspace l x :
  is_space x = false → ∃ l', lstrip (l ++ [x]) = l' ++ [x].
Proof.
  intros Hx. induction l as [|c l IH]; simpl.
  - rewrite Hx. by exists [].
  - destruct (is_space c); [done|]. by exists (c :: l).
Qed.

Lemma strip_cons_nonspace x r :
  is_space x = false → ∃ r', strip (x :: r) = x :: r'.
Proof.
  intros Hx. unfold strip. simpl lstrip at 2. rewrite Hx, reverse_cons.
  destruct (lstrip_snoc_nonspace (reverse r) x Hx) as [l' ->].
  rewrite reverse_snoc. eauto.
Qed.

(** An int literal that starts with a digit is never negative. *)
Lemma py_int_digit_first x r d v :
  digit_val x = Some d → py_int (x :: r) = Some v → 0 ≤ v.
Proof.
  intros Hd. unfold py_int.
  destruct (strip_cons_nonspace x r (digit_val_not_space _ _ Hd)) as [r' ->].
  assert (x ≠ "-"%byte ∧ x ≠ "+"%byte) as [??].
  { split; intros ->; vm_compute in Hd; done. }
  rewrite !bool_decide_eq_false_2 by done.
  by apply parse_digits_nonneg.
Qed.

(** ** bt_metadata.py: the framing scan terminates and advances *)

Section scan.
Import bt_scan.

Lemma scan_step buf fuel i :
  ((2 * (length buf - i) + 1 ≤ fuel)%nat →
     ∃ r, bencode_next_index_fuel fuel buf i = Ret r ∧ advances i (length buf) r) ∧
  ((2 * (length buf - i) + 2 ≤ fuel)%nat →
     ∃ r, bencode_next_index_loop fuel buf i = Ret r ∧ advances i (length buf) r).
Proof.
  revert i. induction fuel as [|fuel IH]; intros i; [split; lia|].
  split; intros Hf; simpl.
  - destruct (length buf <=? i)%nat eqn:En; [by exists None|].
    apply Nat.leb_gt in En.
    destruct (at1_lookup buf i En) as (x & Hx & Hc). rewrite Hc.
    case_bool_decide.
    { destruct (bytes_find _ _ _) as [j|] eqn:Ej; [|by exists None].
      apply bytes_find_bounds in Ej. simpl in Ej.
      exists (Some (j + 1)%nat). split; [done|]. simpl. lia. }
    destruct (_ || _).
    { destruct (proj2 (IH (i + 1)%nat)) as (r & -> & Hr); [lia|].
      exists r. split; [done|]. destruct r; simpl in *; lia. }
    destruct (_ && _) eqn:Ed; [|by exists None].
    destruct (bytes_find _ _ _) as [colon|] eqn:Ej; [|by exists None].
    apply bytes_find_bounds in Ej. simpl in Ej.
    destruct (py_int _) as [ln|] eqn:Eln; [|by exists None].
    assert (0 ≤ ln).
    { apply digit_leb_bounds in Ed as [d Hd].
      destruct (decide (i = colon)) as [->|Hne].
      - unfold slice in Eln. rewrite Nat.sub_diag in Eln. done.
      - rewrite (slice_cons _ _ _ _ Hx) in Eln by lia.
        eapply py_int_digit_first; eauto. }
    destruct (_ <? _) eqn:Elt; [by exists None|].
    apply Z.ltb_ge in Elt. eexists. split; [done|]. simpl. lia.
  - destruct (length buf <=? i)%nat eqn:En; [by exists None|].
    apply Nat.leb_gt in En.
    case_bool_decide.
    { exists (Some (i + 1)%nat). split; [done|]. simpl. lia. }
    destruct (proj1 (IH i)) as (r & -> & Hr); [lia|].
    destruct r as [ni|]; [|by exists None]. simpl in Hr.
    destruct (proj2 (IH ni)) as (r & -> & Hr'); [lia|].
    exists r. split; [done|]. destruct r; simpl in *; lia.
Qed.

(** More fuel never changes a result. *)
Lemma scan_fuel_mono buf fuel :
  ∀ fuel' i r, (fuel ≤ fuel')%nat →
    (bencode_next_index_fuel fuel buf i = Ret r →
     bencode_next_index_fuel fuel' buf i = Ret r) ∧
    (bencode_next_index_loop fuel buf i = Ret r →
     bencode_next_index_loop fuel' buf i = Ret r).
Proof.
  induction fuel as [|fuel IH]; intros fuel' i r Hle; [split; done|].
  destruct fuel' as [|fuel']; [lia|]. assert (fuel ≤ fuel')%nat as Hle' by lia.
  split; simpl.
  - destruct (length buf <=? i)%nat; [done|].
    case_bool_decide; [done|]. destruct (_ || _); [|done].
    apply (IH fuel' _ _ Hle').
  - destruct (length buf <=? i)%nat; [done|].
    case_bool_decide; [done|].
    destruct (bencode_next_index_fuel fuel buf i) as [[ni|]|] eqn:E; [| |done].
    + rewrite (proj1 (IH fuel' _ _ Hle') E). apply (IH fuel' _ _ Hle').
    + by rewrite (proj1 (IH fuel' _ _ Hle') E).
Qed.

(** C10. The framing scan [bencode_next_index(buf, i)] returns on every
    byte string and every starting index: the fuel it is run with is never
    exhausted, any larger amount of fuel gives the same result, and a
    returned index [j] satisfies [i < j <= len(buf)]. *)
Theorem bencode_next_index_total (buf : bytes) (i : nat) :
  ∃ r : option nat,
    bencode_next_index buf i = Ret r ∧
    (∀ fuel, (scan_fuel buf ≤ fuel)%nat → bencode_next_index_fuel fuel buf i = Ret r) ∧
    match r with
    | Some j => (i < j ≤ length buf)%nat
    | None => True
    end.
Proof.
  destruct (proj1 (scan_step buf (scan_fuel buf) i)) as (r & Hr & Hadv).
  { unfold scan_fuel. lia. }
  exists r. split; [done|]. split; [|done].
  intros fuel Hle. by apply (scan_fuel_mono buf (scan_fuel buf) fuel i r Hle).
Qed.

End scan.

(** ** Decimal text: [int(str(z)) == z] *)

Lemma digit_val_digit_byte d : (d < 10)%N → digit_val (digit_byte d) = Some (Z.of_N d).
Proof.
  intros Hd.
  assert (d ∈ [0;1;2;3;4;5;6;7;8;9]%N) as Hin.
  { rewrite !elem_of_cons. lia. }
  rewrite !elem_of_cons in Hin. rewrite elem_of_nil in Hin.
  destruct Hin as [->|[->|[->|[->|[->|[->|[->|[->|[->|[->|[]]]]]]]]]]]; reflexivity.
Qed.

Lemma digits_of_parse fuel : ∀ n suf b,
  (n < 10 * 2 ^ N.of_nat fuel)%N →
  parse_digits (digits_of fuel n suf) 0 b = parse_digits suf (Z.of_N n) true.
Proof.
  induction fuel as [|fuel IH]; intros n suf b Hn.
  - simpl in *. rewrite N.mod_small by lia.
    rewrite digit_val_digit_byte by lia. f_equal; lia.
  - simpl digits_of. destruct (n <? 10)%N eqn:E.
    + apply N.ltb_lt in E. simpl. rewrite N.mod_small by lia.
      rewrite digit_val_digit_byte by lia. f_equal; lia.
    + apply N.ltb_ge in E. rewrite IH.
      * simpl. rewrite digit_val_digit_byte by (apply N.mod_lt; lia).
        f_equal. rewrite N2Z.inj_div, N2Z.inj_mod.
        pose proof (Z.div_mod (Z.of_N n) 10). change (Z.of_N 10) with 10. lia.
      * rewrite Nat2N.inj_succ, N.pow_succ_r' in Hn.
        apply N.Div0.div_lt_upper_bound. lia.
Qed.

Lemma digits_of_digits fuel : ∀ n suf,
  Forall is_digit suf → Forall is_digit (digits_of fuel n suf).
Proof.
  assert (∀ n, is_digit (digit_byte (n mod 10))) as Hd.
  { intros n. red. rewrite digit_val_digit_byte; [done|]. apply N.mod_lt; lia. }
  induction fuel as [|fuel IH]; intros n suf Hsuf; simpl.
  - by constructor.
  - destruct (n <? 10)%N; [by constructor|]. apply IH. by constructor.
Qed.

Lemma digits_of_nonempty fuel n suf : digits_of fuel n suf ≠ [].
Proof.
  revert n suf. induction fuel as [|fuel IH]; intros n suf; simpl; [done|].
  destruct (n <? 10)%N; [done|]. apply IH.
Qed.

Lemma log2_fuel_enough n : (n < 10 * 2 ^ N.of_nat (N.to_nat (N.log2 n)))%N.
Proof.
  rewrite N2Nat.id. destruct (decide (n = 0%N)) as [->|Hn]; [done|].
  pose proof (N.log2_spec n ltac:(lia)) as [_ Hlt].
  rewrite N.pow_succ_r' in Hlt. lia.
Qed.

Lemma str_N_digits n : Forall is_digit (str_N n).
Proof. by apply digits_of_digits. Qed.

Lemma str_N_nonempty n : str_N n ≠ [].
Proof. apply digits_of_nonempty. Qed.

Lemma str_N_parse n b : parse_digits (str_N n) 0 b = Some (Z.of_N n).
Proof. unfold str_N. rewrite digits_of_parse by apply log2_fuel_enough. done. Qed.

Lemma lstrip_nonspace_head c r : is_space c = false → lstrip (c :: r) = c :: r.
Proof. intros H. simpl. by rewrite H. Qed.

Lemma strip_no_space s : Forall (λ c, is_space c = false) s → strip s = s.
Proof.
  intros Hs. unfold strip.
  assert (∀ l, Forall (λ c, is_space c = false) l → lstrip l = l) as Hl.
  { intros [|c l]; [done|]. intros [Hc _]%Forall_cons_1. by apply lstrip_nonspace_head. }
  rewrite (Hl s Hs), Hl, reverse_involutive; [done|].
  by apply Forall_reverse.
Qed.

Lemma is_digit_not_space c : is_digit c → is_space c = false.
Proof. intros [d Hd]. by eapply digit_val_not_space. Qed.

Lemma py_int_str_N n : py_int (str_N n) = Some (Z.of_N n).
Proof.
  unfold py_int. rewrite strip_no_space.
  2:{ eapply Forall_impl; [apply str_N_digits|]. apply is_digit_not_space. }
  pose proof (str_N_digits n) as Hd. pose proof (str_N_nonempty n) as Hne.
  pose proof (str_N_parse n false) as Hp.
  destruct (str_N n) as [|c r]; [done|].
  apply Forall_cons_1 in Hd as [[d Hc] _].
  assert (c ≠ "-"%byte ∧ c ≠ "+"%byte) as [??].
  { split; intros ->; vm_compute in Hc; done. }
  by rewrite !bool_decide_eq_false_2 by done.
Qed.

(** [int(str(z)) == z] for every Python int [z]. *)
Lemma py_int_str_Z z : py_int (str_Z z) = Some z.
Proof.
  unfold str_Z. destruct (z <? 0) eqn:E.
  - apply Z.ltb_lt in E. unfold py_int. rewrite strip_no_space.
    2:{ constructor; [done|]. eapply Forall_impl; [apply str_N_digits|].
        apply is_digit_not_space. }
    rewrite bool_decide_eq_true_2 by done.
    rewrite str_N_parse. simpl. f_equal. lia.
  - apply Z.ltb_ge in E. rewrite py_int_str_N. f_equal. lia.
Qed.

(** The characters of [str(z)] are digits and a leading minus sign. *)
Lemma str_Z_chars z : Forall (λ c, is_digit c ∨ c = "-"%byte) (str_Z z).
Proof.
  unfold str_Z. destruct (z <? 0).
  - constructor; [by right|]. eapply Forall_impl; [apply str_N_digits|]. by left.
  - eapply Forall_impl; [apply str_N_digits|]. by left.
Qed.

Lemma str_Z_nat (n : nat) : str_Z (Z.of_nat n) = str_N (N.of_nat n).
Proof.
  unfold str_Z. assert ((Z.of_nat n <? 0) = false) as -> by (apply Z.ltb_ge; lia).
  f_equal. lia.
Qed.

(** ** The order on byte strings and the sort of dict items *)

Lemma byte_to_N_inj x y : Byte.to_N x = Byte.to_N y → x = y.
Proof.
  intros H. apply (f_equal Byte.of_N) in H. rewrite !Byte.of_to_N in H. congruence.
Qed.

Lemma bytes_compare_eq a b : bytes_compare a b = Eq → a = b.
Proof.
  revert b. induction a as [|x a IH]; intros [|y b]; simpl; try done.
  destruct (N.compare_spec (Byte.to_N x) (Byte.to_N y)) as [E| |]; try done.
  intros ->%IH. by apply byte_to_N_inj in E as ->.
Qed.

Lemma bytes_compare_refl a : bytes_compare a a = Eq.
Proof. induction a as [|x a IH]; simpl; [done|]. by rewrite N.compare_refl. Qed.

Lemma bytes_compare_antisym a b : bytes_compare b a = CompOpp (bytes_compare a b).
Proof.
  revert b. induction a as [|x a IH]; intros [|y b]; simpl; try done.
  rewrite (N.compare_antisym (Byte.to_N x) (Byte.to_N y)).
  destruct (Byte.to_N x ?= Byte.to_N y)%N; simpl; auto.
Qed.

Lemma bytes_leb_total a b : bytes_leb a b = false → bytes_leb b a = true.
Proof.
  unfold bytes_leb. rewrite (bytes_compare_antisym a b).
  by destruct (bytes_compare a b).
Qed.

Lemma bytes_leb_antisym a b : bytes_leb a b = true → bytes_leb b a = true → a = b.
Proof.
  unfold bytes_leb. rewrite (bytes_compare_antisym a b).
  destruct (bytes_compare a b) eqn:E; simpl; try done.
  intros _ _. by apply bytes_compare_eq.
Qed.

Lemma bytes_leb_trans a b c :
  bytes_leb a b = true → bytes_leb b c = true → bytes_leb a c = true.
Proof.
  unfold bytes_leb. revert b c.
  induction a as [|x a IH]; intros [|y b] [|z c]; simpl; try done.
  destruct (N.compare_spec (Byte.to_N x) (Byte.to_N y)) as [E1|E1|E1];
    destruct (N.compare_spec (Byte.to_N y) (Byte.to_N z)) as [E2|E2|E2];
    destruct (N.compare_spec (Byte.to_N x) (Byte.to_N z)) as [E3|E3|E3];
    try done; try lia.
  apply IH.
Qed.

Lemma bytes_ltb_leb_ne a b : bytes_leb a b = true → a ≠ b → bytes_ltb a b = true.
Proof.
  unfold bytes_leb, bytes_ltb. destruct (bytes_compare a b) eqn:E; try done.
  apply bytes_compare_eq in E. done.
Qed.

Section sort_items.
Import magnet.
Context {A : Type}.
Implicit Types (l : list (bytes * A)) (x : bytes * A).

Lemma insert_item_perm x l : insert_item x l ≡ₚ x :: l.
Proof.
  induction l as [|y l IH]; simpl; [done|].
  destruct (bytes_leb _ _); [done|]. by rewrite IH, Permutation_swap.
Qed.

Lemma sort_items_perm l : sort_items l ≡ₚ l.
Proof.
  induction l as [|x l IH]; simpl; [done|].
  by rewrite insert_item_perm, IH.
Qed.

Lemma insert_item_sorted x l :
  StronglySorted key_le l → StronglySorted key_le (insert_item x l).
Proof.
  induction 1 as [|y l Hl IH Hy]; simpl.
  - repeat constructor.
  - destruct (bytes_leb x.1 y.1) eqn:E.
    + constructor; [by constructor|]. constructor; [done|].
      eapply Forall_impl; [exact Hy|]. intros z Hz. red.
      by eapply bytes_leb_trans.
    + constructor; [done|]. rewrite insert_item_perm.
      constructor; [|done]. by apply bytes_leb_total.
Qed.

Lemma sort_items_sorted l : StronglySorted key_le (sort_items l).
Proof.
  induction l as [|x l IH]; simpl; [constructor|]. by apply insert_item_sorted.
Qed.

(** With pairwise distinct keys the sorted items are strictly increasing. *)
Lemma sort_items_strict l :
  NoDup l.*1 → StronglySorted key_lt (sort_items l).
Proof.
  intros Hnd. rewrite <-(sort_items_perm l) in Hnd.
  pose proof (sort_items_sorted l) as Hs.
  induction Hs as [|y r Hr IH Hy]; [constructor|].
  rewrite fmap_cons in Hnd. apply NoDup_cons in Hnd as [Hy' Hnd].
  constructor; [by apply IH|].
  apply Forall_forall. intros z Hz.
  apply bytes_ltb_leb_ne; [by eapply Forall_forall in Hy|].
  intros Heq. apply Hy'. rewrite Heq. by apply list_elem_of_fmap_2.
Qed.

Lemma insert_item_fmap {C} (f : A → C) x l :
  insert_item (prod_map id f x) (prod_map id f <$> l)
  = prod_map id f <$> insert_item x l.
Proof.
  induction l as [|y r IHr]; simpl; [done|].
  destruct (bytes_leb _ _); simpl; [done|]. f_equal. apply IHr.
Qed.

Lemma sort_items_fmap {C} (f : A → C) l :
  sort_items (prod_map id f <$> l) = prod_map id f <$> sort_items l.
Proof.
  unfold sort_items. induction l as [|x l IH]; [done|].
  rewrite fmap_cons. simpl foldr. rewrite IH. apply insert_item_fmap.
Qed.

End sort_items.

(** ** Induction on bencoded values *)

Lemma sum_list_elem (l : list nat) x : x ∈ l → (x ≤ sum_list l)%nat.
Proof.
  induction 1 as [|?? ? ? IH]; simpl; lia.
Qed.

Lemma bsize_list_elem l v : v ∈ l → (bsize v < bsize (BList l))%nat.
Proof.
  intros Hv. simpl. apply Nat.lt_succ_r, sum_list_elem.
  by apply (list_elem_of_fmap_2 bsize).
Qed.

Lemma bsize_dict_elem (d : gmap bytes bvalue) k v :
  d !! k = Some v → (bsize v < bsize (BDict d))%nat.
Proof.
  intros Hv. simpl. apply Nat.lt_succ_r, sum_list_elem.
  apply (list_elem_of_fmap_2' snd _ (k, bsize v)); [|done].
  apply elem_of_map_to_list. by rewrite lookup_fmap, Hv.
Qed.

Lemma bvalue_ind' (P : bvalue → Prop) :
  (∀ z, P (BInt z)) →
  (∀ b, P (BBytes b)) →
  (∀ l, Forall P l → P (BList l)) →
  (∀ d : gmap bytes bvalue, map_Forall (λ _, P) d → P (BDict d)) →
  ∀ v, P v.
Proof.
  intros Hi Hb Hl Hd v.
  remember (bsize v) as n eqn:Hn. revert v Hn.
  induction n as [n IH] using lt_wf_ind. intros v ->.
  destruct v as [z|b|l|d]; [auto..| |].
  - apply Hl, Forall_forall. intros x Hx.
    eapply IH; [|done]. by apply bsize_list_elem.
  - apply Hd. intros k x Hx.
    eapply IH; [|done]. by eapply bsize_dict_elem.
Qed.

(** ** Slices and searches in a buffer with a known layout *)

Lemma at1_app (pre : bytes) x rest : at1 (pre ++ x :: rest) (length pre) = [x].
Proof.
  unfold at1, slice. rewrite drop_app_length.
  by replace (length pre + 1 - length pre)%nat with 1%nat by lia.
Qed.

Lemma slice_app_mid (pre mid suf : bytes) i j :
  i = length pre → j = (i + length mid)%nat →
  slice (pre ++ mid ++ suf) i j = mid.
Proof.
  intros -> ->. unfold slice. rewrite drop_app_length.
  replace (length pre + length mid - length pre)%nat with (length mid) by lia.
  by rewrite take_app_length.
Qed.

Lemma bytes_find_app (pre rest needle : bytes) :
  bytes_find (pre ++ rest) needle (length pre) = find_in needle rest (length pre).
Proof.
  unfold bytes_find. rewrite drop_app_length, length_app.
  by rewrite (proj2 (Nat.leb_le _ _)) by lia.
Qed.

Lemma find_in_single c (s suf : bytes) pos :
  c ∉ s → find_in [c] (s ++ c :: suf) pos = Some (pos + length s)%nat.
Proof.
  revert pos. induction s as [|x s IH]; intros pos Hc; simpl.
  - rewrite bool_decide_eq_true_2 by done. simpl. f_equal. lia.
  - apply not_elem_of_cons in Hc as [Hne Hc].
    rewrite bool_decide_eq_false_2 by done. simpl.
    rewrite IH by done. f_equal. lia.
Qed.

Lemma is_digit_leb c : is_digit c → bytes_leb (B "0") [c] && bytes_leb [c] (B "9") = true.
Proof.
  intros [d Hd]. change (B "0") with ["0"%byte]. change (B "9") with ["9"%byte].
  rewrite !bytes_leb_single. unfold digit_val in Hd.
  change (Byte.to_N "0") with 48%N. change (Byte.to_N "9") with 57%N.
  by destruct (_ && _)%N.
Qed.

Lemma is_digit_ne c x : is_digit c → digit_val x = None → c ≠ x.
Proof. intros [d Hd] Hx ->. congruence. Qed.

Lemma num_char_ne c x :
  is_digit c ∨ c = "-"%byte → digit_val x = None → x ≠ "-"%byte → c ≠ x.
Proof. intros [Hc| ->] Hx Hm; [by apply is_digit_ne|done]. Qed.

(** ** magnet.py: decoding an encoding *)

Section roundtrip.
Import magnet.

Lemma map_fmap {X Y} (f : X → Y) (l : list X) : map f l = f <$> l.
Proof. induction l; simpl; by f_equal. Qed.

(** The dict branch of [_bencode] in the order of the source: sort the
    items by key, then encode each key and value. *)
Lemma _bencode_dict (d : gmap bytes bvalue) :
  _bencode (BDict d)
  = B "d"
    ++ concat (map (λ kv : bytes * bvalue, _bencode (BBytes kv.1) ++ _bencode kv.2)
                 (sort_items (map_to_list d)))
    ++ B "e".
Proof.
  simpl. rewrite map_to_list_fmap, sort_items_fmap. do 3 f_equal.
  rewrite !map_fmap, <-list_fmap_compose. by apply list_fmap_ext; intros ? [k v] ?.
Qed.

Lemma not_e_in_num s : Forall (λ c, is_digit c ∨ c = "-"%byte) s → "e"%byte ∉ s.
Proof.
  intros Hs He. eapply Forall_forall in Hs; [|done].
  by eapply (num_char_ne _ "e"%byte) in Hs.
Qed.

Lemma not_colon_in_digits s : Forall is_digit s → ":"%byte ∉ s.
Proof.
  intros Hs He. eapply Forall_forall in Hs; [|done].
  by eapply (is_digit_ne _ ":"%byte) in Hs.
Qed.

Ltac unB :=
  change (B "e") with ["e"%byte] in *; change (B "i") with ["i"%byte] in *;
  change (B "l") with ["l"%byte] in *; change (B "d") with ["d"%byte] in *;
  change (B ":") with [":"%byte] in *.

Lemma slice_layout (buf pre mid suf : bytes) i j :
  buf = pre ++ mid ++ suf → i = length pre → j = (i + length mid)%nat →
  slice buf i j = mid.
Proof. intros ->. apply slice_app_mid. Qed.

Lemma bytes_find_layout (buf pre rest needle : bytes) i :
  buf = pre ++ rest → i = length pre →
  bytes_find buf needle i = find_in needle rest i.
Proof. intros -> ->. apply bytes_find_app. Qed.

Ltac layout := repeat rewrite <-app_assoc; reflexivity.
Ltac lens := repeat (progress (simpl; rewrite ?length_app)); lia.

Lemma at1_head (pre s rest : bytes) c r :
  s = c :: r → at1 (pre ++ s ++ rest) (length pre) = [c].
Proof. intros ->. apply at1_app. Qed.

Lemma bencode_nonempty v : (1 ≤ length (_bencode v))%nat.
Proof. destruct v; simpl; unfold bencode_bytes; unB; lens. Qed.

Lemma rt_int z : rt (BInt z).
Proof.
  intros fuel pre suf Hf. destruct fuel as [|fuel]; [simpl in Hf; lia|]. clear Hf.
  simpl _bencode. unB. cbn [app _bdecode_fuel]. rewrite at1_app.
  rewrite (bool_decide_eq_true_2 (["i"%byte] = B "i")) by done. unB.
  rewrite (bytes_find_layout _ pre (("i"%byte :: str_Z z) ++ "e"%byte :: suf) _ _)
    by first [layout|lens].
  rewrite find_in_single.
  2:{ apply not_elem_of_cons. split; [done|]. apply not_e_in_num, str_Z_chars. }
  rewrite (slice_layout _ (pre ++ ["i"%byte]) (str_Z z) ("e"%byte :: suf))
    by first [layout|lens].
  rewrite py_int_str_Z. do 3 f_equal. lens.
Qed.

Lemma str_N_head n : ∃ c r, str_N n = c :: r ∧ is_digit c.
Proof.
  pose proof (str_N_digits n) as Hd. pose proof (str_N_nonempty n) as Hne.
  destruct (str_N n) as [|c r]; [done|]. apply Forall_cons_1 in Hd as [? _]. eauto.
Qed.

Lemma rt_bytes b : rt (BBytes b).
Proof.
  intros fuel pre suf Hf. pose proof (bencode_nonempty (BBytes b)).
  destruct fuel as [|fuel]; [lia|]. clear Hf.
  simpl _bencode. unfold bencode_bytes. rewrite str_Z_nat.
  destruct (str_N_head (N.of_nat (length b))) as (c & r & Hsn & Hc).
  pose proof (str_N_digits (N.of_nat (length b))) as Hd.
  pose proof (py_int_str_N (N.of_nat (length b))) as Hint.
  set (sn := str_N (N.of_nat (length b))) in *.
  unB. cbn [_bdecode_fuel]. rewrite <-app_assoc, (at1_head pre sn _ c r Hsn).
  rewrite !bool_decide_eq_false_2 by (intros [= ->]; by destruct Hc).
  rewrite is_digit_leb by done. unB.
  rewrite (bytes_find_layout _ pre (sn ++ ":"%byte :: b ++ suf) _ _)
    by first [layout|lens].
  rewrite find_in_single by by apply not_colon_in_digits.
  rewrite (slice_layout _ pre sn (":"%byte :: b ++ suf)) by first [layout|lens].
  rewrite Hint. replace (Z.to_nat (Z.of_N (N.of_nat (length b)))) with (length b) by lia.
  rewrite (slice_layout _ (pre ++ sn ++ [":"%byte]) b suf) by first [layout|lens].
  do 3 f_equal. lens.
Qed.

Lemma bencode_head v : ∃ c r, _bencode v = c :: r ∧ c ≠ "e"%byte.
Proof.
  destruct v as [z|b|l|d]; simpl; unB; try (eexists _, _; split; [reflexivity|done]).
  unfold bencode_bytes. rewrite str_Z_nat.
  destruct (str_N_head (N.of_nat (length b))) as (c & r & -> & Hc).
  eexists _, _. split; [reflexivity|]. by apply is_digit_ne.
Qed.

Lemma rt_list_loop l :
  Forall rt l → ∀ fuel pre suf out,
    (2 * length (enc_list l) + 1 ≤ fuel)%nat →
    _bdecode_list fuel (pre ++ enc_list l ++ B "e" ++ suf) (length pre) out
    = Ret (Some (BList (out ++ l), (length pre + length (enc_list l) + 1)%nat)).
Proof.
  induction 1 as [|v l Hv Hl IH]; intros fuel pre suf out Hf;
    (destruct fuel as [|fuel]; [lia|]); cbn [_bdecode_list]; unB.
  - cbn [enc_list map concat app]. rewrite at1_app.
    rewrite (bool_decide_eq_false_2 (["e"%byte] ≠ ["e"%byte])) by (intros Hn; by apply Hn).
    rewrite app_nil_r. do 3 f_equal. simpl. lia.
  - unfold enc_list in *. cbn [map concat] in *. rewrite length_app in Hf.
    pose proof (bencode_nonempty v).
    destruct (bencode_head v) as (c & r & Hc & Hne).
    rewrite <-!app_assoc, (at1_head pre (_bencode v) _ c r Hc).
    rewrite (bool_decide_eq_true_2 ([c] ≠ ["e"%byte])) by (by intros [= ->]).
    rewrite Hv by lia.
    specialize (IH fuel (pre ++ _bencode v) suf (out ++ [v])).
    rewrite <-!app_assoc, length_app in IH. unB. rewrite IH by lia.
    rewrite length_app. do 3 f_equal. lia.
Qed.

Lemma rt_list l : Forall rt l → rt (BList l).
Proof.
  intros Hl fuel pre suf Hf.
  assert (length (_bencode (BList l)) = length (enc_list l) + 2)%nat as Hlen.
  { simpl. fold (enc_list l). unB. lens. }
  rewrite Hlen in *. destruct fuel as [|fuel]; [lia|].
  simpl _bencode. fold (enc_list l).
  unB. cbn [app _bdecode_fuel]. rewrite at1_app.
  rewrite (bool_decide_eq_false_2 (["l"%byte] = B "i")) by done.
  rewrite (bool_decide_eq_true_2 (["l"%byte] = B "l")) by done.
  pose proof (rt_list_loop l Hl fuel (pre ++ ["l"%byte]) suf []) as Hloop.
  rewrite <-!app_assoc in Hloop. unB. cbn [app] in Hloop.
  rewrite length_app in Hloop. simpl in Hloop.
  rewrite <-!app_assoc. cbn [app]. rewrite Hloop by lia.
  do 3 f_equal. lia.
Qed.

Lemma rt_dict_loop items :
  Forall (λ kv, rt kv.2) items → ∀ fuel pre suf out,
    (2 * length (enc_items items) + 1 ≤ fuel)%nat →
    _bdecode_dict fuel (pre ++ enc_items items ++ B "e" ++ suf) (length pre) out
    = Ret (Some (BDict (put_items out items),
                 (length pre + length (enc_items items) + 1)%nat)).
Proof.
  induction 1 as [|[k v] items Hv Hl IH]; intros fuel pre suf out Hf;
    (destruct fuel as [|fuel]; [lia|]); cbn [_bdecode_dict]; unB.
  - cbn [enc_items map concat app]. rewrite at1_app.
    rewrite (bool_decide_eq_false_2 (["e"%byte] ≠ ["e"%byte])) by (intros Hn; by apply Hn).
    do 3 f_equal. simpl. lia.
  - unfold enc_items in *. cbn [map concat fst snd] in *.
    rewrite !length_app in Hf.
    pose proof (bencode_nonempty v). pose proof (bencode_nonempty (BBytes k)).
    destruct (bencode_head (BBytes k)) as (c & r & Hc & Hne).
    rewrite <-!app_assoc, (at1_head pre (_bencode (BBytes k)) _ c r Hc).
    rewrite (bool_decide_eq_true_2 ([c] ≠ ["e"%byte])) by (by intros [= ->]).
    rewrite (rt_bytes k) by lia.
    pose proof (Hv fuel (pre ++ _bencode (BBytes k))
                  (enc_items items ++ ["e"%byte] ++ suf)) as Hv'.
    unfold enc_items in Hv'. cbn [snd] in Hv'.
    rewrite <-!app_assoc, length_app in Hv'. rewrite Hv' by lia.
    specialize (IH fuel (pre ++ _bencode (BBytes k) ++ _bencode v) suf (<[k:=v]> out)).
    rewrite <-!app_assoc, !length_app in IH. unB.
    rewrite Nat.add_assoc in IH. rewrite IH by lia.
    do 3 f_equal. rewrite !length_app. lia.
Qed.

Lemma put_items_snoc out items kv :
  put_items out (items ++ [kv]) = <[kv.1 := kv.2]> (put_items out items).
Proof. unfold put_items. by rewrite foldl_app. Qed.

Lemma put_items_list_to_map items :
  NoDup items.*1 → put_items ∅ items = list_to_map items.
Proof.
  induction items as [|[k v] items IH] using rev_ind; [done|].
  rewrite fmap_app, NoDup_app. intros (Hnd & Hk & _).
  rewrite put_items_snoc, IH by done. simpl.
  rewrite list_to_map_snoc; [done|]. intros Hin. apply (Hk k Hin). simpl. left.
Qed.

Lemma put_items_sorted (d : gmap bytes bvalue) :
  put_items ∅ (sort_items (map_to_list d)) = d.
Proof.
  rewrite put_items_list_to_map.
  - rewrite <-(list_to_map_to_list d) at 2. apply list_to_map_proper.
    + rewrite sort_items_perm. apply NoDup_fst_map_to_list.
    + apply sort_items_perm.
  - rewrite sort_items_perm. apply NoDup_fst_map_to_list.
Qed.

Lemma rt_dict (d : gmap bytes bvalue) : map_Forall (λ _, rt) d → rt (BDict d).
Proof.
  intros Hd fuel pre suf Hf. rewrite _bencode_dict in *.
  fold (enc_items (sort_items (map_to_list d))) in *.
  set (items := sort_items (map_to_list d)) in *.
  assert (length (B "d" ++ enc_items items ++ B "e") = length (enc_items items) + 2)%nat
    as Hlen by (unB; lens).
  rewrite Hlen in *. destruct fuel as [|fuel]; [lia|].
  unB. cbn [app _bdecode_fuel]. rewrite at1_app.
  rewrite (bool_decide_eq_false_2 (["d"%byte] = B "i")) by done.
  rewrite (bool_decide_eq_false_2 (["d"%byte] = B "l")) by done.
  rewrite (bool_decide_eq_true_2 (["d"%byte] = B "d")) by done.
  assert (Forall (λ kv : bytes * bvalue, rt kv.2) items) as Hitems.
  { apply Forall_forall. intros [k v] Hkv. simpl. unfold items in Hkv.
    rewrite sort_items_perm in Hkv. apply elem_of_map_to_list in Hkv.
    by apply (Hd k v). }
  pose proof (rt_dict_loop items Hitems fuel (pre ++ ["d"%byte]) suf ∅) as Hloop.
  rewrite <-!app_assoc in Hloop. unB. cbn [app] in Hloop.
  rewrite length_app in Hloop. simpl in Hloop.
  rewrite <-!app_assoc. cbn [app]. rewrite Hloop by lia.
  unfold items. rewrite put_items_sorted. do 3 f_equal. lia.
Qed.

Lemma rt_all v : rt v.
Proof.
  induction v using bvalue_ind'; auto using rt_int, rt_bytes, rt_list, rt_dict.
Qed.

(** C9. For every dict [d] whose keys are byte strings and whose values
    are ints, byte strings, lists and such dicts, [_bdecode(_bencode(d), 0)]
    returns [d] together with the length of the encoding (so the whole
    output is consumed), and [_bencode(d)] is ["d"], then the encoded
    entries of [d] in strictly increasing lexicographic order of their
    keys, then ["e"]. *)
Theorem bencode_roundtrip_sorted (d : gmap bytes bvalue) :
  _bdecode (_bencode (BDict d)) 0
  = Ret (Some (BDict d, length (_bencode (BDict d))))
  ∧ ∃ items : list (bytes * bvalue),
      items ≡ₚ map_to_list d
      ∧ StronglySorted key_lt items
      ∧ _bencode (BDict d)
        = B "d"
          ++ concat (map (λ kv : bytes * bvalue,
                            _bencode (BBytes kv.1) ++ _bencode kv.2) items)
          ++ B "e".
Proof.
  split.
  - pose proof (rt_all (BDict d) (decode_fuel (_bencode (BDict d))) [] []) as Hrt.
    rewrite app_nil_r in Hrt. apply Hrt. unfold decode_fuel. lia.
  - exists (sort_items (map_to_list d)). split; [apply sort_items_perm|].
    split; [|apply _bencode_dict].
    apply sort_items_strict, NoDup_fst_map_to_list.
Qed.

End roundtrip.

(** ** master.py: the seen set *)

Section dedup.
Import master calls.

Lemma _is_bad_seen now a m : seen (_is_bad now a m).2 = seen m ∧ queue (_is_bad now a m).2 = queue m.
Proof.
  unfold _is_bad. destruct (bad m !! a) as [u|]; [|done].
  destruct (Qeq_bool u 0); [done|]. by destruct (Qle_bool u now).
Qed.

(** What one call does to the seen set and the queue. *)
Lemma _enqueue_once_spec now ih a m :
  length ih = 20%nat →
  let key := seen_key ih a in
  let r := _enqueue_once now ih (Some a) m in
  (r.1 = true →
     (_is_bad now a m).1 = false ∧ (key ∉ seen m) ∧
     seen r.2 = (if 60000 <? Z.of_nat (size ({[key]} ∪ seen m)) then ∅ else ({[key]} ∪ seen m)) ∧
     queue r.2 = queue m ++ [(a, ih)]) ∧
  (r.1 = false →
     ((_is_bad now a m).1 = true ∨ key ∈ seen m) ∧ seen r.2 = seen m ∧ queue r.2 = queue m).
Proof.
  intros Hlen key r. subst r. unfold _enqueue_once.
  rewrite bool_decide_eq_false_2 by (intros Hn; by apply Hn).
  pose proof (_is_bad_seen now a m) as [Hs Hq].
  destruct (_is_bad now a m) as [b m1] eqn:Eb. simpl in Hs, Hq.
  destruct b; simpl.
  - split; [done|]. intros _. auto.
  - fold key. rewrite Hs. case_bool_decide as Hk; simpl.
    + split; [done|]. intros _. auto.
    + split; [|done]. intros _. by rewrite ?Hs, ?Hq.
Qed.

Lemma do_call_cases c m :
  ((do_call c m).1 = false ∧ seen (do_call c m).2 = seen m) ∨
  ((do_call c m).1 = true ∧
   ∃ key, (key ∉ seen m) ∧
     seen (do_call c m).2
     = (if 60000 <? Z.of_nat (size ({[key]} ∪ seen m)) then ∅ else ({[key]} ∪ seen m))).
Proof.
  destruct c as [now ih [a|]]; unfold do_call; simpl; [|by left].
  destruct (decide (length ih = 20%nat)) as [Hlen|Hlen].
  - pose proof (_enqueue_once_spec now ih a m Hlen) as [Ht Hf]. cbv zeta in Ht, Hf.
    destruct (_enqueue_once now ih (Some a) m).1 eqn:E.
    + right. split; [done|]. exists (seen_key ih a).
      destruct (Ht eq_refl) as (_ & ? & ? & _). done.
    + left. destruct (Hf eq_refl) as (_ & ? & _). done.
  - left. unfold _enqueue_once. by rewrite bool_decide_eq_true_2.
Qed.

Lemma do_call_seen_mono c m :
  ¬ flushes c m → seen m ⊆ seen (do_call c m).2.
Proof.
  intros Hnf. destruct (do_call_cases c m) as [[_ ->]|[Ht (key & _ & Hs)]]; [done|].
  destruct (60000 <? _) eqn:E; [|rewrite Hs; apply union_subseteq_r].
  exfalso. apply Hnf. by split.
Qed.

Lemma run_calls_seen_mono cs m :
  no_flush cs m → seen m ⊆ seen (run_calls cs m).
Proof.
  revert m. induction cs as [|c cs IH]; intros m; simpl; [done|].
  intros [Hc Hcs]. etrans; [by apply do_call_seen_mono|]. by apply IH.
Qed.

Lemma do_call_size c m :
  Z.of_nat (size (seen m)) ≤ 60000 → Z.of_nat (size (seen (do_call c m).2)) ≤ 60000.
Proof.
  intros Hm. destruct (do_call_cases c m) as [[_ ->]|[Ht (key & _ & ->)]]; [done|].
  destruct (60000 <? _) eqn:E; [by rewrite size_empty|]. by apply Z.ltb_ge in E.
Qed.

(** A seen set with room for one more key is not flushed by a call. *)
Lemma small_seen_no_flush m now ih a :
  Z.of_nat (size (seen m)) < 60000 → ¬ flushes (mkCall now ih (Some a)) m.
Proof.
  intros Hs [Hr He].
  destruct (do_call_cases (mkCall now ih (Some a)) m) as [[Hf _]|[_ (key & Hk & Hseen)]].
  { congruence. }
  rewrite He in Hseen.
  assert (size ({[key]} ∪ seen m) = S (size (seen m))) as Hsz.
  { rewrite size_union by (apply disjoint_singleton_l; done). by rewrite size_singleton. }
  rewrite Hsz in Hseen. rewrite (proj2 (Z.ltb_ge _ _)) in Hseen by lia.
  assert (key ∈ (∅ : gset (string * string * Z))) as Hin.
  { rewrite Hseen. by apply elem_of_union_l, elem_of_singleton. }
  by apply not_elem_of_empty in Hin.
Qed.



End dedup.

(** ** master.py: the bad-peer quarantine *)

Section quarantine.
Import master calls dispatch.

Lemma Qle_bool_true (x y : Q) : (x <= y)%Q → Qle_bool x y = true.
Proof. apply Qle_bool_iff. Qed.

Lemma Qle_bool_false (x y : Q) : (y < x)%Q → Qle_bool x y = false.
Proof.
  intros H. destruct (Qle_bool x y) eqn:E; [|done].
  apply Qle_bool_iff in E. lra.
Qed.

Lemma Qeq_bool_false (x y : Q) : ¬ (x == y)%Q → Qeq_bool x y = false.
Proof.
  intros H. destruct (Qeq_bool x y) eqn:E; [|done].
  by apply Qeq_bool_iff in E.
Qed.

(** The first failure outside a window opens one and counts 1. *)
Lemma _record_failure_opens now now_mark a m :
  window_closed m a now → (0 < fail_window m)%Q → 1 < fail_threshold m →
  _record_failure now now_mark a m
  = set_fail_counts (<[a := (1, (now + fail_window m)%Q)]> (fail_counts m)) m.
Proof.
  unfold window_closed, _record_failure. intros Hc Hw Ht.
  destruct (fail_counts m !! a) as [[c u]|]; simpl.
  - rewrite Qle_bool_true by done. simpl.
    by rewrite (proj2 (Z.leb_gt _ _)) by lia.
  - rewrite Qle_bool_false by lra. simpl.
    by rewrite (proj2 (Z.leb_gt _ _)) by lia.
Qed.

(** A failure inside the window counts one more, and marks the address
    bad once the count reaches the threshold. *)
Lemma _record_failure_counts now now_mark a m c until :
  fail_counts m !! a = Some (c, until) → (now < until)%Q →
  _record_failure now now_mark a m
  = let m' := set_fail_counts (<[a := (c + 1, until)]> (fail_counts m)) m in
    if fail_threshold m <=? c + 1 then _mark_bad now_mark a m' else m'.
Proof.
  unfold _record_failure. intros -> Hlt. simpl.
  by rewrite Qle_bool_false by done.
Qed.

Lemma _enqueue_once_blocked now ih a m until :
  bad m !! a = Some until → ¬ (until == 0)%Q → (now < until)%Q →
  _enqueue_once now ih (Some a) m = (false, m).
Proof.
  intros Hb Hz Hlt. unfold _enqueue_once, _is_bad. rewrite Hb.
  rewrite (Qeq_bool_false until 0), (Qle_bool_false until now) by done.
  case_bool_decide; reflexivity.
Qed.

Lemma _enqueue_once_expired now ih a m until :
  bad m !! a = Some until → ¬ (until == 0)%Q → (until <= now)%Q →
  length ih = 20%nat →
  _enqueue_once now ih (Some a) m
  = _enqueue_once now ih (Some a) (set_bad (delete a (bad m)) m).
Proof.
  intros Hb Hz Hle Hlen. unfold _enqueue_once, _is_bad. rewrite Hb.
  rewrite bool_decide_eq_false_2 by (intros Hn; by apply Hn).
  rewrite Qeq_bool_false, Qle_bool_true by done. simpl.
  by rewrite lookup_delete_eq.
Qed.

Lemma _enqueue_once_not_bad now ih a m :
  bad m !! a = None → length ih = 20%nat → seen_key ih a ∉ seen m →
  (_enqueue_once now ih (Some a) m).1 = true ∧
  bad (_enqueue_once now ih (Some a) m).2 = bad m.
Proof.
  intros Hb Hlen Hk. unfold _enqueue_once, _is_bad. rewrite Hb.
  rewrite bool_decide_eq_false_2 by (intros Hn; by apply Hn).
  by rewrite bool_decide_eq_false_2 by done.
Qed.

(** [_worker] passes a qualifying result on to [_record_failure]. *)
Lemma _worker_qualifying r now now_mark a m :
  qualifying r →
  _worker r now now_mark a m
  = _record_failure now now_mark a
      (set_counts (ok_count m) (fail_count m + 1) (peer_store m) m).
Proof.
  intros Hq. unfold _worker.
  rewrite bool_decide_eq_false_2 by (destruct Hq as [-> | ->]; done).
  by rewrite bool_decide_eq_true_2.
Qed.

Lemma _is_bad_frame now a' m a :
  (a' ≠ a → bad (_is_bad now a' m).2 !! a = bad m !! a)
  ∧ fail_counts (_is_bad now a' m).2 = fail_counts m
  ∧ settings (_is_bad now a' m).2 = settings m.
Proof.
  unfold _is_bad. destruct (bad m !! a') as [until|]; [|done].
  destruct (Qeq_bool until 0); [done|]. destruct (Qle_bool until now); [|done].
  split; [|done]. intros Hne. cbn [snd bad set_bad]. by rewrite lookup_delete_ne.
Qed.

(** A call of [_enqueue_once] leaves the failure counters and the
    settings alone, and the bad entry of every other address. *)
Lemma _enqueue_once_frame now ih address m a :
  (address ≠ Some a → bad (_enqueue_once now ih address m).2 !! a = bad m !! a)
  ∧ fail_counts (_enqueue_once now ih address m).2 = fail_counts m
  ∧ settings (_enqueue_once now ih address m).2 = settings m.
Proof.
  unfold _enqueue_once. destruct address as [a'|]; [|done].
  case_bool_decide; [done|].
  pose proof (_is_bad_frame now a' m a) as (Hb & Hc & Hs).
  destruct (_is_bad now a' m) as [b m1]. cbn [snd] in Hb, Hc, Hs.
  assert (Some a' ≠ Some a → a' ≠ a) as Hne by congruence.
  destruct b; [by auto|]. case_bool_decide; by auto.
Qed.

(** A failure recorded for another address leaves the entries of [a]
    alone. *)
Lemma _record_failure_frame now now_mark a' m a :
  a' ≠ a →
  bad (_record_failure now now_mark a' m) !! a = bad m !! a
  ∧ fail_counts (_record_failure now now_mark a' m) !! a = fail_counts m !! a
  ∧ settings (_record_failure now now_mark a' m) = settings m.
Proof.
  intros Hne. unfold _record_failure.
  destruct (default _ (fail_counts m !! a')) as [c u].
  destruct (Qle_bool u now); simpl;
    (destruct (_ <=? _); simpl; rewrite ?lookup_insert_ne by done; done).
Qed.

(** A step that is no counted failure for [a] leaves the bad entry of
    [a] alone, unless it is a call of [_enqueue_once] for [a], and the
    counter of [a] and the settings in any case. *)
Lemma master_step_frame m e a :
  counted_failure a e = false →
  (match e with Enqueue c => c_address c ≠ Some a | _ => True end →
   bad (master_step m e) !! a = bad m !! a)
  ∧ fail_counts (master_step m e) !! a = fail_counts m !! a
  ∧ settings (master_step m e) = settings m.
Proof.
  destruct e as [r t t' a'|c]; cbn [counted_failure master_step].
  - intros Hc%bool_decide_eq_false. unfold _worker.
    case_bool_decide as Hok; [done|]. case_bool_decide as Hq; [|done].
    assert (a' ≠ a) as Hne by (intros ->; by apply Hc).
    destruct (_record_failure_frame t t' a'
                (set_counts (ok_count m) (fail_count m + 1) (peer_store m) m) a Hne)
      as (Hb & Hf & Hs).
    by rewrite Hb, Hf, Hs.
  - intros _. unfold do_call.
    destruct (_enqueue_once_frame (c_now c) (c_infohash c) (c_address c) m a)
      as (Hb & Hf & Hs).
    rewrite Hf, Hs. by auto.
Qed.

(** While the window opened at [until - 180] stands, every counted
    failure for [a] before [until] adds one to its count. *)
Lemma run_master_counts a until log : ∀ m c,
  fail_counts m !! a = Some (c, until) →
  Forall (in_window a until) log →
  fail_counts (run_master log m) !! a = Some (c + Z.of_nat (failures_of a log), until)
  ∧ settings (run_master log m) = settings m.
Proof.
  induction log as [|e log IH]; intros m c Hc Hw.
  { split; [|done]. unfold failures_of. simpl. by rewrite Z.add_0_r. }
  apply Forall_cons_1 in Hw as [He Hw].
  unfold run_master. cbn [foldl]. fold (run_master log (master_step m e)).
  unfold failures_of. cbn [List.filter].
  destruct (counted_failure a e) eqn:Ec.
  - destruct e as [r t t' a'|?]; [|done]. cbn [in_window] in He.
    specialize (He Ec). cbn [counted_failure] in Ec.
    apply bool_decide_eq_true in Ec as [-> Hq]. cbn [master_step length].
    rewrite _worker_qualifying by done.
    rewrite (_record_failure_counts t t' a _ c until) by done. cbv zeta.
    set (m1 := set_fail_counts _ _).
    assert (fail_counts m1 !! a = Some (c + 1, until)) as Hc1
      by (subst m1; cbn [fail_counts set_fail_counts]; by rewrite lookup_insert_eq).
    assert (settings m1 = settings m) as Hs1 by done.
    destruct (IH (if fail_threshold
                        (set_counts (ok_count m) (fail_count m + 1) (peer_store m) m)
                      <=? c + 1 then _mark_bad t' a m1 else m1) (c + 1)) as [Hf Hs];
      [by destruct (_ <=? _)|done|].
    fold (failures_of a log). rewrite Hf, Hs. split; [f_equal; f_equal; lia|].
    by destruct (_ <=? _).
  - destruct (master_step_frame m e a Ec) as (_ & Hf & Hs).
    destruct (IH (master_step m e) c) as [Hf' Hs']; [by rewrite Hf|done|].
    fold (failures_of a log). by rewrite Hf', Hs', Hs.
Qed.

(** While [a] is marked bad until [expiry], no step moves the entry,
    except a counted failure for [a] and a call of [_enqueue_once] for
    [a] at or after [expiry]. *)
Lemma run_master_blocked a expiry log : ∀ m,
  bad m !! a = Some expiry → ¬ (expiry == 0)%Q →
  Forall (λ e, counted_failure a e = false) log →
  Forall (enqueued_before a expiry) log →
  bad (run_master log m) !! a = Some expiry.
Proof.
  induction log as [|e log IH]; intros m Hb Hz Hc Hq; [done|].
  apply Forall_cons_1 in Hc as [Hce Hc]. apply Forall_cons_1 in Hq as [Hqe Hq].
  unfold run_master. cbn [foldl]. fold (run_master log (master_step m e)).
  apply IH; [|done..].
  destruct (master_step_frame m e a Hce) as (Hframe & _ & _).
  destruct e as [r t t' a'|c]; [by rewrite Hframe|].
  destruct (decide (c_address c = Some a)) as [Ha|Ha]; [|by rewrite Hframe].
  cbn [master_step enqueued_before] in *. unfold do_call. rewrite Ha.
  by rewrite (_enqueue_once_blocked _ _ a m expiry) by auto.
Qed.

(** C5, as the code has it.  With the defaults (threshold 3, window 180 s,
    quarantine 300 s), in any interleaving of the master's threads: a
    fetch result in {timeout, os_error} is recorded for [a] at [t1] with
    no unexpired window; [between] holds whatever happens next (results
    for other addresses, other results for [a], calls of
    [_enqueue_once]), with at least one more such failure for [a], each
    before the window ends at [t1 + 180]; a last one is recorded at
    [t_last], before [t1 + 180] too, its marking at [t_last'].  It marks
    [a] bad until [t_last' + 300].  Whatever happens [after] that (no
    further such failure for [a], calls of [_enqueue_once] for [a] only
    before the expiry), the entry stands: [_enqueue_once] for [a] returns
    false and changes nothing at every time before the expiry; at the
    first call at or after the expiry the entry is removed and the call
    goes through (it returns true for an unseen key). *)
Theorem bad_peer_quarantine (m : Master) (a : address) (r1 r_last : status)
    (t1 t1' t_last t_last' : Q) (between after : list master_event) :
  fail_threshold m = 3 → fail_window m = 180%Q → bad_ttl m = 300%Q →
  qualifying r1 → window_closed m a t1 →
  Forall (in_window a (t1 + 180)) between → (1 ≤ failures_of a between)%nat →
  qualifying r_last → (t_last < t1 + 180)%Q → (0 <= t_last')%Q →
  let expiry := (t_last' + 300)%Q in
  Forall (λ e, counted_failure a e = false) after →
  Forall (enqueued_before a expiry) after →
  let m' := run_master ([Finished r1 t1 t1' a] ++ between
                        ++ [Finished r_last t_last t_last' a] ++ after) m in
  bad m' !! a = Some expiry
  ∧ (∀ (now : Q) (ih : bytes), (now < expiry)%Q →
       _enqueue_once now ih (Some a) m' = (false, m'))
  ∧ (∀ (now : Q) (ih : bytes), (expiry <= now)%Q →
       length ih = 20%nat → seen_key ih a ∉ seen m' →
       (_enqueue_once now ih (Some a) m').1 = true ∧
       bad (_enqueue_once now ih (Some a) m').2 !! a = None).
Proof.
  intros Hth Hw Httl Hq1 Hc Hbw Hn Hql Htl H0 expiry Hac Haq m'.
  assert (¬ (expiry == 0)%Q) as Hnz by (unfold expiry; lra).
  assert (bad m' !! a = Some expiry) as Hbad.
  { subst m'. unfold run_master. rewrite !foldl_app. cbn [foldl master_step].
    rewrite (_worker_qualifying r1) by done.
    rewrite (_record_failure_opens t1) by (simpl; rewrite ?Hw, ?Hth; done || lra || lia).
    set (m1 := set_fail_counts _ _).
    destruct (run_master_counts a (t1 + 180) between m1 1) as [Hf Hs];
      [subst m1; cbn [fail_counts set_fail_counts set_counts fail_window];
       by rewrite lookup_insert_eq, Hw|done|].
    fold (run_master between m1). set (m2 := run_master between m1) in *.
    assert (settings m2 = (3, 180%Q, 300%Q)) as Hs2.
    { rewrite Hs. subst m1. unfold settings. simpl. by rewrite Hth, Hw, Httl. }
    injection Hs2 as Hth2 Hw2 Httl2.
    rewrite (_worker_qualifying r_last) by done.
    rewrite (_record_failure_counts t_last t_last' a _
               (1 + Z.of_nat (failures_of a between)) (t1 + 180)%Q);
      [|exact Hf|done].
    cbv zeta. cbn [fail_threshold set_counts]. rewrite Hth2.
    rewrite (proj2 (Z.leb_le 3 _)) by lia.
    fold (run_master after). apply run_master_blocked; [|done..].
    unfold _mark_bad. cbn [bad set_bad set_fail_counts set_counts bad_ttl].
    by rewrite lookup_insert_eq, Httl2. }
  split; [done|]. split.
  - intros now ih Hlt. by eapply _enqueue_once_blocked.
  - intros now ih Hle Hlen Hk.
    rewrite (_enqueue_once_expired now ih a m' expiry) by done.
    destruct (_enqueue_once_not_bad now ih a (set_bad (delete a (bad m')) m'))
      as [Hr Hb']; [by simpl; rewrite lookup_delete_eq|done..|].
    split; [done|]. rewrite Hb'. simpl. by rewrite lookup_delete_eq.
Qed.

Lemma bad_peer_quarantine_witness :
  let m' := dispatch.run_master
              [ dispatch.Finished st_timeout 1000 1000 addr0;
                dispatch.Finished st_timeout 1010 1010 ("5.6.7.8"%string, 6881);
                dispatch.Finished st_sha1_mismatch 1020 1020 addr0;
                dispatch.Finished st_os_error 1060 1060 addr0;
                dispatch.Enqueue (calls.mkCall 1070 ih0 (Some ("5.6.7.8"%string, 6881)));
                dispatch.Finished st_timeout 1120 1120 addr0;
                dispatch.Finished st_ok 1130 1130 addr0;
                dispatch.Enqueue (calls.mkCall 1200 ih0 (Some addr0));
                dispatch.Finished st_os_error 1210 1210 ("5.6.7.8"%string, 6881) ]
              (master.init store0) in
  master.bad m' !! addr0 = Some (1120 + 300)%Q
  ∧ master._enqueue_once 1300 ih0 (Some addr0) m' = (false, m').
Proof.
  cbv zeta.
  pose proof (bad_peer_quarantine (master.init store0) addr0 st_timeout st_timeout
                1000 1000 1120 1120
                [ dispatch.Finished st_timeout 1010 1010 ("5.6.7.8"%string, 6881);
                  dispatch.Finished st_sha1_mismatch 1020 1020 addr0;
                  dispatch.Finished st_os_error 1060 1060 addr0;
                  dispatch.Enqueue (calls.mkCall 1070 ih0 (Some ("5.6.7.8"%string, 6881))) ]
                [ dispatch.Finished st_ok 1130 1130 addr0;
                  dispatch.Enqueue (calls.mkCall 1200 ih0 (Some addr0));
                  dispatch.Finished st_os_error 1210 1210 ("5.6.7.8"%string, 6881) ]
                eq_refl eq_refl eq_refl) as H.
  specialize (H ltac:(by left) ltac:(exact I)).
  specialize (H ltac:(repeat constructor; intros _; by vm_compute) ltac:(vm_compute; lia)).
  specialize (H ltac:(by left) ltac:(by vm_compute) ltac:(by vm_compute)).
  specialize (H ltac:(repeat constructor)
                ltac:(repeat constructor; intros _; by vm_compute)).
  destruct H as (Hbad & Hblock & _).
  split; [exact Hbad|]. apply Hblock. by vm_compute.
Defined.

(** The window does not slide.  Four results for one address, at 1000,
    1100, 1190 and 1200 s: the last three lie within 100 s of each other,
    yet the window opened at 1000 expires at 1180, the failure at 1190
    starts the count again, and the address is never marked bad: the next
    [_enqueue_once] goes through. *)
Lemma quarantine_window_not_sliding :
  let m4 := _worker st_timeout 1200 1200 addr0
              (_worker st_os_error 1190 1190 addr0
                 (_worker st_timeout 1100 1100 addr0
                    (_worker st_timeout 1000 1000 addr0 (init store0)))) in
  (1200 - 1100 < 180)%Q
  ∧ fail_counts m4 !! addr0 = Some (2, (1190 + 180)%Q)
  ∧ bad m4 !! addr0 = None
  ∧ (_enqueue_once 1201 ih0 (Some addr0) m4).1 = true.
Proof. cbv zeta. repeat split; by vm_compute. Qed.

End quarantine.

(** ** dht.py: queries, announces and samples *)

Section dht_thm.
Import dht dht_data.

Lemma send_find_node_id self a p tid target :
  p ≠ [] →
  ∃ msg, send_find_node self a (Some p) tid target = [SendKrpc msg a] ∧
    find_node_id (SendKrpc msg a) = Some (PBytes (take 10 p ++ drop 10 (nid self))).
Proof.
  intros Hp. destruct p as [|c r]; [done|].
  eexists. split; [reflexivity|]. reflexivity.
Qed.

Lemma send_find_node_no_id self a tid target :
  ∃ msg, send_find_node self a None tid target = [SendKrpc msg a] ∧
    find_node_id (SendKrpc msg a) = Some (PBytes (nid self)).
Proof. eexists. split; reflexivity. Qed.

Lemma join_dht_ids self rand e :
  e ∈ join_dht self rand → find_node_id e = Some (PBytes (nid self)).
Proof.
  unfold join_dht. rewrite list_elem_of_In, in_concat.
  intros (evs & Hevs & He). apply list_elem_of_In in Hevs, He.
  apply elem_of_lookup_imap in Hevs as (i & a & -> & _).
  apply list_elem_of_singleton in He as ->. reflexivity.
Qed.

Lemma deque_append_Forall {A} (P : A → Prop) maxlen x q :
  Forall P q → P x → Forall P (deque_append maxlen x q).
Proof.
  intros Hq Hx. unfold deque_append. apply Forall_drop, Forall_app. auto.
Qed.

Lemma process_find_node_response_queue_ok self now msg a :
  queue_ok self → queue_ok (process_find_node_response self now msg a).
Proof.
  unfold queue_ok, process_find_node_response. intros Hq.
  destruct msg as [| | | |m]; try done.
  destruct (m !! inr "r"%string) as [[| | | |r]|]; try done. simpl.
  generalize (decode_nodes
    match r !! inr "nodes"%string with
    | Some (PBytes b) => b
    | Some (PStr s) => list_byte_of_string s
    | _ => []
    end).
  intros found. revert Hq. generalize (nodes self).
  induction found as [|[[n i] p] found IH]; intros q Hq; simpl; [exact Hq|].
  apply IH. case_bool_decide as Hn; [done|].
  case_bool_decide; [done|]. destruct (_ || _); [done|].
  apply deque_append_Forall; [done|]. simpl.
  destruct (decide (length n = 20%nat)); [done|]. by destruct Hn.
Qed.

Lemma auto_send_find_node_queue_ok self tid target :
  queue_ok self → queue_ok (auto_send_find_node self tid target).2.
Proof.
  unfold queue_ok, auto_send_find_node.
  destruct (nodes self) as [|n q] eqn:E; simpl; [by rewrite E|].
  by intros [_ ?]%Forall_cons_1.
Qed.

(** C4, as the code has it.  The query that the node-queue drain sends to
    a peer [p] whose node id is known carries
    [id = p.nid[:10] + self.nid[10:]]: [send_find_node] calls
    [get_neighbor] with its default [end=10], whatever [token_length] is.
    The queries of the bootstrap ([join_dht]: the bootstrap hosts and the
    addresses of the bootstrap store, whose node ids are not known) carry
    [id = self.nid]. *)
Theorem find_node_neighbor_id (self : DHTProcess) (p : KNode) (rest : list KNode)
    (tid target : bytes) :
  nodes self = p :: rest → length (k_nid p) = 20%nat →
  (∃ msg,
     (auto_send_find_node self tid target).1 = [SendKrpc msg (k_ip p, k_port p)]
     ∧ find_node_id (SendKrpc msg (k_ip p, k_port p))
       = Some (PBytes (take 10 (k_nid p) ++ drop 10 (nid self))))
  ∧ (∀ rand e, e ∈ join_dht self rand → find_node_id e = Some (PBytes (nid self))).
Proof.
  intros Hn Hlen. split; [|intros rand e; apply join_dht_ids].
  unfold auto_send_find_node. rewrite Hn. simpl.
  apply send_find_node_id. intros Hnil. by rewrite Hnil in Hlen.
Qed.

Lemma find_node_neighbor_id_witness :
  ∃ msg,
    (auto_send_find_node dht1 (B "ab") ih0).1 = [SendKrpc msg ("5.6.7.8"%string, 6881)]
    ∧ find_node_id (SendKrpc msg ("5.6.7.8"%string, 6881))
      = Some (PBytes (replicate 10 Byte.x11 ++ replicate 10 Byte.x22)).
Proof.
  exact (proj1 (find_node_neighbor_id dht1 peer1 [] (B "ab") ih0 eq_refl eq_refl)).
Defined.

(** With [token_length = 2] the id sent to a queued peer shares ten bytes
    with the peer's id, not two. *)
Lemma find_node_id_not_token_length :
  token_length dht1 = 2%nat
  ∧ (find_node_id <$> (auto_send_find_node dht1 (B "ab") ih0).1)
    = [Some (PBytes (replicate 10 Byte.x11 ++ replicate 10 Byte.x22))]
  ∧ replicate 10 Byte.x11 ++ replicate 10 Byte.x22
    ≠ take (token_length dht1) (k_nid peer1) ++ drop (token_length dht1) (nid dht1).
Proof. split; [reflexivity|]. split; [reflexivity|]. by vm_compute. Qed.

Lemma pyval_eqb_int0 v : pyval_eqb v (PInt 0) = true ↔ v = PInt 0.
Proof.
  destruct v; simpl; try (split; [done|congruence]).
  rewrite bool_decide_eq_true. split; congruence.
Qed.

Lemma implied_b_spec args :
  (implied_b args = true ∧ implied args) ∨ (implied_b args = false ∧ ¬ implied args).
Proof.
  unfold implied_b, implied.
  destruct (getitem args "implied_port") as [e|v]; [right; split; [done|]; by intros (? & ? & _)|].
  destruct (pyval_eqb v (PInt 0)) eqn:E; simpl.
  - right. split; [done|]. apply pyval_eqb_int0 in E as ->. by intros (? & [= <-] & ?).
  - left. split; [done|]. exists v. split; [done|]. intros ->. by rewrite (proj2 (pyval_eqb_int0 _)) in E.
Qed.

Lemma on_announce_peer_request_eq self msg args tid ih tok pid a :
  getitem msg "a" = inr args → getitem msg "t" = inr tid →
  getitem args "info_hash" = inr (PBytes ih) →
  getitem args "token" = inr (PBytes tok) →
  getitem args "id" = inr (PBytes pid) →
  on_announce_peer_request self msg a
  = (announce_logs self args ih tok a ++ [SendKrpc (ok_reply self tid pid) a], None).
Proof.
  intros Ha Ht Hih Htok Hid.
  unfold on_announce_peer_request, ok, announce_body, announce_logs.
  rewrite Ha, Ht. cbn [ebind]. rewrite Hih, Htok, Hid.
  cbn [ebind prefix_of get_neighbor_of outcome_of pyval_eqb]. f_equal. f_equal.
  fold (implied_b args).
  case_bool_decide as Heq; cbn [negb]; [|done].
  destruct (implied_b args).
  - cbn [ebind]. case_bool_decide as Hn; [by destruct Hn|reflexivity].
  - destruct (getitem args "port") as [e|[z| | | |]]; cbn [ebind]; try done.
    destruct (_ || _); cbn [ebind]; [done|]. case_bool_decide; reflexivity.
Qed.

(** C2, as the code has it.  For an [announce_peer] query that carries
    [t], and arguments with byte strings [id], [info_hash] and [token]:
    the reply [{t, y: "r", r: {id: neighbor-of(peer.id)}}] is always sent,
    after the calls of [master.log_infohash].  There is no such call when
    the token differs from [info_hash[:token_length]].  When it matches:
    with [implied_port] present and non-zero the one call is for the UDP
    source port; otherwise, with an int [port] in [1..65535], the calls
    are for [(source_ip, port)] and then, if [port] differs from the UDP
    source port, for [(source_ip, source_port)]; and with [port] absent,
    not an int, or outside [1..65535], there is no call at all. *)
Theorem announce_peer_handling (self : DHTProcess) (msg args tid : pyval)
    (ih tok pid : bytes) (a : address) :
  getitem msg "a" = inr args → getitem msg "t" = inr tid →
  getitem args "info_hash" = inr (PBytes ih) →
  getitem args "token" = inr (PBytes tok) →
  getitem args "id" = inr (PBytes pid) →
  ∃ logged,
    on_announce_peer_request self msg a
    = (logged ++ [SendKrpc (ok_reply self tid pid) a], None)
    ∧ (tok ≠ take (token_length self) ih → logged = [])
    ∧ (tok = take (token_length self) ih → implied args →
         logged = [LogInfohash (PBytes ih) (a.1, a.2)])
    ∧ (tok = take (token_length self) ih → ¬ implied args →
         ∀ p, getitem args "port" = inr (PInt p) → 1 ≤ p ≤ 65535 →
           logged = LogInfohash (PBytes ih) (a.1, p)
                    :: (if bool_decide (a.2 ≠ p)
                        then [LogInfohash (PBytes ih) (a.1, a.2)] else []))
    ∧ (tok = take (token_length self) ih → ¬ implied args →
         (∀ p, getitem args "port" = inr (PInt p) → ¬ (1 ≤ p ≤ 65535)) →
         logged = []).
Proof.
  intros Ha Ht Hih Htok Hid.
  exists (announce_logs self args ih tok a).
  split; [by apply on_announce_peer_request_eq|].
  unfold announce_logs.
  destruct (implied_b_spec args) as [[Hb Hi]|[Hb Hi]]; rewrite Hb.
  - case_bool_decide as Heq; repeat split; try done; intros; by subst.
  - case_bool_decide as Heq; repeat split; try done; try (intros; by subst).
    + intros _ _ p Hp Hr. rewrite Hp.
      by rewrite (proj2 (orb_false_iff _ _)) by (split; [apply Z.ltb_ge|apply Z.ltb_ge]; lia).
    + intros _ _ Hp. destruct (getitem args "port") as [e|[z| | | |]]; try done.
      destruct (_ || _) eqn:E; [done|]. apply orb_false_iff in E as [?%Z.ltb_ge ?%Z.ltb_ge].
      destruct (Hp z eq_refl). lia.
Qed.

Lemma announce_peer_handling_witness :
  on_announce_peer_request dht1 (announce1 6881) src1
  = ([ LogInfohash (PBytes ih0) ("1.2.3.4"%string, 6881);
       LogInfohash (PBytes ih0) ("1.2.3.4"%string, 55555);
       SendKrpc (ok_reply dht1 (PBytes (B "aa")) peer_id1) src1 ], None).
Proof.
  destruct (announce_peer_handling dht1 (announce1 6881) (dict_of (announce_args1 6881))
              (PBytes (B "aa")) ih0 (take 2 ih0) peer_id1 src1
              eq_refl eq_refl eq_refl eq_refl eq_refl)
    as (logged & Heq & _ & _ & Hport & _).
  rewrite Heq. rewrite (Hport eq_refl) with (p := 6881).
  - reflexivity.
  - intros (v & Hv & _). discriminate Hv.
  - reflexivity.
  - lia.
Defined.

(** An announce with a matching token, no [implied_port] and [port = 0],
    from UDP port 55555: the announced port differs from the source port,
    and [log_infohash] is not called at all; only the reply is sent. *)
Lemma announce_port_zero_not_logged :
  getitem (dict_of (announce_args1 0)) "token"
  = inr (PBytes (take (token_length dht1) ih0))
  ∧ getitem (dict_of (announce_args1 0)) "implied_port" = inl KeyError
  ∧ getitem (dict_of (announce_args1 0)) "port" = inr (PInt 0)
  ∧ 0 ≠ src1.2
  ∧ on_announce_peer_request dht1 (announce1 0) src1
    = ([SendKrpc (ok_reply dht1 (PBytes (B "aa")) peer_id1) src1], None).
Proof. repeat split; try reflexivity. done. Qed.

(** ** The two reputation stores *)

Lemma random_sample_elem {A} (pool : list A) n draw r x :
  random_sample pool n draw = Some r → x ∈ r → x ∈ pool.
Proof.
  unfold random_sample. destruct (n <? 0); [done|]. intros [= <-].
  rewrite list_elem_of_omap. intros (i & _ & Hi). by eapply list_elem_of_lookup_2.
Qed.

Lemma omap_length_le {A C} (f : A → option C) (l : list A) :
  (length (omap f l) ≤ length l)%nat.
Proof.
  induction l as [|x l IH]; [done|]. csimpl. destruct (f x); simpl; lia.
Qed.

Lemma random_sample_length {A} (pool : list A) n draw r :
  random_sample pool n draw = Some r → length draw = Z.to_nat n →
  0 ≤ n ∧ Z.of_nat (length r) ≤ n.
Proof.
  unfold random_sample. destruct (n <? 0) eqn:E; [done|]. intros [= <-] Hd.
  apply Z.ltb_ge in E. split; [done|].
  pose proof (omap_length_le (λ i, pool !! i) draw) as Hl. lia.
Qed.

(** The DHT bootstrap store: what [sample_previous(k)] returns is drawn
    from the [max(4k, k)] most recent entries, and is at most [k] long. *)
Lemma sample_previous_among_top k draw s r :
  0 ≤ k →
  DHTBootstrapStore.sample_previous k draw s = Some r →
  length draw = Z.to_nat (Z.min k (Z.of_nat (length (top_pool k s)))) →
  (∀ x, x ∈ r → x ∈ top_pool k s) ∧ Z.of_nat (length r) ≤ k.
Proof.
  intros Hk. unfold DHTBootstrapStore.sample_previous. fold (top_pool k s).
  destruct (DHTBootstrapStore._peers s) as [|p ps] eqn:Ep.
  { intros [= <-] _. split; [by intros x ?%elem_of_nil|simpl; lia]. }
  destruct (_ <? _) eqn:E.
  - intros Hr Hd. split; [intros x; by eapply random_sample_elem|].
    apply random_sample_length in Hr as [_ Hr]; [lia|done].
  - intros [= <-] _. apply Z.ltb_ge in E. split; [done|]. lia.
Qed.

(** The metadata peer store: what [sample(k)] returns is drawn from the
    whole store, and is at most [k] long. *)
Lemma sample_at_most_k k draw s r :
  0 ≤ k →
  master.MetadataPeerStore.sample k draw s = Some r →
  length draw
  = Z.to_nat (Z.min k (Z.of_nat (length (master.MetadataPeerStore._peers s)))) →
  (∀ x, x ∈ r →
     x ∈ map (λ p : string * Z * Q, (p.1.1, p.1.2)) (master.MetadataPeerStore._peers s))
  ∧ Z.of_nat (length r) ≤ k.
Proof.
  intros Hk. unfold master.MetadataPeerStore.sample.
  destruct (master.MetadataPeerStore._peers s) as [|p ps] eqn:Ep.
  { intros [= <-] _. split; [by intros x ?%elem_of_nil|simpl; lia]. }
  remember (p :: ps) as l eqn:El. clear El.
  destruct (_ <? _) eqn:E.
  - destruct (random_sample _ _ _) as [picks|] eqn:Hr; [|done].
    intros [= <-] Hd. split.
    + intros x. rewrite !map_fmap, !list_elem_of_fmap.
      intros (y & -> & Hy). exists y. split; [done|]. by eapply random_sample_elem.
    + apply random_sample_length in Hr as [_ Hr]; [|done].
      rewrite length_map. lia.
  - intros [= <-] _. apply Z.ltb_ge in E. split; [done|].
    rewrite length_map. lia.
Qed.

(** C8 at the metadata peer store.  With five stored peers and [k = 1],
    a draw of position 4 is a draw [random.sample] can make, [sample(1)]
    then returns the least recent peer, and that peer is not among the
    [max(4k, k) = 4] most recent entries. *)
Theorem metadata_sample_outside_top :
  valid_draw 5 1 [4%nat]
  ∧ master.MetadataPeerStore.sample 1 [4%nat] mstore5 = Some [("10.0.0.5"%string, 6881)]
  ∧ ("10.0.0.5"%string, 6881)
    ∉ map (λ p : string * Z * Q, (p.1.1, p.1.2))
        (take (Z.to_nat (Z.max (4 * 1) 1))
           (master.sort_desc snd (master.MetadataPeerStore._peers mstore5))).
Proof.
  split; [|split].
  - split; [done|]. split; [apply NoDup_singleton|]. repeat constructor.
  - reflexivity.
  - assert (map (λ p : string * Z * Q, (p.1.1, p.1.2))
              (take (Z.to_nat (Z.max (4 * 1) 1))
                 (master.sort_desc snd (master.MetadataPeerStore._peers mstore5)))
            = [ ("10.0.0.1"%string, 6881); ("10.0.0.2"%string, 6881);
                ("10.0.0.3"%string, 6881); ("10.0.0.4"%string, 6881) ]) as ->
      by reflexivity.
    intros Hin.
    repeat (apply elem_of_cons in Hin as [Hin|Hin]; [discriminate Hin|]).
    by apply elem_of_nil in Hin.
Qed.
End dht_thm.

(** ** Hexadecimal text determines the bytes *)

Lemma unhex_pair_upper_hex c :
  unhex_pair (upper_ascii (hex_digit (Byte.to_N c / 16)))
    (upper_ascii (hex_digit (Byte.to_N c mod 16))) = c.
Proof. destruct c; reflexivity. Qed.

Lemma unhex_upper_hex b : unhex (list_ascii_of_string (upper (hex b))) = b.
Proof.
  unfold upper, hex. rewrite !list_ascii_of_string_of_list_ascii.
  induction b as [|c b IH]; [done|]. simpl.
  by rewrite unhex_pair_upper_hex, IH.
Qed.

(** The comparison of the two uppercase hex texts is the comparison of
    the bytes. *)
Lemma upper_hex_inj a b : upper (hex a) = upper (hex b) ↔ a = b.
Proof.
  split; [|by intros ->]. intros Heq.
  by rewrite <-(unhex_upper_hex a), <-(unhex_upper_hex b), Heq.
Qed.

(** ** bt_metadata.py: what a fetch stores *)

Section fetch.
Import bt_metadata.
Context {W : Type} `{!Env W} `{!Lib}.

Abbreviation any := (λ _, True).
Abbreviation safe φ m := (bt_metadata.safe (W:=W) φ m).

Lemma safe_ret {A} (φ : A → Prop) a : φ a → safe φ (ret a).
Proof. intros Ha s r s' [= <- <-]. split; [done|]. by intros ? [= <-]. Qed.

Lemma safe_raise {A} (φ : A → Prop) e : safe φ (raise e).
Proof. intros s r s' [= <- <-]. by split. Qed.

Lemma safe_out_of_fuel {A} (φ : A → Prop) : safe φ out_of_fuel.
Proof. intros s r s' [= <- <-]. by split. Qed.

Lemma safe_bind {A C} (ψ : A → Prop) (φ : C → Prop) (m : M A) (f : A → M C) :
  safe ψ m → (∀ a, ψ a → safe φ (f a)) → safe φ (bind m f).
Proof.
  intros Hm Hf s r s'. unfold bind.
  destruct (m s) as [[a|e|] s1] eqn:Em; destruct (Hm _ _ _ Em) as [Hs Ha].
  - intros Ef. destruct (Hf a (Ha a eq_refl) _ _ _ Ef) as [Hs' Hr].
    split; [congruence|done].
  - intros [= <- <-]. by split.
  - intros [= <- <-]. by split.
Qed.

Lemma safe_weaken {A} (ψ φ : A → Prop) (m : M A) :
  safe ψ m → (∀ a, ψ a → φ a) → safe φ m.
Proof.
  intros Hm Himp s r s' E. destruct (Hm _ _ _ E) as [Hs Ha].
  split; [done|]. intros a ->. by apply Himp, Ha.
Qed.

Lemma storage_calls_app tr tr' :
  storage_calls (tr ++ tr') = storage_calls tr ++ storage_calls tr'.
Proof. apply omap_app. Qed.

Lemma safe_emit ev :
  (∀ i tb a, ev ≠ EvStorage i tb a) → safe any (emit ev).
Proof.
  intros Hev s r s' [= <- <-]. split; [|done]. simpl.
  rewrite storage_calls_app. destruct ev; simpl; rewrite ?app_nil_r; try done.
  by destruct (Hev i torrent_bytes a).
Qed.

Lemma safe_meta what : safe any (meta what).
Proof. by apply safe_emit. Qed.

Lemma safe_call f : safe any (call f).
Proof.
  intros s r s'. unfold call. destruct (f s.1) as [[e|] w]; intros [= <- <-]; by split.
Qed.

Lemma safe_call_val {A} (f : W → (exn + A) * W) : safe any (call_val f).
Proof.
  intros s r s'. unfold call_val. destruct (f s.1) as [[e|a] w]; intros [= <- <-]; by split.
Qed.

Lemma safe_read {A} (f : W → A * W) : safe any (read f).
Proof.
  intros s r s'. unfold read. destruct (f s.1) as [a w]. intros [= <- <-]. by split.
Qed.

Lemma safe_effect f : safe any (effect f).
Proof. intros s r s' [= <- <-]. by split. Qed.

Lemma safe_catch {A} (m : M A) : safe any m → safe any (catch m).
Proof.
  intros Hm s r s'. unfold catch.
  destruct (m s) as [[a|e|] s1] eqn:Em; destruct (Hm _ _ _ Em) as [Hs _];
    intros [= <- <-]; by split.
Qed.

Lemma safe_send data : safe any (send data).
Proof.
  unfold send. apply (safe_bind any); [by apply safe_emit|intros; apply safe_call].
Qed.

Create HintDb safe.
#[local] Hint Resolve safe_meta safe_call safe_call_val safe_read safe_effect
  safe_send safe_raise safe_out_of_fuel : safe.

(** One step of a sequence: the first action by a lemma of the database. *)
Ltac safe_seq := eapply safe_bind; [solve [eauto with safe]|].

Lemma safe_recv_exact_loop fuel n timeout start buf :
  safe any (recv_exact_loop fuel n timeout start buf).
Proof.
  revert buf. induction fuel as [|fuel IH]; intros buf; simpl;
    (destruct (_ <? _)%nat; [|by apply safe_ret]); [apply safe_out_of_fuel|].
  safe_seq. intros now _.
  destruct (Qle_bool _ _); [|by apply safe_ret].
  safe_seq. intros [|c r] _; [by apply safe_ret|apply IH].
Qed.

Lemma safe_recv_exact n timeout : safe any (recv_exact n timeout).
Proof.
  unfold recv_exact. safe_seq. intros _ _.
  safe_seq.
  intros; apply safe_recv_exact_loop.
Qed.

#[local] Hint Resolve safe_recv_exact : safe.

Lemma safe_recvall_loop fuel timeout begin total :
  safe any (recvall_loop fuel timeout begin total).
Proof.
  revert begin total. induction fuel as [|fuel IH]; intros begin total; simpl;
    [apply safe_out_of_fuel|].
  safe_seq. intros _ _.
  safe_seq. intros now _.
  destruct (_ && _); [by apply safe_ret|].
  destruct (negb _); [by apply safe_ret|].
  eapply safe_bind; [apply safe_catch, safe_call_val|].
  intros [[|c r]|] _; apply IH.
Qed.

Lemma safe_recvall fuel timeout : safe any (recvall fuel timeout).
Proof.
  unfold recvall. safe_seq. intros _ _.
  safe_seq.
  intros; apply safe_recvall_loop.
Qed.

Lemma safe_request_metadata ut piece : safe any (request_metadata ut piece).
Proof.
  unfold request_metadata, send_message_lenpref.
  destruct (byte_of_Z ut); [apply safe_send|apply safe_raise].
Qed.

#[local] Hint Resolve safe_recvall safe_request_metadata : safe.

Lemma safe_piece_loop fuel timeout ut count piece parts :
  safe any (piece_loop fuel timeout ut count piece parts).
Proof.
  revert piece parts. induction count as [|count IH]; intros piece parts; simpl;
    [by apply safe_ret|].
  safe_seq. intros _ _.
  safe_seq. intros [|c blob] _; [apply IH|].
  destruct (bytes_find _ _ _); [apply IH|].
  destruct (split_ut_metadata_message _) as [[[header payload]|]|];
    [|apply IH|apply safe_out_of_fuel].
  destruct (differs_from_int _ _); [apply IH|].
  destruct (differs_from_int _ _); apply IH.
Qed.

Lemma safe_open_and_handshake a infohash timeout :
  safe handshake_stop (open_and_handshake a infohash timeout).
Proof.
  unfold open_and_handshake, send_handshake, send_ext_handshake, send_message_lenpref.
  safe_seq. intros _ _.
  safe_seq. intros _ _.
  safe_seq. intros _ _.
  eapply safe_bind.
  { safe_seq. intros; apply safe_send. }
  intros _ _.
  safe_seq. intros packet _.
  destruct (negb _).
  { safe_seq. intros _ _. apply safe_ret.
    intros st [= <-]. by left. }
  safe_seq. intros _ _.
  safe_seq. intros lp _.
  destruct (bool_decide _).
  { safe_seq. intros _ _. apply safe_ret.
    intros st [= <-]. by right. }
  destruct (_ || _).
  { safe_seq. intros _ _. apply safe_ret.
    intros st [= <-]. by right. }
  safe_seq. intros body _.
  destruct (bool_decide _).
  { safe_seq. intros _ _. apply safe_ret.
    intros st [= <-]. by right. }
  apply safe_ret. by intros st.
Qed.

Lemma safe_negotiate packet : safe negotiate_stop (negotiate packet).
Proof.
  unfold negotiate. destruct (parse_ext_handshake packet) as [[ut size]|].
  - destruct (piece_count size) as [pieces|]; [|apply safe_raise].
    destruct (_ || _); [|apply safe_ret; by intros st].
    safe_seq. intros _ _. apply safe_ret.
    intros st [= <-]. by right.
  - safe_seq. intros _ _. apply safe_ret.
    intros st [= <-]. by left.
Qed.

Lemma safe_handle e : safe handled_status (handle e).
Proof.
  destruct e; simpl; safe_seq; intros _ _;
    apply safe_ret; unfold handled_status; auto.
Qed.

(** [recv_exact] returns or raises: its loop never uses up its fuel. *)
Lemma recv_exact_loop_returns fuel n timeout start buf (s : state (W:=W)) :
  (n - length buf ≤ fuel)%nat →
  (recv_exact_loop fuel n timeout start buf s).1 ≠ NoFuel.
Proof.
  revert buf s. induction fuel as [|fuel IH]; intros buf s Hf; simpl.
  - destruct (length buf <? n)%nat eqn:E; [|done].
    apply Nat.ltb_lt in E. lia.
  - destruct (length buf <? n)%nat eqn:E; [|done]. apply Nat.ltb_lt in E.
    unfold bind at 1, read. destruct (time_now s.1) as [now w].
    destruct (Qle_bool _ _); [|done].
    unfold bind, call_val. cbn [fst snd].
    destruct (sock_recv _ w) as [[e|[|c r]] w']; [done..|].
    apply IH. rewrite length_app. simpl. lia.
Qed.

Lemma recv_exact_returns n timeout (s : state (W:=W)) :
  (recv_exact n timeout s).1 ≠ NoFuel.
Proof.
  unfold recv_exact, bind at 1, call.
  destruct (sock_settimeout timeout s.1) as [[e|] w]; [done|].
  unfold bind, read. cbn [fst snd]. destruct (time_now w) as [now w'].
  apply recv_exact_loop_returns. simpl. lia.
Qed.

(** ** bt_metadata.py: the extension handshake *)

Lemma parse_ext_handshake_Some packet ut size :
  parse_ext_handshake packet = Some (ut, size) →
  ∃ d m, bdecode (ext_payload packet) = Some (BDict d)
    ∧ d !! B "m" = Some (BDict m)
    ∧ m !! B "ut_metadata" = Some (BInt ut)
    ∧ d !! B "metadata_size" = Some (BInt size)
    ∧ 0 < size.
Proof.
  unfold parse_ext_handshake, ext_payload.
  destruct (length packet <? 6)%nat; [done|].
  destruct (of_be (take 4 packet) <=? 2); [done|].
  destruct (Z.of_nat (length packet) <? 4 + of_be (take 4 packet)); [done|].
  destruct (bool_decide (at1 packet 4 ≠ [BT_MSG_ID])); [done|].
  destruct (bool_decide (at1 packet 5 ≠ [EXT_HANDSHAKE_ID])); [done|].
  destruct (bdecode _) as [[| | |d]|]; try done.
  destruct (d !! B "m") as [[| | |m]|] eqn:Em; try done.
  destruct (m !! B "ut_metadata") as [[ut'| | |]|] eqn:Eu; try done.
  destruct (d !! B "metadata_size") as [[size'| | |]|] eqn:Es; try done.
  destruct (0 <? size') eqn:Ep; [|done]. intros [= <- <-].
  exists d, m. repeat split; try done. by apply Z.ltb_lt.
Qed.

Lemma parse_ext_handshake_None packet :
  ¬ good_fields packet → parse_ext_handshake packet = None.
Proof.
  intros Hn. destruct (parse_ext_handshake packet) as [[ut size]|] eqn:E; [|done].
  destruct Hn. apply parse_ext_handshake_Some in E as (d & m & E).
  by exists d, m, ut, size.
Qed.

Lemma download_ext_fail fuel a infohash timeout (s s0 s1 : state (W:=W)) packet :
  call sock_create s = (Done tt, s0) →
  open_and_handshake a infohash timeout s0 = (Done (inr packet), s1) →
  parse_ext_handshake packet = None →
  download_metadata fuel a infohash timeout s
  = (Ret st_ext_fail, (sock_close s1.1, s1.2 ++ [EvMeta "ext_fail"; EvClose])).
Proof.
  intros E0 E1 Ep. unfold download_metadata. rewrite E0.
  unfold download_body, bind at 1. rewrite E1.
  unfold negotiate. rewrite Ep. unfold bind, meta, emit, ret. cbn [fst snd].
  by rewrite <-app_assoc.
Qed.

(** C7, as the code has it.  [parse_ext_handshake] accepts a handshake
    only when its payload decodes to a dict [d] in which [d[b"m"]] is a
    dict holding an int under [b"ut_metadata"] and [d[b"metadata_size"]]
    is a positive int.  For every received handshake where that fails -- a
    field absent or of another type, or [metadata_size] not positive --
    [download_metadata] logs and returns ["ext_fail"] and closes the
    socket.  The sign of [ut_metadata] is not looked at. *)
Theorem ext_handshake_fields_required (fuel : nat) (a : address) (infohash : bytes)
    (timeout : Q) (s s0 s1 : state (W:=W)) (packet : bytes) :
  call sock_create s = (Done tt, s0) →
  open_and_handshake a infohash timeout s0 = (Done (inr packet), s1) →
  ¬ good_fields packet →
  parse_ext_handshake packet = None
  ∧ download_metadata fuel a infohash timeout s
    = (Ret st_ext_fail, (sock_close s1.1, s1.2 ++ [EvMeta "ext_fail"; EvClose])).
Proof.
  intros E0 E1 Hn. apply parse_ext_handshake_None in Hn.
  split; [done|]. by eapply download_ext_fail.
Qed.

(** C6, as the code has it.  A handshake advertising [metadata_size = 0]
    is turned down by [parse_ext_handshake], so [download_metadata]
    returns ["ext_fail"]; and whatever size the parse accepts gives a
    positive piece count, so the [pieces <= 0] half of the piece-count
    check is never what rejects it. *)
Theorem metadata_size_zero_ext_fail (fuel : nat) (a : address) (infohash : bytes)
    (timeout : Q) (s s0 s1 : state (W:=W)) (packet : bytes) (d : gmap bytes bvalue) :
  call sock_create s = (Done tt, s0) →
  open_and_handshake a infohash timeout s0 = (Done (inr packet), s1) →
  bdecode (ext_payload packet) = Some (BDict d) →
  d !! B "metadata_size" = Some (BInt 0) →
  download_metadata fuel a infohash timeout s
  = (Ret st_ext_fail, (sock_close s1.1, s1.2 ++ [EvMeta "ext_fail"; EvClose]))
  ∧ ∀ packet' ut size pieces,
      parse_ext_handshake packet' = Some (ut, size) →
      piece_count size = Some pieces → 0 < pieces.
Proof.
  intros E0 E1 Ed Hz. split.
  - apply (download_ext_fail _ _ _ _ _ _ _ _ E0 E1).
    apply parse_ext_handshake_None.
    intros (d' & m & ut & size & Ed' & _ & _ & Hs & Hpos).
    rewrite Ed in Ed'. injection Ed' as <-. rewrite Hz in Hs.
    injection Hs as <-. lia.
  - intros packet' ut size pieces (d' & m & _ & _ & _ & _ & Hpos)%parse_ext_handshake_Some.
    unfold piece_count. destruct (_ <=? size); [done|]. intros [= <-].
    apply Z.div_str_pos. lia.
Qed.

End fetch.

(** ** bt_metadata.py: the calls a fetch makes *)

Section fetch_log.
Import bt_metadata recorded.
Context {W : Type} (E0 : Env W) `{!Lib}.
Context (Q : env_call → Prop).

Abbreviation logs_ m := (logs (W:=W) Q m).

Lemma logs_ret {A} (a : A) : logs_ (ret a).
Proof. intros s r s' [= <- <-]. exists []. by rewrite app_nil_r. Qed.

Lemma logs_raise {A} e : logs_ (raise (A:=A) e).
Proof. intros s r s' [= <- <-]. exists []. by rewrite app_nil_r. Qed.

Lemma logs_out_of_fuel {A} : logs_ (out_of_fuel (A:=A)).
Proof. intros s r s' [= <- <-]. exists []. by rewrite app_nil_r. Qed.

Lemma logs_bind {A C} (m : M A) (f : A → M C) :
  logs_ m → (∀ a, logs_ (f a)) → logs_ (bind m f).
Proof.
  intros Hm Hf s r s'. unfold bind.
  destruct (m s) as [[a|e|] s1] eqn:Em; destruct (Hm _ _ _ Em) as (n1 & Hn1 & HQ1).
  - intros Ef. destruct (Hf a _ _ _ Ef) as (n2 & Hn2 & HQ2).
    exists (n1 ++ n2). split; [by rewrite Hn2, Hn1, app_assoc|by apply Forall_app].
  - intros [= <- <-]. by exists n1.
  - intros [= <- <-]. by exists n1.
Qed.

Lemma logs_emit ev : logs_ (emit ev).
Proof. intros s r s' [= <- <-]. exists []. by rewrite app_nil_r. Qed.

Lemma logs_call c (f : W → option exn * W) : Q c → logs_ (call (noting c f)).
Proof.
  intros Hc s r s'. unfold call, noting. cbn [fst snd].
  destruct (f s.1.1) as [[e|] w]; intros [= <- <-]; exists [c]; by split; [|constructor].
Qed.

Lemma logs_call_val {A} c (f : W → (exn + A) * W) : Q c → logs_ (call_val (noting c f)).
Proof.
  intros Hc s r s'. unfold call_val, noting. cbn [fst snd].
  destruct (f s.1.1) as [[e|a] w]; intros [= <- <-]; exists [c]; by split; [|constructor].
Qed.

Lemma logs_read {A} c (f : W → A * W) : Q c → logs_ (read (noting c f)).
Proof.
  intros Hc s r s'. unfold read, noting. cbn [fst snd].
  intros [= <- <-]. exists [c]. by split; [|constructor].
Qed.

Lemma logs_catch {A} (m : M A) : logs_ m → logs_ (catch m).
Proof.
  intros Hm s r s'. unfold catch.
  destruct (m s) as [[a|e|] s1] eqn:Em; destruct (Hm _ _ _ Em) as (n1 & Hn1 & HQ1);
    intros [= <- <-]; by exists n1.
Qed.

Hypothesis HQ : ∀ c, plain_call c → Q c.
#[local] Set Default Proof Using "All".

Lemma logs_meta what : logs_ (meta what).
Proof. apply logs_emit. Qed.

Lemma logs_send data : logs_ (send data).
Proof.
  unfold send. apply logs_bind; [apply logs_emit|]. intros _.
  apply (logs_call (CallSend data)). by apply HQ.
Qed.

Lemma logs_settimeout t : logs_ (call (sock_settimeout t)).
Proof. apply (logs_call (CallSettimeout t)). by apply HQ. Qed.

Lemma logs_time : logs_ (read time_now).
Proof. apply (logs_read CallTime). by apply HQ. Qed.

Lemma logs_recv n : logs_ (call_val (sock_recv n)).
Proof. apply (logs_call_val (CallRecv n)). by apply HQ. Qed.

Lemma logs_sleep t : logs_ (effect (sleep t)).
Proof.
  intros s r s' [= <- <-]. exists [CallSleep t]. split; [done|].
  constructor; [by apply HQ|constructor].
Qed.

Create HintDb logs.
#[local] Hint Resolve logs_meta logs_send logs_settimeout logs_time logs_recv logs_sleep
  logs_ret logs_raise logs_out_of_fuel : logs.

#[local] Hint Extern 1 (logs _ (call (noting _ _))) =>
  apply logs_call, HQ; exact I : logs.
#[local] Hint Extern 1 (logs _ (call_val (noting _ _))) =>
  apply logs_call_val, HQ; exact I : logs.
#[local] Hint Extern 1 (logs _ (read (noting _ _))) =>
  apply logs_read, HQ; exact I : logs.

Ltac logs_seq := apply logs_bind; [solve [eauto with logs]|].

Lemma logs_recv_exact_loop fuel n timeout start buf :
  logs_ (recv_exact_loop fuel n timeout start buf).
Proof.
  revert buf. induction fuel as [|fuel IH]; intros buf; cbn [recv_exact_loop];
    (destruct (_ <? _)%nat; [|by apply logs_ret]); [apply logs_out_of_fuel|].
  logs_seq. intros now.
  destruct (Qle_bool _ _); [|by apply logs_ret].
  logs_seq. intros [|c r]; [by apply logs_ret|apply IH].
Qed.

Lemma logs_recv_exact n timeout : logs_ (recv_exact n timeout).
Proof.
  unfold recv_exact. logs_seq. intros _. logs_seq.
  intros; apply logs_recv_exact_loop.
Qed.

Lemma logs_recvall_loop fuel timeout begin total :
  logs_ (recvall_loop fuel timeout begin total).
Proof.
  revert begin total. induction fuel as [|fuel IH]; intros begin total; cbn [recvall_loop];
    [apply logs_out_of_fuel|].
  logs_seq. intros _. logs_seq. intros now.
  destruct (_ && _); [by apply logs_ret|].
  destruct (negb _); [by apply logs_ret|].
  apply logs_bind; [apply logs_catch, logs_recv|].
  intros [[|c r]|]; apply IH.
Qed.

Lemma logs_recvall fuel timeout : logs_ (recvall fuel timeout).
Proof.
  unfold recvall. apply logs_bind.
  { apply (logs_call (CallSetblocking false)). by apply HQ. }
  intros _. logs_seq. intros; apply logs_recvall_loop.
Qed.

Lemma logs_request_metadata ut piece : logs_ (request_metadata ut piece).
Proof.
  unfold request_metadata, send_message_lenpref.
  destruct (byte_of_Z ut); [apply logs_send|apply logs_raise].
Qed.

#[local] Hint Resolve logs_recv_exact logs_recvall logs_request_metadata : logs.

Lemma logs_piece_loop fuel timeout ut count piece parts :
  logs_ (piece_loop fuel timeout ut count piece parts).
Proof.
  revert piece parts. induction count as [|count IH]; intros piece parts; cbn [piece_loop];
    [by apply logs_ret|].
  logs_seq. intros _. logs_seq. intros [|c blob]; [apply IH|].
  destruct (bytes_find _ _ _); [apply IH|].
  destruct (split_ut_metadata_message _) as [[[header payload]|]|];
    [|apply IH|apply logs_out_of_fuel].
  destruct (differs_from_int _ _); [apply IH|].
  destruct (differs_from_int _ _); apply IH.
Qed.

Lemma logs_open_and_handshake a infohash timeout :
  logs_ (open_and_handshake a infohash timeout).
Proof.
  unfold open_and_handshake, send_handshake, send_ext_handshake, send_message_lenpref.
  logs_seq. intros _. logs_seq. intros _.
  apply logs_bind; [apply (logs_call (CallConnect a)); by apply HQ|]. intros _.
  apply logs_bind.
  { apply logs_bind; [apply (logs_read CallRandomId); by apply HQ|].
    intros; apply logs_send. }
  intros _. logs_seq. intros packet.
  destruct (negb _); [logs_seq; intros _; apply logs_ret|].
  logs_seq. intros _. logs_seq. intros lp.
  destruct (bool_decide _); [logs_seq; intros _; apply logs_ret|].
  destruct (_ || _); [logs_seq; intros _; apply logs_ret|].
  logs_seq. intros body.
  destruct (bool_decide _); [logs_seq; intros _; apply logs_ret|].
  apply logs_ret.
Qed.

Lemma logs_negotiate packet : logs_ (negotiate packet).
Proof.
  unfold negotiate. destruct (parse_ext_handshake packet) as [[ut size]|].
  - destruct (piece_count size) as [pieces|]; [|by apply logs_raise].
    destruct (_ || _); [|apply logs_ret]. logs_seq. intros _. apply logs_ret.
  - logs_seq. intros _. apply logs_ret.
Qed.

Lemma logs_handle e : logs_ (handle e).
Proof. destruct e; unfold handle; logs_seq; intros _; by apply logs_ret. Qed.

End fetch_log.

(** ** The record changes nothing *)

Section fetch_erases.
Import bt_metadata recorded.
Context {W : Type} (E0 : Env W) `{!Lib}.

Lemma erases_ret {A} (a : A) : erases (W:=W) (ret a) (ret a).
Proof. by intros s. Qed.

Lemma erases_raise {A} e : erases (W:=W) (raise (A:=A) e) (raise e).
Proof. by intros s. Qed.

Lemma erases_out_of_fuel {A} : erases (W:=W) (out_of_fuel (A:=A)) out_of_fuel.
Proof. by intros s. Qed.

Lemma erases_emit ev : erases (W:=W) (emit ev) (emit ev).
Proof. by intros s. Qed.

Lemma erases_bind {A C} (m' : M A) (m : M A) (f' : A → M C) (f : A → M C) :
  erases (W:=W) m' m → (∀ a, erases (f' a) (f a)) → erases (bind m' f') (bind m f).
Proof.
  intros Hm Hf s. unfold bind. rewrite (Hm s).
  destruct (m' s) as [[a|e|] s1]; cbn [fst snd]; [apply Hf|done..].
Qed.

Lemma erases_call c (f : W → option exn * W) : erases (call (noting c f)) (call f).
Proof.
  intros s. unfold call, noting, erase. cbn [fst snd].
  by destruct (f s.1.1) as [[e|] w].
Qed.

Lemma erases_call_val {A} c (f : W → (exn + A) * W) :
  erases (call_val (noting c f)) (call_val f).
Proof.
  intros s. unfold call_val, noting, erase. cbn [fst snd].
  by destruct (f s.1.1) as [[e|a] w].
Qed.

Lemma erases_read {A} c (f : W → A * W) : erases (read (noting c f)) (read f).
Proof.
  intros s. unfold read, noting, erase. cbn [fst snd]. by destruct (f s.1.1).
Qed.

Lemma erases_sleep t :
  erases (effect (sleep (Env:=recording E0) t)) (effect (sleep (Env:=E0) t)).
Proof. by intros s. Qed.

Lemma erases_catch {A} (m' : M A) (m : M A) :
  erases (W:=W) m' m → erases (catch m') (catch m).
Proof.
  intros Hm s. unfold catch. rewrite (Hm s).
  by destruct (m' s) as [[a|e|] s1].
Qed.

Ltac erases_step :=
  first
    [ apply erases_ret | apply erases_raise | apply erases_out_of_fuel
    | apply erases_emit | apply erases_sleep
    | apply erases_call | apply erases_call_val | apply erases_read
    | apply erases_catch
    | apply erases_bind; [|intros ?]
    | match goal with
      | |- erases (if ?b then _ else _) _ => destruct b
      | |- erases (match ?x with _ => _ end) _ => destruct x
      end ].

Lemma erases_recv_exact_loop fuel n timeout start buf :
  erases (recv_exact_loop (Env0:=recording E0) fuel n timeout start buf)
    (recv_exact_loop (Env0:=E0) fuel n timeout start buf).
Proof.
  revert buf. induction fuel as [|fuel IH]; intros buf; cbn [recv_exact_loop];
    repeat erases_step; apply IH.
Qed.

Lemma erases_recv_exact n timeout :
  erases (recv_exact (Env0:=recording E0) n timeout) (recv_exact (Env0:=E0) n timeout).
Proof. unfold recv_exact. repeat erases_step. apply erases_recv_exact_loop. Qed.

Lemma erases_recvall_loop fuel timeout begin total :
  erases (recvall_loop (Env0:=recording E0) fuel timeout begin total)
    (recvall_loop (Env0:=E0) fuel timeout begin total).
Proof.
  revert begin total. induction fuel as [|fuel IH]; intros begin total;
    cbn [recvall_loop]; repeat erases_step; apply IH.
Qed.

Lemma erases_recvall fuel timeout :
  erases (recvall (Env0:=recording E0) fuel timeout) (recvall (Env0:=E0) fuel timeout).
Proof. unfold recvall. repeat erases_step. apply erases_recvall_loop. Qed.

Lemma erases_request_metadata ut piece :
  erases (request_metadata (Env0:=recording E0) ut piece)
    (request_metadata (Env0:=E0) ut piece).
Proof. unfold request_metadata, send_message_lenpref, send. repeat erases_step. Qed.

Lemma erases_piece_loop fuel timeout ut count piece parts :
  erases (piece_loop (Env0:=recording E0) fuel timeout ut count piece parts)
    (piece_loop (Env0:=E0) fuel timeout ut count piece parts).
Proof.
  revert piece parts. induction count as [|count IH]; intros piece parts;
    cbn [piece_loop]; [apply erases_ret|].
  apply erases_bind; [apply erases_request_metadata|]. intros _.
  apply erases_bind; [apply erases_recvall|]. intros blob.
  repeat first [apply IH | erases_step].
Qed.

Lemma erases_download_body fuel a infohash timeout :
  erases (download_body (Env0:=recording E0) fuel a infohash timeout)
    (download_body (Env0:=E0) fuel a infohash timeout).
Proof.
  unfold download_body.
  apply erases_bind.
  { unfold open_and_handshake, send_handshake, send_ext_handshake, send_message_lenpref,
      send, meta.
    repeat first [apply erases_recv_exact | erases_step]. }
  intros [st|packet]; [apply erases_ret|].
  apply erases_bind.
  { unfold negotiate, meta. repeat erases_step. }
  intros [st|[ut pieces]]; [apply erases_ret|].
  apply erases_bind; [apply erases_piece_loop|]. intros parts.
  unfold verify_and_store, meta. repeat erases_step.
Qed.

Lemma erases_handle e : erases (W:=W) (handle e) (handle e).
Proof. destruct e; unfold handle, meta; repeat erases_step. Qed.

(** Without the record, a fetch in [recording E0] is the fetch in [E0]:
    the same status, the same trace, the same world. *)
Lemma recording_erases fuel a infohash timeout (s : state (W:=W * list env_call)) :
  download_metadata (Env0:=E0) fuel a infohash timeout (erase s)
  = ((download_metadata (Env0:=recording E0) fuel a infohash timeout s).1,
     erase (download_metadata (Env0:=recording E0) fuel a infohash timeout s).2).
Proof.
  unfold download_metadata.
  rewrite (erases_call CallCreate (sock_create (Env:=E0)) s).
  change (call (noting CallCreate sock_create) s)
    with (call (sock_create (Env:=recording E0)) s).
  destruct (call (sock_create (Env:=recording E0)) s) as [[[]|e|] s0]; cbn [fst snd].
  - rewrite (erases_download_body fuel a infohash timeout s0).
    destruct (download_body (Env0:=recording E0) fuel a infohash timeout s0)
      as [[st|e|] s1]; cbn [fst snd]; [done| |done].
    rewrite (erases_handle e s1). by destruct (handle e s1) as [[st|e'|] s2].
  - rewrite (erases_handle e s0). by destruct (handle e s0) as [[st|e'|] s2].
  - done.
Qed.

End fetch_erases.

Section fetch_answers.
Import bt_metadata recorded.
Context {W : Type} `{!Env W} `{!Lib}.

(** The loop over the pieces asks for the pieces in order, once each,
    and what it returns is what it was given, followed by what it keeps
    of each answer, in that order. *)
Lemma piece_loop_answers fuel timeout ut count : ∀ piece acc (s : state (W:=W)) parts s',
  piece_loop fuel timeout ut count piece acc s = (Done parts, s') →
  ∃ ans, answers fuel timeout ut count piece s = (Done ans, s')
    ∧ ans.*1 = seqZ piece (Z.of_nat count)
    ∧ parts = acc ++ omap kept ans.
Proof.
  induction count as [|count IH]; intros piece acc s parts s'.
  { intros [= <- <-]. exists []. by rewrite app_nil_r. }
  intros Hloop. cbn [piece_loop] in Hloop. unfold bind at 1 in Hloop.
  destruct (request_metadata ut piece s) as [[[]|e|] s1] eqn:Er; [|done..].
  unfold bind at 1 in Hloop.
  destruct (recvall fuel timeout s1) as [[blob|e|] s2] eqn:Ev; [|done..].
  assert (piece_loop fuel timeout ut count (piece + 1)
            (acc ++ match kept (piece, blob) with Some p => [p] | None => [] end) s2
          = (Done parts, s')) as Hnext.
  { unfold kept. destruct blob as [|c blob]; [by rewrite app_nil_r|].
    destruct (bytes_find _ _ _); [done|].
    destruct (split_ut_metadata_message _) as [[[header payload]|]|];
      [|by rewrite app_nil_r|done].
    destruct (differs_from_int _ _); [by rewrite app_nil_r|].
    destruct (differs_from_int _ _); [by rewrite app_nil_r|done]. }
  destruct (IH _ _ _ _ _ Hnext) as (ans & Ha & Hseq & ->).
  exists ((piece, blob) :: ans). split.
  { cbn [answers]. unfold bind. by rewrite Er, Ev, Ha. }
  split.
  - rewrite fmap_cons, Hseq, (seqZ_cons piece) by lia. cbn [fst].
    do 2 f_equal; lia.
  - rewrite <-app_assoc. f_equal. generalize (kept (H:=H)). intros k. csimpl.
    by destruct (k (piece, blob)).
Qed.

End fetch_answers.

Section fetch_calls.
Import bt_metadata fetch_spec recorded.
Context {W : Type} (E0 : Env W) `{!Lib}.

Abbreviation rstate := (state (W:=W * list env_call)).

Lemma stored_plain (l : list env_call) : Forall plain_call l → stored l = [].
Proof.
  induction 1 as [|c l Hc _ IH]; [done|]. unfold stored. cbn [omap].
  destruct c; try done; apply IH.
Qed.

Lemma plain_not_close (l : list env_call) : Forall plain_call l → CallClose ∉ l.
Proof. intros Hl Hin. eapply Forall_forall in Hl; [|exact Hin]. exact Hl. Qed.

(** [handle] calls nothing. *)
Lemma handle_calls e (s : rstate) r s' :
  handle e s = (r, s') → calls_made s' = calls_made s ∧ r = Done (status_of_exn e).
Proof.
  destruct e; unfold handle, bind, meta, emit, ret; cbn [fst snd];
    intros [= <- <-]; done.
Qed.

(** What [verify_and_store] calls: nothing, or [storage_info_fn] once,
    with the record made of the decoded payloads, the payloads between
    [d4:info] and [e], and the address. *)
Lemma verify_and_store_calls a infohash parts (s : rstate) r s' :
  verify_and_store a infohash parts s = (r, s') →
  (calls_made s' = calls_made s
   ∧ (r = Done st_no_pieces ∨ r = Done st_sha1_mismatch ∨ r = Raised Exception)
   ∧ (parts ≠ [] → upper (hex (sha1 (concat parts))) ≠ upper (hex infohash) →
      r = Done st_sha1_mismatch))
  ∨ (∃ md, upper (hex (sha1 (concat parts))) = upper (hex infohash)
       ∧ bdecode (concat parts) = Some md
       ∧ calls_made s'
         = calls_made s ++ [CallStorage (make_info infohash md a)
                              (B "d4:info" ++ concat parts ++ B "e") a]
       ∧ (r = Done st_ok ∨ ∃ e, r = Raised e)).
Proof.
  unfold verify_and_store. destruct parts as [|p parts].
  { unfold bind, meta, emit, ret. cbn [fst snd]. intros [= <- <-]. left.
    split; [done|]. split; [by left|]. by intros Hn. }
  remember (p :: parts) as ps eqn:Eps.
  case_bool_decide as Hne.
  { unfold bind, meta, emit, ret. cbn [fst snd]. intros [= <- <-]. left.
    split; [done|]. split; [by right; left|done]. }
  assert (upper (hex (sha1 (concat ps))) = upper (hex infohash)) as Hhex
    by (by destruct (decide (upper (hex (sha1 (concat ps))) = upper (hex infohash)))).
  destruct (bdecode (concat ps)) as [md|] eqn:Ed.
  2:{ intros [= <- <-]. left. split; [done|]. split; [by right; right|]. by intros _ ?. }
  unfold bind, meta, emit, call, ret. cbn [fst snd storage_info_fn recording noting].
  destruct (storage_info_fn _ _ _ _) as [[e|] w]; cbn [fst snd]; intros [= <- <-];
    right; exists md; (split; [done|]); (split; [done|]); (split; [done|]); eauto.
Qed.

(** The calls of the [try] block. *)
Lemma download_body_calls fuel a infohash timeout (s0 : rstate) r s1 :
  download_body fuel a infohash timeout s0 = (r, s1) →
  ∃ new, calls_made s1 = calls_made s0 ++ new
    ∧ ((Forall plain_call new ∧ r ≠ Done st_ok
        ∧ (∀ parts s1' s2 s3 packet ut pieces,
             open_and_handshake a infohash timeout s0 = (Done (inr packet), s1') →
             negotiate packet s1' = (Done (inr (ut, pieces)), s2) →
             piece_loop fuel timeout ut (Z.to_nat pieces) 0 [] s2 = (Done parts, s3) →
             parts ≠ [] → upper (hex (sha1 (concat parts))) ≠ upper (hex infohash) →
             r = Done st_sha1_mismatch))
       ∨ (∃ pre parts md s1' s2 s3 packet ut pieces,
            new = pre ++ [CallStorage (make_info infohash md a)
                            (B "d4:info" ++ concat parts ++ B "e") a]
            ∧ Forall plain_call pre
            ∧ open_and_handshake a infohash timeout s0 = (Done (inr packet), s1')
            ∧ negotiate packet s1' = (Done (inr (ut, pieces)), s2)
            ∧ piece_loop fuel timeout ut (Z.to_nat pieces) 0 [] s2 = (Done parts, s3)
            ∧ upper (hex (sha1 (concat parts))) = upper (hex infohash)
            ∧ bdecode (concat parts) = Some md
            ∧ (r = Done st_ok ∨ ∃ e, r = Raised e))).
Proof.
  assert (∀ c, plain_call c → plain_call c) as HQ by done.
  unfold download_body, bind at 1.
  destruct (open_and_handshake a infohash timeout s0) as [[[st|packet]|e|] s1'] eqn:E1;
    destruct (logs_open_and_handshake E0 plain_call HQ a infohash timeout _ _ _ E1)
      as (n1 & Hn1 & HQ1);
    pose proof (safe_open_and_handshake a infohash timeout _ _ _ E1) as [_ He1].
  1,3,4: intros [= <- <-]; exists n1; (split; [done|]); left; (split; [done|]);
    (split; [|by intros ??????? [=]]); try done;
    intros [= ->]; by destruct (He1 _ eq_refl _ eq_refl).
  unfold bind at 1.
  destruct (negotiate packet s1') as [[[st|[ut pieces]]|e|] s2] eqn:E2;
    destruct (logs_negotiate E0 plain_call HQ packet _ _ _ E2) as (n2 & Hn2 & HQ2);
    pose proof (safe_negotiate packet _ _ _ E2) as [_ He2].
  1,3,4: intros [= <- <-]; exists (n1 ++ n2);
    (split; [by rewrite Hn2, Hn1, app_assoc|]); left; (split; [by apply Forall_app|]);
    (split; [|intros ??????? [= <- <-]; by rewrite E2]); try done;
    intros [= ->]; by destruct (He2 _ eq_refl _ eq_refl).
  unfold bind at 1.
  destruct (piece_loop fuel timeout ut (Z.to_nat pieces) 0 [] s2) as [[parts|e|] s3] eqn:E3;
    destruct (logs_piece_loop E0 plain_call HQ fuel timeout ut _ _ _ _ _ _ E3)
      as (n3 & Hn3 & HQ3).
  2,3: intros [= <- <-]; exists (n1 ++ n2 ++ n3);
    (split; [by rewrite Hn3, Hn2, Hn1, !app_assoc|]); left;
    (split; [by rewrite !Forall_app|]); (split; [done|]);
    intros ??????? [= <- <-]; rewrite E2; intros [= <- <- <-]; by rewrite E3.
  intros Ev. destruct (verify_and_store_calls _ _ _ _ _ _ Ev)
    as [(Hc & Hr & Hmis)|(md & Hhex & Hd & Hc & Hr)].
  - exists (n1 ++ n2 ++ n3). split; [by rewrite Hc, Hn3, Hn2, Hn1, !app_assoc|].
    left. split; [by rewrite !Forall_app|]. split.
    + by destruct Hr as [-> | [-> | ->]].
    + intros ??????? [= <- <-]. rewrite E2. intros [= <- <- <-]. rewrite E3.
      intros [= <- <-]. apply Hmis.
  - exists ((n1 ++ n2 ++ n3) ++ [CallStorage (make_info infohash md a)
                                   (B "d4:info" ++ concat parts ++ B "e") a]).
    split; [by rewrite Hc, Hn3, Hn2, Hn1, !app_assoc|].
    right. exists (n1 ++ n2 ++ n3), parts, md, s1', s2, s3, packet, ut, pieces.
    split; [done|]. split; [by rewrite !Forall_app|]. by repeat split.
Qed.

(** The calls of a whole fetch: those of the [try] block, and then
    [close] when the socket was created. *)
Lemma download_metadata_calls fuel a infohash timeout (s : rstate) out s' :
  download_metadata fuel a infohash timeout s = (out, s') →
  ∃ body,
    calls_made s'
    = calls_made s ++ body
      ++ match (call sock_create s).1 with Done _ => [CallClose] | _ => [] end
    ∧ ((Forall plain_call body ∧ out ≠ Ret st_ok
        ∧ (∀ parts, pieces_captured fuel a infohash timeout s parts → parts ≠ [] →
             upper (hex (sha1 (concat parts))) ≠ upper (hex infohash) →
             out = Ret st_sha1_mismatch))
       ∨ (∃ pre parts md,
            body = pre ++ [CallStorage (make_info infohash md a)
                             (B "d4:info" ++ concat parts ++ B "e") a]
            ∧ Forall plain_call pre
            ∧ pieces_captured fuel a infohash timeout s parts
            ∧ upper (hex (sha1 (concat parts))) = upper (hex infohash)
            ∧ bdecode (concat parts) = Some md
            ∧ (out = Ret st_ok ∨ ∃ e, out = Ret (status_of_exn e)))).
Proof.
  unfold download_metadata.
  destruct (call sock_create s) as [[[]|e|] s0] eqn:Ec;
    destruct (logs_call plain_call CallCreate (sock_create (Env:=E0)) I _ _ _ Ec) as (n0 & Hn0 & HQ0);
    cbn [fst].
  - destruct (download_body fuel a infohash timeout s0) as [r s1] eqn:Eb.
    destruct (download_body_calls _ _ _ _ _ _ _ Eb)
      as (n1 & Hn1 & [(HQ1 & Hr & Hmis)|
                      (pre & parts & md & s1' & s2 & s3 & packet & ut & pieces
                       & -> & HQ1 & H1 & H2 & H3 & Hhex & Hd & Hr)]).
    + assert (∀ out1 s2, calls_made s2 = calls_made s1 →
                (out1 ≠ Ret st_ok) →
                (r = Done st_sha1_mismatch → out1 = Ret st_sha1_mismatch) →
                (out1, (sock_close s2.1, s2.2 ++ [EvClose])) = (out, s') →
                ∃ body, calls_made s' = calls_made s ++ body ++ [CallClose]
                  ∧ ((Forall plain_call body ∧ out ≠ Ret st_ok
                      ∧ (∀ parts, pieces_captured fuel a infohash timeout s parts →
                           parts ≠ [] →
                           upper (hex (sha1 (concat parts))) ≠ upper (hex infohash) →
                           out = Ret st_sha1_mismatch)) ∨ False)) as Hfin.
      { intros out1 s2 Hc Hne Hm [= <- <-]. exists (n0 ++ n1).
        split; [unfold calls_made in *; cbn [fst snd sock_close recording];
                by rewrite Hc, Hn1, Hn0, !app_assoc|].
        left. split; [by apply Forall_app|]. split; [done|].
        intros parts (s0' & s1' & s2' & s3 & packet & ut & pieces & Ec' & H1 & H2 & H3).
        rewrite Ec in Ec'. injection Ec' as <-. intros Hne' Hhex. apply Hm.
        by eapply Hmis. }
      destruct r as [st|e|].
      * intros Hout. destruct (Hfin (Ret st) s1 eq_refl) as (body & Hb & [Hl|[]]);
          [congruence|congruence|done|]. exists body. by auto.
      * destruct (handle e s1) as [r2 s2] eqn:Eh.
        destruct (handle_calls _ _ _ _ Eh) as [Hc ->].
        intros Hout. destruct (Hfin (Ret (status_of_exn e)) s2 Hc) as (body & Hb & [Hl|[]]);
          [by destruct e|done|done|]. exists body. by auto.
      * intros Hout. destruct (Hfin OutOfFuel s1 eq_refl) as (body & Hb & [Hl|[]]);
          [done|done|done|]. exists body. by auto.
    + assert (∀ out1 s2, calls_made s2 = calls_made s1 →
                (out1 = Ret st_ok ∨ ∃ e, out1 = Ret (status_of_exn e)) →
                (out1, (sock_close s2.1, s2.2 ++ [EvClose])) = (out, s') →
                ∃ body, calls_made s' = calls_made s ++ body ++ [CallClose]
                  ∧ (False ∨ ∃ pre parts md,
                       body = pre ++ [CallStorage (make_info infohash md a)
                                        (B "d4:info" ++ concat parts ++ B "e") a]
                       ∧ Forall plain_call pre
                       ∧ pieces_captured fuel a infohash timeout s parts
                       ∧ upper (hex (sha1 (concat parts))) = upper (hex infohash)
                       ∧ bdecode (concat parts) = Some md
                       ∧ (out = Ret st_ok ∨ ∃ e, out = Ret (status_of_exn e)))) as Hfin.
      { intros out1 s2' Hc Hout [= <- <-].
        exists ((n0 ++ pre) ++ [CallStorage (make_info infohash md a)
                                  (B "d4:info" ++ concat parts ++ B "e") a]).
        split; [unfold calls_made in *; cbn [fst snd sock_close recording];
                by rewrite Hc, Hn1, Hn0, !app_assoc|].
        right. exists (n0 ++ pre), parts, md. split; [done|].
        split; [by apply Forall_app|]. split; [by exists s0, s1', s2, s3, packet, ut, pieces|].
        done. }
      destruct Hr as [-> | [e ->]].
      * intros Hout. destruct (Hfin (Ret st_ok) s1 eq_refl) as (body & Hb & [[]|Hl]);
          [by left|done|]. exists body. by auto.
      * destruct (handle e s1) as [r2 s2'] eqn:Eh.
        destruct (handle_calls _ _ _ _ Eh) as [Hc ->].
        intros Hout.
        destruct (Hfin (Ret (status_of_exn e)) s2' Hc) as (body & Hb & [[]|Hl]);
          [by eauto|done|]. exists body. by auto.
  - destruct (handle e s0) as [r2 s2] eqn:Eh.
    destruct (handle_calls _ _ _ _ Eh) as [Hc ->]. intros [= <- <-].
    exists n0. rewrite app_nil_r. split; [by rewrite Hc|].
    left. split; [done|]. split; [by destruct e|].
    intros parts (s0' & ? & ? & ? & ? & ? & ? & Ec' & _). congruence.
  - intros [= <- <-]. exists n0. rewrite app_nil_r. split; [done|].
    left. split; [done|]. split; [done|].
    intros parts (s0' & ? & ? & ? & ? & ? & ? & Ec' & _). congruence.
Qed.

End fetch_calls.

Section fetch_stores.
Import bt_metadata fetch_spec recorded.
Context {W : Type} (E0 : Env W) `{!Lib}.

(** C1.  In any environment, with a record of the calls made to it:
    when [download_metadata] returns ["ok"], the requests for the pieces
    0, 1, ... were answered by [ans], in that order; [parts], what the
    loop kept of each answer, in piece order, has the SHA-1 digest
    [infohash] (the two uppercase hex texts are equal, which is equality
    of the digests); and the calls of the fetch end with one call of
    [storage_info_fn], on the record made of the decoded [parts], on
    [b"d4:info"] + the concatenation of [parts] + [b"e"] and on
    [address], and then [close]: no other call of [storage_info_fn]
    comes before.  When the captured payloads fail the comparison, the
    function returns ["sha1_mismatch"] and [storage_info_fn] is not
    called. *)
Theorem download_ok_verified (fuel : nat) (a : address) (infohash : bytes) (timeout : Q)
    (s : state (W:=W * list env_call)) :
  (∀ s', download_metadata (Env0:=recording E0) fuel a infohash timeout s = (Ret st_ok, s') →
     ∃ ans parts md pre,
       pieces_answered fuel a infohash timeout s ans
       ∧ ans.*1 = seqZ 0 (Z.of_nat (length ans))
       ∧ parts = omap kept ans
       ∧ pieces_captured fuel a infohash timeout s parts
       ∧ upper (hex (sha1 (concat parts))) = upper (hex infohash)
       ∧ sha1 (concat parts) = infohash
       ∧ bdecode (concat parts) = Some md
       ∧ Forall plain_call pre
       ∧ calls_made s'
         = calls_made s ++ pre
           ++ [CallStorage (make_info infohash md a)
                 (B "d4:info" ++ concat parts ++ B "e") a; CallClose])
  ∧ (∀ parts, pieces_captured fuel a infohash timeout s parts →
       parts ≠ [] → upper (hex (sha1 (concat parts))) ≠ upper (hex infohash) →
       ∃ s' new,
         download_metadata (Env0:=recording E0) fuel a infohash timeout s
         = (Ret st_sha1_mismatch, s')
         ∧ calls_made s' = calls_made s ++ new ∧ stored new = []).
Proof.
  split.
  - intros s' Hrun.
    destruct (download_metadata_calls E0 _ _ _ _ _ _ _ Hrun)
      as (body & Hc & [(_ & Hne & _)|(pre & parts & md & -> & Hpre & Hcap & Hhex & Hd & _)]);
      [done|].
    destruct Hcap as (s0 & s1 & s2 & s3 & packet & ut & pieces & H0 & H1 & H2 & H3).
    destruct (piece_loop_answers _ _ _ _ _ _ _ _ _ H3) as (ans & Ha & Hseq & Hparts).
    rewrite H0 in Hc. cbn [fst] in Hc.
    assert (length ans = Z.to_nat pieces) as Hl
      by (rewrite <-(length_fmap fst ans), Hseq, length_seqZ; lia).
    exists ans, parts, md, pre.
    split; [by exists s0, s1, s2, s3, packet, ut, pieces|].
    split; [by rewrite Hl|].
    split; [done|]. split; [by exists s0, s1, s2, s3, packet, ut, pieces|].
    split; [done|]. split; [by apply upper_hex_inj|]. split; [done|]. split; [done|].
    by rewrite Hc, <-!app_assoc.
  - intros parts Hcap Hne Hhex.
    destruct (download_metadata (Env0:=recording E0) fuel a infohash timeout s)
      as [out s'] eqn:Hrun.
    destruct (download_metadata_calls E0 _ _ _ _ _ _ _ Hrun)
      as (body & Hc & [(Hplain & _ & Hmis)|(pre & parts' & md & -> & _ & Hcap' & Hhex' & _)]).
    + exists s', (body ++ match (call sock_create s).1 with
                          | Done _ => [CallClose] | _ => [] end).
      split; [by rewrite (Hmis parts)|]. split; [done|].
      destruct Hcap as (s0 & ? & ? & ? & ? & ? & ? & -> & _). cbn [fst].
      unfold stored. rewrite omap_app. fold (stored body).
      by rewrite (stored_plain body).
    + exfalso. apply Hhex.
      destruct Hcap as (s0 & s1 & s2 & s3 & packet & ut & pieces & H0 & H1 & H2 & H3).
      destruct Hcap' as (s0' & s1' & s2' & s3' & packet' & ut' & pieces' & H0' & H1' & H2' & H3').
      rewrite H0 in H0'. injection H0' as <-. rewrite H1 in H1'. injection H1' as <- <-.
      rewrite H2 in H2'. injection H2' as <- <- <-. rewrite H3 in H3'.
      by injection H3' as <- <-.
Qed.

End fetch_stores.

(** ** Runs against a scripted peer *)

Lemma download_ok_verified_witness :
  (∃ parts md pre,
     SHA1.digest (concat parts) = script.infohash1
     ∧ recorded.calls_made (recorded.fetch_recorded script.good_peer).2
       = pre ++ [recorded.CallStorage
                   (bt_metadata.make_info (H:=script.ref_lib) script.infohash1 md addr0)
                   (B "d4:info" ++ concat parts ++ B "e") addr0;
                 recorded.CallClose])
  ∧ (∃ s' new, recorded.fetch_recorded script.corrupt_peer = (Ret st_sha1_mismatch, s')
       ∧ recorded.calls_made s' = new ∧ recorded.stored new = []).
Proof.
  split.
  - destruct (proj1 (download_ok_verified script.script_env (H:=script.ref_lib)
                       20 addr0 script.infohash1 6
                       (recorded.start_recorded script.good_peer))
                (recorded.fetch_recorded script.good_peer).2)
      as (ans & parts & md & pre & _ & _ & _ & _ & _ & Hsha & _ & _ & Hc).
    { vm_compute. reflexivity. }
    exists parts, md, pre. split; [exact Hsha|exact Hc].
  - destruct (proj2 (download_ok_verified script.script_env (H:=script.ref_lib)
                       20 addr0 script.infohash1 6
                       (recorded.start_recorded script.corrupt_peer))
                [script.metadata2]) as (s' & new & Hrun & Hc & Hst).
    + eexists _, _, _, _, _, _, _.
      split; [vm_compute; reflexivity|].
      split; [vm_compute; reflexivity|].
      split; [vm_compute; reflexivity|].
      vm_compute; reflexivity.
    + discriminate.
    + vm_compute. discriminate.
    + exists s', new. split; [exact Hrun|]. split; [exact Hc|exact Hst].
Defined.

(** A handshake with [ut_metadata = 0] is accepted, and the fetch from
    that peer ends with ["ok"], not ["ext_fail"]. *)
Lemma ext_handshake_ut_zero_accepted :
  bt_metadata.parse_ext_handshake (H:=script.ref_lib) (script.peer_ext_handshake 0 30)
  = Some (0, 30)
  ∧ (script.fetch script.ut_zero_peer).1 = Ret st_ok.
Proof. split; vm_compute; reflexivity. Qed.

Lemma no_m_not_good (L : bt_metadata.Lib) packet d :
  bt_metadata.bdecode (bt_metadata.ext_payload packet) = Some (BDict d) →
  d !! B "m" = None → ¬ bt_metadata.good_fields packet.
Proof. intros Ed Em (d' & m & ut & size & Ed' & Em' & _). congruence. Qed.

Lemma ext_handshake_fields_required_witness :
  (script.fetch script.no_m_peer).1 = Ret st_ext_fail.
Proof.
  edestruct (@ext_handshake_fields_required script.world script.script_env script.ref_lib
               20 addr0 script.infohash1 6 (script.start script.no_m_peer)) as [_ Hr].
  - vm_compute; reflexivity.
  - vm_compute; reflexivity.
  - eapply no_m_not_good; vm_compute; reflexivity.
  - unfold script.fetch. rewrite Hr. reflexivity.
Defined.

(** A peer whose extension handshake advertises [metadata_size = 0]: the
    fetch ends with ["ext_fail"], which is not ["bad_pieces"]. *)
Lemma metadata_size_zero_not_bad_pieces :
  (∃ d, bt_metadata.bdecode (Lib:=script.ref_lib)
          (bt_metadata.ext_payload (script.peer_ext_handshake 1 0)) = Some (BDict d)
        ∧ d !! B "metadata_size" = Some (BInt 0))
  ∧ (script.fetch script.size_zero_peer).1 = Ret st_ext_fail
  ∧ (script.fetch script.size_zero_peer).1 ≠ Ret st_bad_pieces.
Proof.
  split.
  { exists (<[ B "m" := BDict {[ B "ut_metadata" := BInt 1 ]} ]>
              {[ B "metadata_size" := BInt 0 ]}).
    split; vm_compute; reflexivity. }
  split; vm_compute; [reflexivity|discriminate].
Qed.

Lemma metadata_size_zero_ext_fail_witness :
  (script.fetch [script.peer_handshake; script.peer_ext_handshake 3 0]).1 = Ret st_ext_fail.
Proof.
  edestruct (@metadata_size_zero_ext_fail script.world script.script_env script.ref_lib
               20 addr0 script.infohash1 6
               (script.start [script.peer_handshake; script.peer_ext_handshake 3 0]))
    as [Hr _].
  - vm_compute; reflexivity.
  - vm_compute; reflexivity.
  - vm_compute; reflexivity.
  - vm_compute; reflexivity.
  - unfold script.fetch. rewrite Hr. reflexivity.
Defined.

(* ================================================================== *)
(** * Further properties of the code *)
(* ================================================================== *)

(** ** magnet.py: the decoder on arbitrary input *)

Section decoder.
Import magnet.

Ltac unB :=
  change (B "e") with ["e"%byte] in *; change (B "i") with ["i"%byte] in *;
  change (B "l") with ["l"%byte] in *; change (B "d") with ["d"%byte] in *;
  change (B ":") with [":"%byte] in *.

Lemma at1_past (buf : bytes) i : (length buf ≤ i)%nat → at1 buf i = [].
Proof. intros Hi. unfold at1, slice. rewrite drop_ge by done. apply take_nil. Qed.

Lemma _bdecode_fuel_past fuel data i :
  (length data ≤ i)%nat → _bdecode_fuel (S fuel) data i = Ret None.
Proof. intros Hi. simpl. by rewrite at1_past. Qed.

Lemma _bdecode_at (v : bvalue) (pre suf : bytes) :
  _bdecode (pre ++ _bencode v ++ suf) (length pre)
  = Ret (Some (v, (length pre + length (_bencode v))%nat)).
Proof.
  apply rt_all. unfold decode_fuel. rewrite !length_app. lia.
Qed.

(** X1. For every value [v], decoding at the place where an encoding of
    [v] starts inside any buffer returns [v] and the index just past that
    encoding, whatever bytes stand before and after it. *)
Theorem bdecode_bencode_embedded (v : bvalue) (pre suf : bytes) :
  _bdecode (pre ++ _bencode v ++ suf) (length pre)
  = Ret (Some (v, (length pre + length (_bencode v))%nat)).
Proof.
  unfold _bdecode. apply rt_all.
  unfold decode_fuel. rewrite !length_app. lia.
Qed.

(** X2. [_bencode] is injective and its encodings are self-delimiting:
    two encodings followed by any bytes are equal only for equal values
    followed by equal bytes. *)
Theorem bencode_prefix_free (v1 v2 : bvalue) (s1 s2 : bytes) :
  _bencode v1 ++ s1 = _bencode v2 ++ s2 ↔ v1 = v2 ∧ s1 = s2.
Proof.
  split; [|by intros [-> ->]]. intros Heq.
  pose proof (_bdecode_at v1 [] s1) as H1.
  pose proof (_bdecode_at v2 [] s2) as H2.
  simpl in H1, H2. rewrite Heq, H2 in H1. injection H1 as -> _.
  split; [done|]. by apply app_inv_head in Heq.
Qed.

Lemma bdecode_step data fuel i :
  ((2 * (length data - i) + 1 ≤ fuel)%nat →
     ∃ r, _bdecode_fuel fuel data i = Ret r ∧ decoded data i r)
  ∧ ((2 * (length data - i) + 2 ≤ fuel)%nat → ∀ out,
     ∃ r, _bdecode_list fuel data i out = Ret r ∧ decoded data i r)
  ∧ ((2 * (length data - i) + 2 ≤ fuel)%nat → ∀ out,
     ∃ r, _bdecode_dict fuel data i out = Ret r ∧ decoded data i r).
Proof.
  revert i. induction fuel as [|fuel IH]; intros i; [repeat split; lia|].
  split; [|split]; intros Hf.
  - destruct (decide (length data ≤ i)%nat) as [Hi|Hi].
    { rewrite _bdecode_fuel_past by done. by exists None. }
    apply Nat.nle_gt in Hi. cbn [_bdecode_fuel].
    destruct (at1_lookup data i Hi) as (x & Hx & Hc). rewrite Hc.
    case_bool_decide.
    { destruct (bytes_find _ _ _) as [j|] eqn:Ej; [|by exists None].
      apply bytes_find_bounds in Ej. simpl in Ej.
      destruct (py_int _); [|by exists None].
      eexists. split; [done|]. simpl. lia. }
    case_bool_decide.
    { destruct (proj1 (proj2 (IH (i + 1)%nat))) with (out := @nil bvalue)
        as (r & -> & Hr); [lia|].
      exists r. split; [done|]. destruct r as [[v j]|]; simpl in *; [|done].
      destruct v; lia. }
    case_bool_decide.
    { destruct (proj2 (proj2 (IH (i + 1)%nat))) with (out := (∅ : gmap bytes bvalue))
        as (r & -> & Hr); [lia|].
      exists r. split; [done|]. destruct r as [[v j]|]; simpl in *; [|done].
      destruct v; lia. }
    destruct (_ && _); [|by exists None].
    destruct (bytes_find _ _ _) as [j|] eqn:Ej; [|by exists None].
    apply bytes_find_bounds in Ej. simpl in Ej.
    destruct (py_int _); [|by exists None].
    eexists. split; [done|]. simpl. lia.
  - intros out. cbn [_bdecode_list]. case_bool_decide as Hc.
    + destruct (proj1 (IH i)) as (r & -> & Hr); [lia|].
      destruct r as [[v i']|]; [|by exists None]. simpl in Hr.
      destruct (proj1 (proj2 (IH i'))) with (out := out ++ [v]) as (r & -> & Hr'); [lia|].
      exists r. split; [done|]. destruct r as [[v' j]|]; simpl in *; [|done].
      destruct v'; lia.
    + assert (i < length data)%nat as Hi.
      { apply Nat.nle_gt. intros Hi. by rewrite at1_past in Hc. }
      eexists. split; [done|]. simpl. lia.
  - intros out. cbn [_bdecode_dict]. case_bool_decide as Hc.
    + destruct (proj1 (IH i)) as (r & -> & Hr); [lia|].
      destruct r as [[k i']|]; [|by exists None]. simpl in Hr.
      destruct k as [| k | |]; try by exists None.
      destruct (proj1 (IH i')) as (r & -> & Hr'); [lia|].
      destruct r as [[v i'']|]; [|by exists None]. simpl in Hr'.
      destruct (proj2 (proj2 (IH i''))) with (out := <[k:=v]> out)
        as (r & -> & Hr''); [lia|].
      exists r. split; [done|]. destruct r as [[v' j]|]; simpl in *; [|done].
      destruct v'; lia.
    + assert (i < length data)%nat as Hi.
      { apply Nat.nle_gt. intros Hi. by rewrite at1_past in Hc. }
      eexists. split; [done|]. simpl. lia.
Qed.

(** More fuel never changes a result of the decoder. *)
Lemma bdecode_fuel_mono data fuel :
  ∀ fuel' i r, (fuel ≤ fuel')%nat →
    (_bdecode_fuel fuel data i = Ret r → _bdecode_fuel fuel' data i = Ret r)
    ∧ (∀ out, _bdecode_list fuel data i out = Ret r → _bdecode_list fuel' data i out = Ret r)
    ∧ (∀ out, _bdecode_dict fuel data i out = Ret r → _bdecode_dict fuel' data i out = Ret r).
Proof.
  induction fuel as [|fuel IH]; intros fuel' i r Hle; [repeat split; done|].
  destruct fuel' as [|fuel']; [lia|]. assert (fuel ≤ fuel')%nat as Hle' by lia.
  split; [|split].
  - cbn [_bdecode_fuel]. case_bool_decide; [done|].
    case_bool_decide; [apply (IH fuel' _ _ Hle')|].
    case_bool_decide; [apply (IH fuel' _ _ Hle')|]. done.
  - intros out. cbn [_bdecode_list]. case_bool_decide; [|done].
    destruct (_bdecode_fuel fuel data i) as [[[v i']|]|] eqn:E; [| |done].
    + rewrite (proj1 (IH fuel' _ _ Hle') E). apply (IH fuel' _ _ Hle').
    + by rewrite (proj1 (IH fuel' _ _ Hle') E).
  - intros out. cbn [_bdecode_dict]. case_bool_decide; [|done].
    destruct (_bdecode_fuel fuel data i) as [[[k i']|]|] eqn:E; [| |done].
    + rewrite (proj1 (IH fuel' _ _ Hle') E).
      destruct k as [| k | |]; try done.
      destruct (_bdecode_fuel fuel data i') as [[[v i'']|]|] eqn:E'; [| |done].
      * rewrite (proj1 (IH fuel' _ _ Hle') E'). apply (IH fuel' _ _ Hle').
      * by rewrite (proj1 (IH fuel' _ _ Hle') E').
    + by rewrite (proj1 (IH fuel' _ _ Hle') E).
Qed.

(** X3. [_bdecode(data, i)] returns or raises [ValueError] on every byte
    string and every index: the fuel it is run with is never exhausted
    and more fuel changes nothing.  A returned index lies past [i], [i]
    lies within the data, and the returned index lies within the data
    too unless the value is a byte string. *)
Theorem bdecode_total (data : bytes) (i : nat) :
  ∃ r : option (bvalue * nat),
    _bdecode data i = Ret r
    ∧ (∀ fuel, (decode_fuel data ≤ fuel)%nat → _bdecode_fuel fuel data i = Ret r)
    ∧ decoded data i r.
Proof.
  destruct (proj1 (bdecode_step data (decode_fuel data) i)) as (r & Hr & Hd).
  { unfold decode_fuel. lia. }
  exists r. split; [done|]. split; [|done].
  intros fuel Hle. by apply (bdecode_fuel_mono data (decode_fuel data) fuel i r Hle).
Qed.

End decoder.

(** ** magnet.py: [torrent_to_magnet] *)

Section magnet_link.
Import magnet magnet_link.
Context (sha1 : bytes → bytes) (decode_utf8 : bytes → option (list N))
  (quote : list N → string).

Lemma _bdecode_whole v : _bdecode (_bencode v) 0 = Ret (Some (v, length (_bencode v))).
Proof. pose proof (_bdecode_at v [] []) as H. by rewrite app_nil_r in H. Qed.

(** X4. For a torrent file that is the encoding of a dict whose [info]
    entry is a dict, [torrent_to_magnet] returns
    ["magnet:?xt=urn:btih:"] followed by the lowercase hex SHA-1 of the
    re-encoded info dict, and then ["&dn="] with the quoted name when the
    info dict has a non-empty name that decodes as UTF-8. *)
Theorem torrent_to_magnet_infohash (meta info : gmap bytes bvalue) :
  meta !! B "info" = Some (BDict info) →
  torrent_to_magnet sha1 decode_utf8 quote (_bencode (BDict meta))
  = Ret (inr (let link := ("magnet:?xt=urn:btih:"
                           ++ hex (sha1 (_bencode (BDict info))))%string in
              if bool_decide (display_name decode_utf8 info = []) then link
              else (link ++ "&dn=" ++ quote (display_name decode_utf8 info))%string)).
Proof.
  intros Hi. unfold torrent_to_magnet. rewrite _bdecode_whole.
  rewrite bool_decide_eq_false_2 by (intros Hn; by apply Hn).
  by rewrite Hi.
Qed.

(** X5. What [torrent_to_magnet] refuses: bytes after the end of the
    encoded value, a top-level value that is no dict, and a dict without
    [info] raise [ValueError]; an [info] entry that is no dict raises
    [AttributeError] (at [info.get]). *)
Theorem torrent_to_magnet_refuses (v : bvalue) :
  (∀ c junk, torrent_to_magnet sha1 decode_utf8 quote (_bencode v ++ c :: junk)
             = Ret (inl ValueError))
  ∧ ((∀ d, v ≠ BDict d) →
     torrent_to_magnet sha1 decode_utf8 quote (_bencode v) = Ret (inl ValueError))
  ∧ (∀ d, v = BDict d → d !! B "info" = None →
     torrent_to_magnet sha1 decode_utf8 quote (_bencode v) = Ret (inl ValueError))
  ∧ (∀ d info, v = BDict d → d !! B "info" = Some info → (∀ i, info ≠ BDict i) →
     torrent_to_magnet sha1 decode_utf8 quote (_bencode v) = Ret (inl AttributeError)).
Proof.
  repeat split.
  - intros c junk. unfold torrent_to_magnet.
    pose proof (_bdecode_at v [] (c :: junk)) as H. simpl in H. rewrite H.
    rewrite bool_decide_eq_true_2; [done|]. rewrite length_app. simpl. lia.
  - intros Hv. unfold torrent_to_magnet. rewrite _bdecode_whole.
    rewrite bool_decide_eq_false_2 by (intros Hn; by apply Hn).
    destruct v; try done. by destruct (Hv d).
  - intros d -> Hd. unfold torrent_to_magnet. rewrite _bdecode_whole.
    rewrite bool_decide_eq_false_2 by (intros Hn; by apply Hn). by rewrite Hd.
  - intros d info -> Hd Hi. unfold torrent_to_magnet. rewrite _bdecode_whole.
    rewrite bool_decide_eq_false_2 by (intros Hn; by apply Hn). rewrite Hd.
    destruct info; try done. by destruct (Hi d0).
Qed.

End magnet_link.

(** ** bt_metadata.py: the framing scan on well-formed encodings *)

Section scan_encoding.
Import magnet bt_scan.

Ltac unB :=
  change (B "e") with ["e"%byte] in *; change (B "i") with ["i"%byte] in *;
  change (B "l") with ["l"%byte] in *; change (B "d") with ["d"%byte] in *;
  change (B ":") with [":"%byte] in *.
Ltac layout := repeat rewrite <-app_assoc; reflexivity.
Ltac lens := repeat (progress (simpl; rewrite ?length_app)); lia.

Lemma at1_inside (buf : bytes) i c : at1 buf i = [c] → (length buf <=? i)%nat = false.
Proof.
  intros Hc. apply Nat.leb_gt, Nat.nle_gt. intros Hi.
  by rewrite at1_past in Hc.
Qed.

Lemma framed_int z : framed (BInt z).
Proof.
  intros fuel pre suf Hf. destruct fuel as [|fuel]; [simpl in Hf; lia|]. clear Hf.
  simpl _bencode. unB. cbn [app].
  pose proof (at1_app pre "i"%byte (str_Z z ++ "e"%byte :: suf)) as Hc.
  rewrite <-app_assoc. cbn [app bencode_next_index_fuel].
  rewrite (at1_inside _ _ _ Hc), Hc.
  rewrite (bool_decide_eq_true_2 (["i"%byte] = B "i")) by done. unB.
  rewrite (bytes_find_layout _ (pre ++ ["i"%byte]) (str_Z z ++ "e"%byte :: suf) _ _)
    by first [layout|lens].
  rewrite find_in_single by (apply not_e_in_num, str_Z_chars).
  do 2 f_equal. lens.
Qed.

Lemma framed_bytes b : framed (BBytes b).
Proof.
  intros fuel pre suf Hf. pose proof (bencode_nonempty (BBytes b)).
  destruct fuel as [|fuel]; [lia|]. clear Hf.
  simpl _bencode. unfold bencode_bytes. rewrite str_Z_nat.
  destruct (str_N_head (N.of_nat (length b))) as (c & r & Hsn & Hc).
  pose proof (str_N_digits (N.of_nat (length b))) as Hd.
  pose proof (py_int_str_N (N.of_nat (length b))) as Hint.
  set (sn := str_N (N.of_nat (length b))) in *.
  unB. rewrite <-!app_assoc. cbn [app].
  pose proof (at1_head pre sn (":"%byte :: b ++ suf) c r Hsn) as Hat.
  cbn [bencode_next_index_fuel].
  rewrite (at1_inside _ _ _ Hat), Hat.
  rewrite (bool_decide_eq_false_2 ([c] = B "i")) by (intros [= ->]; by destruct Hc).
  rewrite (bool_decide_eq_false_2 ([c] = B "l")) by (intros [= ->]; by destruct Hc).
  rewrite (bool_decide_eq_false_2 ([c] = B "d")) by (intros [= ->]; by destruct Hc).
  cbn [orb]. rewrite is_digit_leb by done. unB.
  rewrite (bytes_find_layout _ pre (sn ++ ":"%byte :: b ++ suf) _ _)
    by first [layout|lens].
  rewrite find_in_single by by apply not_colon_in_digits.
  rewrite (slice_layout _ pre sn (":"%byte :: b ++ suf)) by first [layout|lens].
  rewrite Hint.
  match goal with |- context [Z.ltb ?x ?y] => replace (Z.ltb x y) with false end.
  2:{ symmetry. apply Z.ltb_ge. rewrite !length_app. simpl. rewrite !length_app. lia. }
  do 2 f_equal. rewrite !length_app. simpl. lia.
Qed.

Lemma framed_loop l :
  Forall framed l → ∀ fuel pre suf,
    (2 * length (enc_list l) + 1 ≤ fuel)%nat →
    bencode_next_index_loop fuel (pre ++ enc_list l ++ B "e" ++ suf) (length pre)
    = Ret (Some (length pre + length (enc_list l) + 1)%nat).
Proof.
  induction 1 as [|v l Hv Hl IH]; intros fuel pre suf Hf;
    (destruct fuel as [|fuel]; [lia|]); unB.
  - cbn [enc_list map concat app].
    pose proof (at1_app pre "e"%byte suf) as Hc.
    cbn [bencode_next_index_loop]. rewrite (at1_inside _ _ _ Hc), Hc.
    rewrite (bool_decide_eq_true_2 (["e"%byte] = B "e")) by done.
    do 2 f_equal. simpl. lia.
  - unfold enc_list in *. cbn [map concat] in *. rewrite length_app in Hf.
    pose proof (bencode_nonempty v).
    destruct (bencode_head v) as (c & r & Hc & Hne).
    rewrite <-!app_assoc.
    pose proof (at1_head pre (_bencode v)
                  (concat (map _bencode l) ++ ["e"%byte] ++ suf) c r Hc) as Hat.
    cbn [bencode_next_index_loop]. rewrite (at1_inside _ _ _ Hat), Hat.
    rewrite (bool_decide_eq_false_2 ([c] = B "e")) by (by intros [= ->]).
    rewrite Hv by lia.
    specialize (IH fuel (pre ++ _bencode v) suf).
    rewrite <-!app_assoc, length_app in IH. unB. rewrite IH by lia.
    rewrite length_app. do 2 f_equal. lia.
Qed.


Lemma framed_opened (open_ : byte) l :
  open_ = "l"%byte ∨ open_ = "d"%byte → Forall framed l →
  ∀ fuel pre suf, (2 * (length (enc_list l) + 2) ≤ fuel)%nat →
    bencode_next_index_fuel fuel (pre ++ ([open_] ++ enc_list l ++ B "e") ++ suf)
      (length pre)
    = Ret (Some (length pre + (length (enc_list l) + 2))%nat).
Proof.
  intros Ho Hl fuel pre suf Hf. destruct fuel as [|fuel]; [lia|].
  unB. rewrite <-!app_assoc. cbn [app].
  pose proof (at1_app pre open_ (enc_list l ++ "e"%byte :: suf)) as Hc.
  cbn [bencode_next_index_fuel]. rewrite (at1_inside _ _ _ Hc), Hc.
  rewrite (bool_decide_eq_false_2 ([open_] = B "i")) by (by destruct Ho as [-> | ->]).
  replace (bool_decide ([open_] = B "l") || bool_decide ([open_] = B "d")) with true
    by (by destruct Ho as [-> | ->]).
  pose proof (framed_loop l Hl fuel (pre ++ [open_]) suf) as Hloop.
  unB. rewrite <-!app_assoc in Hloop. cbn [app] in Hloop.
  rewrite length_app in Hloop. cbn [length] in Hloop.
  rewrite Hloop by lia. do 2 f_equal. lia.
Qed.

Lemma framed_list l : Forall framed l → framed (BList l).
Proof.
  intros Hl fuel pre suf Hf.
  assert (_bencode (BList l) = ["l"%byte] ++ enc_list l ++ B "e") as Henc by done.
  rewrite Henc in *. rewrite !length_app in *. simpl in Hf.
  rewrite (framed_opened "l"%byte l) by first [by left|done|lia].
  do 2 f_equal. simpl. lia.
Qed.

(** The items of a dict as the scan sees them: keys and values in turn. *)
Lemma enc_items_flat items :
  enc_items items
  = enc_list (concat (map (λ kv : bytes * bvalue, [BBytes kv.1; kv.2]) items)).
Proof.
  unfold enc_items, enc_list. induction items as [|[k v] items IH]; [done|].
  cbn [map concat app fst snd]. rewrite IH. by rewrite <-app_assoc.
Qed.

Lemma framed_dict (d : gmap bytes bvalue) : map_Forall (λ _, framed) d → framed (BDict d).
Proof.
  intros Hd fuel pre suf Hf. rewrite _bencode_dict in *.
  fold (enc_items (sort_items (map_to_list d))) in *.
  set (items := sort_items (map_to_list d)) in *.
  rewrite enc_items_flat in *. rewrite !length_app in *. simpl in Hf.
  rewrite (framed_opened "d"%byte); [do 2 f_equal; simpl; lia|by right| |lia].
  apply Forall_concat, Forall_fmap, Forall_forall. intros [k v] Hkv. simpl.
  repeat constructor; [apply framed_bytes|].
  unfold items in Hkv. rewrite sort_items_perm in Hkv.
  apply elem_of_map_to_list in Hkv. by apply (Hd k v).
Qed.

Lemma framed_all v : framed v.
Proof.
  induction v using bvalue_ind'; auto using framed_int, framed_bytes, framed_list, framed_dict.
Qed.

(** X6. On a well-formed encoding the framing scan finds its end: at the
    place where an encoding of [v] starts inside any buffer,
    [bencode_next_index] returns the index just past that encoding. *)
Theorem bencode_next_index_bencode (v : bvalue) (pre suf : bytes) :
  bencode_next_index (pre ++ _bencode v ++ suf) (length pre)
  = Ret (Some (length pre + length (_bencode v))%nat).
Proof.
  apply framed_all. unfold scan_fuel. rewrite !length_app. lia.
Qed.

End scan_encoding.

(** ** Big-endian length prefixes *)

Lemma of_be_snoc l c : of_be (l ++ [c]) = 256 * of_be l + Z_of_byte c.
Proof. unfold of_be. by rewrite foldl_app. Qed.

Lemma length_to_be k x : length (to_be k x) = k.
Proof.
  revert x. induction k as [|k IH]; intros x; [done|].
  simpl. rewrite length_app, IH. simpl. lia.
Qed.

Lemma Z_of_low_byte x :
  Z_of_byte (match Byte.of_N (Z.to_N (x mod 256)) with Some b => b | None => Byte.x00 end)
  = x mod 256.
Proof.
  pose proof (Z.mod_pos_bound x 256 eq_refl) as Hb.
  destruct (Byte.of_N (Z.to_N (x mod 256))) as [b|] eqn:E.
  - apply Byte.to_of_N in E. unfold Z_of_byte. rewrite E. lia.
  - apply Byte.of_N_None_iff in E. lia.
Qed.

Lemma of_be_to_be k x : 0 ≤ x < 256 ^ Z.of_nat k → of_be (to_be k x) = x.
Proof.
  revert x. induction k as [|k IH]; intros x Hx.
  - simpl in *. unfold of_be. simpl. lia.
  - cbn [to_be]. rewrite of_be_snoc, Z_of_low_byte, IH.
    + pose proof (Z.div_mod x 256). lia.
    + rewrite Nat2Z.inj_succ, Z.pow_succ_r in Hx by lia.
      split; [apply Z.div_pos; lia|]. apply Z.div_lt_upper_bound; lia.
Qed.

(** ** bt_metadata.py: the two handshakes *)

Section handshakes.
Import bt_metadata.

Lemma byte_19 x : Z_of_byte x = 19 → x = Byte.x13.
Proof. destruct x; try done; intros H; vm_compute in H; discriminate H. Qed.

Lemma take_slice (buf : bytes) i j :
  (i ≤ j)%nat → take j buf = take i buf ++ slice buf i j.
Proof.
  intros Hij. unfold slice. rewrite take_take_drop. f_equal. lia.
Qed.

Lemma length_slice (buf : bytes) i j :
  (j ≤ length buf)%nat → length (slice buf i j) = (j - i)%nat.
Proof. intros Hj. unfold slice. rewrite length_take, length_drop. lia. Qed.

(** X7. [check_handshake(packet, infohash)] is true exactly for a packet
    made of the byte 19, ["BitTorrent protocol"], any 8 reserved bytes,
    the 20-byte [infohash], and anything after it (so an [infohash] that
    is not 20 bytes long is never accepted). *)
Theorem check_handshake_accepts (packet infohash : bytes) :
  check_handshake packet infohash = true
  ↔ ∃ reserved rest,
      length reserved = 8%nat ∧ length infohash = 20%nat
      ∧ packet = [Byte.x13] ++ BT_PROTOCOL ++ reserved ++ infohash ++ rest.
Proof.
  split.
  - unfold check_handshake. destruct packet as [|x tl]; [done|].
    set (packet := x :: tl).
    case_bool_decide as Hx; [done|]. destruct (_ <? _)%nat eqn:Hlen; [done|].
    case_bool_decide as Hp; [done|]. intros Hih%bool_decide_eq_true.
    apply Nat.ltb_ge in Hlen.
    apply byte_19 in Hx.
    exists (slice packet 20 28), (drop 48 packet).
    split; [apply length_slice; simpl in *; lia|].
    split; [rewrite <-Hih; apply length_slice; simpl in *; lia|].
    rewrite <-(take_drop 48 packet) at 1.
    rewrite (take_slice packet 28 48), (take_slice packet 20 28),
      (take_slice packet 1 20) by lia.
    change (1 + 19 + 8 + 20)%nat with 48%nat in Hih.
    change (1 + 19 + 8)%nat with 28%nat in Hih.
    change (1 + 19)%nat with 20%nat in Hp.
    rewrite Hih, Hp. unfold packet. simpl take. rewrite Hx.
    by rewrite <-!app_assoc.
  - intros (reserved & rest & Hr & Hi & ->). unfold check_handshake.
    cbn [app]. rewrite bool_decide_eq_false_2 by (intros Hn; by apply Hn).
    replace (length (Byte.x13 :: BT_PROTOCOL ++ reserved ++ infohash ++ rest)
             <? 1 + 19 + 8 + 20)%nat with false.
    2:{ symmetry. apply Nat.ltb_ge. simpl. rewrite !length_app. simpl. lia. }
    rewrite (slice_layout _ [Byte.x13] BT_PROTOCOL (reserved ++ infohash ++ rest))
      by done.
    rewrite bool_decide_eq_false_2 by (intros Hn; by apply Hn).
    rewrite (slice_layout _ ([Byte.x13] ++ BT_PROTOCOL ++ reserved) infohash rest).
    + by apply bool_decide_eq_true.
    + by rewrite <-!app_assoc.
    + rewrite !length_app, Hr. done.
    + rewrite Hi. done.
Qed.

End handshakes.

Section fetch_more.
Import bt_metadata.
Context {W : Type} `{!Env W} `{!Lib}.

Lemma at1_at (pre : bytes) x rest i : i = length pre → at1 (pre ++ x :: rest) i = [x].
Proof. intros ->. apply at1_app. Qed.

(** X8. [parse_ext_handshake] returns the advertised pair: for a frame
    whose length prefix counts the two id bytes (20, 0) and a non-empty
    payload that decodes to a dict with an int [m.ut_metadata] and a
    positive int [metadata_size], it returns exactly those two numbers,
    whatever follows the frame. *)
Theorem parse_ext_handshake_accepts (payload trailing : bytes)
    (d m : gmap bytes bvalue) (ut size : Z) :
  payload ≠ [] → Z.of_nat (length payload) + 2 < 2 ^ 32 →
  bdecode payload = Some (BDict d) →
  d !! B "m" = Some (BDict m) → m !! B "ut_metadata" = Some (BInt ut) →
  d !! B "metadata_size" = Some (BInt size) → 0 < size →
  parse_ext_handshake
    (to_be 4 (Z.of_nat (length payload) + 2)
     ++ [BT_MSG_ID; EXT_HANDSHAKE_ID] ++ payload ++ trailing)
  = Some (ut, size).
Proof.
  intros Hne Hlen Hd Hm Hut Hsz Hpos.
  assert (0 < length payload)%nat as Hp by (destruct payload; [done|simpl; lia]).
  set (n := Z.of_nat (length payload) + 2) in *.
  pose proof (length_to_be 4 n) as Hl4.
  set (packet := to_be 4 n ++ [BT_MSG_ID; EXT_HANDSHAKE_ID] ++ payload ++ trailing).
  assert (length packet = 6 + length payload + length trailing)%nat as Hlp.
  { unfold packet. rewrite !length_app, Hl4. simpl. lia. }
  assert (take 4 packet = to_be 4 n) as Ht by (by apply take_app_length').
  assert (at1 packet 4 = [BT_MSG_ID]) as H4 by (by apply (at1_at (to_be 4 n))).
  assert (at1 packet 5 = [EXT_HANDSHAKE_ID]) as H5.
  { apply (at1_at (to_be 4 n ++ [BT_MSG_ID]) EXT_HANDSHAKE_ID (payload ++ trailing)).
    by rewrite length_app, Hl4. }
  assert (slice packet 6 (Z.to_nat (4 + n)) = payload) as Hs.
  { apply (slice_layout _ (to_be 4 n ++ [BT_MSG_ID; EXT_HANDSHAKE_ID]) payload trailing).
    - unfold packet. by rewrite <-!app_assoc.
    - by rewrite length_app, Hl4.
    - lia. }
  unfold parse_ext_handshake. rewrite Ht.
  rewrite of_be_to_be by (change (256 ^ Z.of_nat 4) with (2 ^ 32); lia).
  rewrite H4, H5, Hs, Hlp.
  replace (6 + length payload + length trailing <? 6)%nat with false
    by (symmetry; apply Nat.ltb_ge; lia).
  replace (n <=? 2) with false by (symmetry; apply Z.leb_gt; lia).
  replace (Z.of_nat (6 + length payload + length trailing) <? 4 + n) with false
    by (symmetry; apply Z.ltb_ge; lia).
  rewrite !bool_decide_eq_false_2 by (intros Hn; by apply Hn).
  rewrite Hd, Hm, Hut, Hsz.
  by replace (0 <? size) with true by (symmetry; by apply Z.ltb_lt).
Qed.

(** X9. [split_ut_metadata_message] splits a message at the end of its
    header: for the encoding of a header dict followed by any payload
    bytes it returns that header and exactly those payload bytes. *)
Theorem split_ut_metadata_message_frames (header : gmap bytes bvalue) (payload : bytes) :
  bdecode (magnet._bencode (BDict header)) = Some (BDict header) →
  split_ut_metadata_message (magnet._bencode (BDict header) ++ payload)
  = Ret (Some (header, payload)).
Proof.
  intros Hd. unfold split_ut_metadata_message.
  set (enc := magnet._bencode (BDict header)) in *.
  assert (bytes_find (enc ++ payload) (B "d") 0 = Some 0%nat) as ->.
  { unfold enc. rewrite _bencode_dict. reflexivity. }
  assert (bt_scan.bencode_next_index (enc ++ payload) 0 = Ret (Some (length enc))) as ->.
  { apply (framed_all (BDict header) _ [] payload).
    unfold bt_scan.scan_fuel. rewrite length_app. simpl. lia. }
  rewrite (slice_layout _ [] enc payload) by done.
  by rewrite Hd, drop_app_length.
Qed.

End fetch_more.

(** ** bt_metadata.py: the trace of a fetch *)

Section fetch_runs.
Import bt_metadata fetch_spec.
Context {W : Type} `{!Env W} `{!Lib}.
Context (P : io_event → Prop) (E : exn → Prop).

Abbreviation runs_ φ m := (runs (W:=W) P E φ m).
Abbreviation any_ := (λ _, True).

Lemma runs_ret {A} (φ : A → Prop) a : φ a → runs_ φ (ret a).
Proof.
  intros Ha s r s' [= <- <-]. split; [exists []; by rewrite app_nil_r|].
  split; [done|]. by intros ? [= <-].
Qed.

Lemma runs_raise {A} (φ : A → Prop) e : E e → runs_ φ (raise e).
Proof.
  intros He s r s' [= <- <-]. split; [exists []; by rewrite app_nil_r|].
  split; [by intros ? [= <-]|done].
Qed.

Lemma runs_out_of_fuel {A} (φ : A → Prop) : runs_ φ out_of_fuel.
Proof.
  intros s r s' [= <- <-]. split; [exists []; by rewrite app_nil_r|]. by split.
Qed.

Lemma runs_bind {A C} (ψ : A → Prop) (φ : C → Prop) (m : M A) (f : A → M C) :
  runs_ ψ m → (∀ a, ψ a → runs_ φ (f a)) → runs_ φ (bind m f).
Proof.
  intros Hm Hf s r s'. unfold bind.
  destruct (m s) as [[a|e|] s1] eqn:Em; destruct (Hm _ _ _ Em) as ((n1 & Hn1 & HP1) & He1 & Ha1).
  - intros Ef. destruct (Hf a (Ha1 _ eq_refl) _ _ _ Ef) as ((n2 & Hn2 & HP2) & He2 & Ha2).
    split; [|by split]. exists (n1 ++ n2).
    split; [by rewrite Hn2, Hn1, app_assoc|by apply Forall_app].
  - intros [= <- <-]. split; [by exists n1|]. split; [|done].
    intros ? [= <-]. by apply He1.
  - intros [= <- <-]. split; [by exists n1|]. by split.
Qed.

Lemma runs_weaken {A} (ψ φ : A → Prop) (m : M A) :
  (∀ a, ψ a → φ a) → runs_ ψ m → runs_ φ m.
Proof.
  intros Himp Hm s r s' Em. destruct (Hm _ _ _ Em) as (Hn & He & Ha).
  split; [done|]. split; [done|]. intros a Hr. by apply Himp, Ha.
Qed.

Lemma runs_emit ev : P ev → runs_ any_ (emit ev).
Proof.
  intros Hev s r s' [= <- <-]. split; [exists [ev]; by split; [|constructor]|].
  by split.
Qed.

Lemma runs_call f : (∀ w e, (f w).1 = Some e → E e) → runs_ any_ (call f).
Proof.
  intros Hf s r s'. unfold call. specialize (Hf s.1).
  destruct (f s.1) as [[e|] w]; intros [= <- <-];
    (split; [exists []; by rewrite app_nil_r|]); split; try done.
  intros ? [= <-]. by apply Hf.
Qed.

Lemma runs_call_val {A} (f : W → (exn + A) * W) :
  (∀ w e, (f w).1 = inl e → E e) → runs_ any_ (call_val f).
Proof.
  intros Hf s r s'. unfold call_val. specialize (Hf s.1).
  destruct (f s.1) as [[e|a] w]; intros [= <- <-];
    (split; [exists []; by rewrite app_nil_r|]); split; try done.
  intros ? [= <-]. by apply Hf.
Qed.

Lemma runs_read {A} (f : W → A * W) : runs_ any_ (read f).
Proof.
  intros s r s'. unfold read. destruct (f s.1) as [a w]. intros [= <- <-].
  split; [exists []; by rewrite app_nil_r|]. by split.
Qed.

Lemma runs_effect f : runs_ any_ (effect f).
Proof.
  intros s r s' [= <- <-]. split; [exists []; by rewrite app_nil_r|]. by split.
Qed.

(** [try: m except Exception: pass] lets no exception out. *)
Lemma runs_catch {A} (E' : exn → Prop) (m : M A) :
  runs (W:=W) P E' any_ m → runs_ any_ (catch m).
Proof.
  intros Hm s r s'. unfold catch.
  destruct (m s) as [[a|e|] s1] eqn:Em; destruct (Hm _ _ _ Em) as (Hn & _ & _);
    intros [= <- <-]; by repeat split.
Qed.

End fetch_runs.

Section fetch_stages.
Import bt_metadata fetch_spec.
Context {W : Type} `{!Env W} `{!Lib}.
Context (P : io_event → Prop) (E : exn → Prop).
Hypothesis HP : ∀ ev, ev ≠ EvClose → P ev.
Hypothesis HE : env_raises E.
Hypothesis HX : E Exception.
#[local] Set Default Proof Using "All".

Abbreviation stage φ m := (runs (W:=W) P E φ m).
Abbreviation whatever := (λ _, True).

Lemma stage_meta what : stage whatever (meta what).
Proof. apply runs_emit, HP. done. Qed.

Lemma stage_send data : stage whatever (send data).
Proof.
  unfold send. apply (runs_bind _ _ whatever); [by apply runs_emit, HP|].
  intros _ _. apply runs_call. apply HE.
Qed.

Lemma stage_settimeout t : stage whatever (call (sock_settimeout t)).
Proof. apply runs_call, HE. Qed.

Lemma stage_recv n : stage whatever (call_val (sock_recv n)).
Proof. apply runs_call_val, HE. Qed.

Create HintDb stage.
#[local] Hint Resolve stage_meta stage_send stage_settimeout stage_recv : stage.
#[local] Hint Extern 1 (runs _ _ _ (read _)) => apply runs_read : stage.
#[local] Hint Extern 1 (runs _ _ _ (effect _)) => apply runs_effect : stage.
#[local] Hint Extern 1 (runs _ _ _ (raise Exception)) => apply runs_raise, HX : stage.
#[local] Hint Extern 1 (runs _ _ _ out_of_fuel) => apply runs_out_of_fuel : stage.
#[local] Hint Extern 1 (runs _ _ _ (ret _)) => apply runs_ret; done : stage.

Ltac stage_seq := eapply runs_bind; [solve [eauto with stage]|].

Lemma stage_recv_exact_loop fuel n timeout start buf :
  stage whatever (recv_exact_loop fuel n timeout start buf).
Proof.
  revert buf. induction fuel as [|fuel IH]; intros buf; simpl;
    (destruct (_ <? _)%nat; [|by apply runs_ret]); [apply runs_out_of_fuel|].
  stage_seq. intros now _.
  destruct (Qle_bool _ _); [|by apply runs_ret].
  stage_seq. intros [|c r] _; [by apply runs_ret|apply IH].
Qed.

Lemma stage_recv_exact n timeout : stage whatever (recv_exact n timeout).
Proof.
  unfold recv_exact. stage_seq. intros _ _. stage_seq.
  intros; apply stage_recv_exact_loop.
Qed.

Lemma stage_recvall_loop fuel timeout begin total :
  stage whatever (recvall_loop fuel timeout begin total).
Proof.
  revert begin total. induction fuel as [|fuel IH]; intros begin total; simpl;
    [apply runs_out_of_fuel|].
  stage_seq. intros _ _. stage_seq. intros now _.
  destruct (_ && _); [by apply runs_ret|].
  destruct (negb _); [by apply runs_ret|].
  eapply runs_bind.
  { apply (runs_catch P E whatever). by apply runs_call_val. }
  intros [[|c r]|] _; apply IH.
Qed.

Lemma stage_recvall fuel timeout : stage whatever (recvall fuel timeout).
Proof.
  unfold recvall. eapply runs_bind; [apply runs_call, HE|]. intros _ _.
  stage_seq. intros; apply stage_recvall_loop.
Qed.

Lemma stage_request_metadata ut piece : stage whatever (request_metadata ut piece).
Proof.
  unfold request_metadata, send_message_lenpref.
  destruct (byte_of_Z ut); [apply stage_send|by apply runs_raise].
Qed.

#[local] Hint Resolve stage_recv_exact stage_recvall stage_request_metadata : stage.

Lemma stage_piece_loop fuel timeout ut count piece parts :
  stage whatever (piece_loop fuel timeout ut count piece parts).
Proof.
  revert piece parts. induction count as [|count IH]; intros piece parts; simpl;
    [by apply runs_ret|].
  stage_seq. intros _ _. stage_seq. intros [|c blob] _; [apply IH|].
  destruct (bytes_find _ _ _); [apply IH|].
  destruct (split_ut_metadata_message _) as [[[header payload]|]|];
    [|apply IH|apply runs_out_of_fuel].
  destruct (differs_from_int _ _); [apply IH|].
  destruct (differs_from_int _ _); apply IH.
Qed.

Lemma stage_open_and_handshake a infohash timeout :
  stage handshake_stop (open_and_handshake a infohash timeout).
Proof.
  unfold open_and_handshake, send_handshake, send_ext_handshake, send_message_lenpref.
  stage_seq. intros _ _. stage_seq. intros _ _.
  eapply runs_bind; [apply runs_call, HE|]. intros _ _.
  eapply runs_bind.
  { eapply runs_bind; [apply runs_read|]. intros; apply stage_send. }
  intros _ _. stage_seq. intros packet _.
  destruct (negb _).
  { stage_seq. intros _ _. apply runs_ret. intros st [= <-]. by left. }
  stage_seq. intros _ _. stage_seq. intros lp _.
  destruct (bool_decide _).
  { stage_seq. intros _ _. apply runs_ret. intros st [= <-]. by right. }
  destruct (_ || _).
  { stage_seq. intros _ _. apply runs_ret. intros st [= <-]. by right. }
  stage_seq. intros body _.
  destruct (bool_decide _).
  { stage_seq. intros _ _. apply runs_ret. intros st [= <-]. by right. }
  apply runs_ret. by intros st.
Qed.

Lemma stage_negotiate packet : stage negotiate_stop (negotiate packet).
Proof.
  unfold negotiate. destruct (parse_ext_handshake packet) as [[ut size]|].
  - destruct (piece_count size) as [pieces|]; [|by apply runs_raise].
    destruct (_ || _); [|apply runs_ret; by intros st].
    stage_seq. intros _ _. apply runs_ret. intros st [= <-]. by right.
  - stage_seq. intros _ _. apply runs_ret. intros st [= <-]. by left.
Qed.

Lemma stage_verify_and_store a infohash parts :
  stage (λ st, st = st_ok ∨ st = st_no_pieces ∨ st = st_sha1_mismatch)
    (verify_and_store a infohash parts).
Proof.
  unfold verify_and_store. destruct parts as [|p parts].
  { stage_seq. intros _ _. apply runs_ret. auto. }
  destruct (bool_decide _).
  { stage_seq. intros _ _. apply runs_ret. auto. }
  destruct (bdecode _); [|by apply runs_raise].
  eapply runs_bind; [by apply runs_emit, HP|]. intros _ _.
  eapply runs_bind; [apply runs_call, HE|]. intros _ _.
  stage_seq. intros _ _. apply runs_ret. auto.
Qed.

Lemma stage_download_body fuel a infohash timeout :
  stage plain_status (download_body fuel a infohash timeout).
Proof.
  unfold download_body.
  eapply runs_bind; [apply stage_open_and_handshake|].
  intros [st|packet] Hst.
  { apply runs_ret. destruct (Hst st eq_refl) as [-> | ->]; unfold plain_status; auto. }
  eapply runs_bind; [apply stage_negotiate|].
  intros [st|[ut pieces]] Hst'.
  { apply runs_ret. destruct (Hst' st eq_refl) as [-> | ->]; unfold plain_status; auto. }
  eapply runs_bind; [apply stage_piece_loop|]. intros parts _.
  eapply runs_weaken; [|apply stage_verify_and_store].
  intros st [-> | [-> | ->]]; unfold plain_status; auto 10.
Qed.

Lemma stage_handle e : stage (λ st, st = status_of_exn e) (handle e).
Proof. destruct e; simpl; stage_seq; intros _ _; by apply runs_ret. Qed.

End fetch_stages.

Section fetch_whole.
Import bt_metadata fetch_spec.
Context {W : Type} `{!Env W} `{!Lib}.


End fetch_whole.

Section fetch_calls_whole.
Import bt_metadata fetch_spec recorded.
Context {W : Type} (E0 : Env W) `{!Lib}.


(** X12. [storage_info_fn] is called at most once in a fetch, and not at
    all in a fetch that returns ["handshake_fail"], ["ext_fail"],
    ["bad_pieces"], ["no_pieces"] or ["sha1_mismatch"]. *)
Theorem download_stores_at_most_once (fuel : nat) (a : address) (infohash : bytes)
    (timeout : Q) (s : state (W:=W * list env_call)) :
  ∃ new,
    calls_made (download_metadata (Env0:=recording E0) fuel a infohash timeout s).2
    = calls_made s ++ new
    ∧ (length (stored new) ≤ 1)%nat
    ∧ ∀ st, (download_metadata (Env0:=recording E0) fuel a infohash timeout s).1 = Ret st →
        st = st_handshake_fail ∨ st = st_ext_fail ∨ st = st_bad_pieces
        ∨ st = st_no_pieces ∨ st = st_sha1_mismatch →
        stored new = [].
Proof.
  destruct (download_metadata (Env0:=recording E0) fuel a infohash timeout s)
    as [out s'] eqn:Hrun.
  destruct (download_metadata_calls E0 _ _ _ _ _ _ _ Hrun) as (body & Hc & Hbody).
  cbn [fst snd]. eexists. split; [exact Hc|].
  assert (stored (body ++ match (call sock_create s).1 with
                          | Done _ => [CallClose] | _ => [] end) = stored body) as ->.
  { unfold stored. rewrite omap_app.
    destruct (call sock_create s).1; cbn; by rewrite app_nil_r. }
  destruct Hbody as [(Hplain & _)|(pre & parts & md & -> & Hpre & _ & _ & _ & Hout)].
  - rewrite (stored_plain body) by done. split; [simpl; lia|done].
  - unfold stored. rewrite omap_app. fold (stored pre). rewrite (stored_plain pre) by done.
    split; [simpl; lia|]. intros st -> Hst.
    destruct Hout as [[= ->]|[e [= ->]]]; [by destruct Hst as [|[|[|[|]]]]|].
    destruct e; by destruct Hst as [|[|[|[|]]]].
Qed.

End fetch_calls_whole.

Section fetch_parts.
Import bt_metadata fetch_spec.
Context {W : Type} `{!Env W} `{!Lib}.

Lemma recv_exact_loop_bounded fuel n timeout start buf (s : state (W:=W)) r s' :
  recv_bounded (W:=W) → (length buf ≤ n)%nat →
  recv_exact_loop fuel n timeout start buf s = (Done r, s') →
  (length r ≤ n)%nat ∧ buf `prefix_of` r.
Proof.
  intros Hb. revert buf s. induction fuel as [|fuel IH]; intros buf s Hl; simpl.
  - destruct (_ <? _)%nat; [done|]. by intros [= <- <-].
  - destruct (length buf <? n)%nat eqn:E; [|by intros [= <- <-]].
    unfold bind at 1, read. destruct (time_now s.1) as [now w].
    destruct (Qle_bool _ _); [|by intros [= <- <-]].
    unfold bind, call_val. cbn [fst snd].
    pose proof (Hb (n - length buf)%nat w) as Hc.
    destruct (sock_recv _ w) as [[e|chunk] w']; [done|].
    specialize (Hc chunk eq_refl).
    destruct chunk as [|c chunk]; [by intros [= <- <-]|].
    intros Hr. apply IH in Hr as [Hr Hp]; [|rewrite length_app; simpl in *; lia].
    split; [done|]. etrans; [|done]. by apply prefix_app_r.
Qed.

(** X13. With a socket whose [recv(bufsize)] returns at most [bufsize]
    bytes, [recv_exact(sock, n, timeout)] returns at most [n] bytes; and
    it always returns or raises: its loop ends within [n] turns. *)
Theorem recv_exact_at_most (n : nat) (timeout : Q) (s : state (W:=W)) :
  recv_bounded (W:=W) →
  (recv_exact n timeout s).1 ≠ NoFuel
  ∧ ∀ buf, (recv_exact n timeout s).1 = Done buf → (length buf ≤ n)%nat.
Proof.
  intros Hb. split; [apply recv_exact_returns|].
  intros buf. unfold recv_exact, bind at 1, call.
  destruct (sock_settimeout timeout s.1) as [[e|] w]; [done|].
  unfold bind, read. cbn [fst snd]. destruct (time_now w) as [now w'].
  destruct (recv_exact_loop n n timeout now [] (w', s.2)) as [r s'] eqn:El.
  cbn [fst]. intros ->. apply recv_exact_loop_bounded in El as [El _]; [done..|].
  simpl. lia.
Qed.

Lemma piece_count_bounds size pieces :
  0 < size → piece_count size = Some pieces →
  16384 * (pieces - 1) < size ≤ 16384 * pieces.
Proof.
  intros Hs. unfold piece_count. destruct (_ <=? size); [done|]. intros [= <-].
  pose proof (Z.div_mod (size + 16383) 16384 ltac:(lia)).
  pose proof (Z.mod_pos_bound (size + 16383) 16384 ltac:(lia)). lia.
Qed.

(** X14. When the negotiation goes on to request pieces, the advertised
    size is between 1 byte and 64 MiB, and the piece count is between 1
    and 4096 and is the number of 16 KiB pieces that cover the size. *)
Theorem negotiate_piece_bounds (packet : bytes) (s s' : state (W:=W)) (ut pieces : Z) :
  negotiate packet s = (Done (inr (ut, pieces)), s') →
  ∃ size, parse_ext_handshake packet = Some (ut, size)
    ∧ 0 < size ≤ 67108864
    ∧ 1 ≤ pieces ≤ 4096
    ∧ 16384 * (pieces - 1) < size ≤ 16384 * pieces.
Proof.
  unfold negotiate.
  destruct (parse_ext_handshake packet) as [[ut' size]|] eqn:Ep; [|done].
  destruct (piece_count size) as [p|] eqn:Ec; [|done].
  destruct (_ || _) eqn:Eb; [done|]. intros [= <- <- <-].
  apply orb_false_elim in Eb as [E1%Z.leb_gt E2%Z.ltb_ge].
  apply parse_ext_handshake_Some in Ep as (d & m & _ & _ & _ & _ & Hpos).
  pose proof (piece_count_bounds size p Hpos Ec).
  exists size. repeat split; try done; lia.
Qed.

Lemma make_info_files_fold meta_data items acc :
  foldl (λ acc item,
           match item with
           | BDict it =>
               let ln := default (BInt 0) (it !! B "length") in
               let total := match ln with BInt z => acc.1 + z | _ => acc.1 end in
               let raw_path := pick_torrent_field item (B "path.utf-8") (B "path") in
               (total, acc.2 ++ [(ln, decode_torrent_path_list raw_path meta_data)])
           | _ => acc
           end) acc items
  = (acc.1 + foldr Z.add 0 (map file_length items),
     acc.2 ++ omap (λ item,
                      match item with
                      | BDict it =>
                          Some (default (BInt 0) (it !! B "length"),
                                decode_torrent_path_list
                                  (pick_torrent_field item (B "path.utf-8") (B "path"))
                                  meta_data)
                      | _ => None
                      end) items).
Proof.
  revert acc. induction items as [|item items IH]; intros [t f]; simpl.
  - by rewrite Z.add_0_r, app_nil_r.
  - rewrite IH. destruct item as [| | |it]; simpl; try done.
    rewrite <-app_assoc. simpl.
    destruct (default (BInt 0) (it !! B "length")); simpl; f_equal; lia.
Qed.

Lemma omap_length_filter {A C} (f : A → option C) (p : A → bool) (l : list A) :
  (∀ x, p x = match f x with Some _ => true | None => false end) →
  length (omap f l) = length (filter p l).
Proof.
  intros Hp. induction l as [|x l IH]; [done|]. csimpl.
  rewrite filter_cons, Hp. destruct (f x); simpl; by rewrite IH.
Qed.

(** X15. The record handed to the storage callback for a multi-file
    torrent: [hash_id] is the uppercase hex infohash, [hash_size] is the
    decimal text of the sum of the int [length]s of the items of [files]
    that are dicts, [files] has one entry for each such item, and [a_ip]
    is the peer's ip. *)
Theorem make_info_multi_file (infohash : bytes) (d : gmap bytes bvalue)
    (items : list bvalue) (a : address) :
  d !! B "files" = Some (BList items) →
  hash_id (make_info infohash (BDict d) a) = upper (hex infohash)
  ∧ hash_size (make_info infohash (BDict d) a)
    = string_of_list_byte (str_Z (foldr Z.add 0 (map file_length items)))
  ∧ length (files (make_info infohash (BDict d) a)) = length (filter is_dict items)
  ∧ a_ip (make_info infohash (BDict d) a) = a.1.
Proof.
  intros Hf. unfold make_info. rewrite Hf, make_info_files_fold.
  cbn [fst snd app hash_id hash_size files a_ip]. rewrite Z.add_0_l.
  split; [done|]. split; [done|]. split; [|done].
  apply omap_length_filter. by intros [].
Qed.

End fetch_parts.

(** ** Instances of the properties above *)

Lemma torrent_to_magnet_infohash_witness :
  magnet_link.torrent_to_magnet SHA1.digest samples.ascii_text samples.plain_quote
    (magnet._bencode (BDict samples.torrent1))
  = Ret (inr ("magnet:?xt=urn:btih:df5552c89b442ecd04f0e095d3a704dfb70365e4"
              ++ "&dn=abcde.txt")%string).
Proof.
  rewrite (torrent_to_magnet_infohash SHA1.digest samples.ascii_text samples.plain_quote
             samples.torrent1 samples.info1 eq_refl).
  vm_compute. reflexivity.
Defined.

Lemma parse_ext_handshake_accepts_witness :
  bt_metadata.parse_ext_handshake (H:=script.ref_lib)
    (to_be 4 (Z.of_nat (length (magnet._bencode (BDict samples.ext_dict1))) + 2)
     ++ [bt_metadata.BT_MSG_ID; bt_metadata.EXT_HANDSHAKE_ID]
     ++ magnet._bencode (BDict samples.ext_dict1) ++ B "trailing")
  = Some (3, 40000).
Proof.
  apply (parse_ext_handshake_accepts (H:=script.ref_lib) _ _ samples.ext_dict1 samples.ext_m1).
  - by vm_compute.
  - by vm_compute.
  - vm_compute. reflexivity.
  - reflexivity.
  - reflexivity.
  - reflexivity.
  - done.
Defined.

Lemma split_ut_metadata_message_frames_witness :
  bt_metadata.split_ut_metadata_message (H:=script.ref_lib)
    (magnet._bencode (BDict samples.header1) ++ script.metadata1)
  = Ret (Some (samples.header1, script.metadata1)).
Proof.
  apply (split_ut_metadata_message_frames (H:=script.ref_lib)).
  vm_compute. reflexivity.
Defined.


Lemma script_recv_bounded : fetch_spec.recv_bounded (W:=script.world) (Env0:=script.script_env).
Proof.
  intros n w chunk. simpl. unfold script.script_recv.
  destruct (script.inbox w) as [|seg rest]; [done|]. simpl. intros [= <-].
  rewrite length_take. lia.
Qed.

Lemma recv_exact_at_most_witness :
  (bt_metadata.recv_exact (Env0:=script.script_env) 4 6 (script.start [B "abcdefgh"])).1
  = bt_metadata.Done (B "abcd")
  ∧ (length (B "abcd") ≤ 4)%nat.
Proof.
  assert ((bt_metadata.recv_exact (Env0:=script.script_env) 4 6
             (script.start [B "abcdefgh"])).1 = bt_metadata.Done (B "abcd")) as Hrun
    by (vm_compute; reflexivity).
  split; [exact Hrun|].
  exact (proj2 (recv_exact_at_most (Env0:=script.script_env) 4 6
                  (script.start [B "abcdefgh"]) script_recv_bounded) _ Hrun).
Defined.

Lemma negotiate_piece_bounds_witness :
  ∃ size, bt_metadata.parse_ext_handshake (H:=script.ref_lib)
            (script.peer_ext_handshake 1 40000) = Some (1, size)
    ∧ 0 < size ≤ 67108864 ∧ 1 ≤ 3 ≤ 4096 ∧ 16384 * (3 - 1) < size ≤ 16384 * 3.
Proof.
  apply (negotiate_piece_bounds (W:=script.world) (H:=script.ref_lib)
           _ (script.start []) (script.start [])).
  vm_compute. reflexivity.
Defined.

Lemma make_info_multi_file_witness :
  bt_metadata.hash_size
    (bt_metadata.make_info (H:=script.ref_lib) ih0 (BDict samples.multi1) addr0)
  = "16"%string
  ∧ length (bt_metadata.files
              (bt_metadata.make_info (H:=script.ref_lib) ih0 (BDict samples.multi1) addr0))
    = 2%nat.
Proof.
  destruct (make_info_multi_file (H:=script.ref_lib) ih0 samples.multi1 samples.files1 addr0
              eq_refl) as (_ & Hs & Hf & _).
  split; [exact Hs|exact Hf].
Defined.


(** ** master.py: the metadata peer store *)

Section metadata_store.
Import master master.MetadataPeerStore store_spec.

Section sort_desc.
Context {A : Type} (ts : A → Q).

Lemma insert_desc_perm x l : insert_desc ts x l ≡ₚ x :: l.
Proof.
  induction l as [|y l IH]; simpl; [done|].
  destruct (Qle_bool _ _); [done|]. by rewrite IH, Permutation_swap.
Qed.

Lemma sort_desc_perm l : sort_desc ts l ≡ₚ l.
Proof.
  induction l as [|x l IH]; simpl; [done|]. by rewrite insert_desc_perm, IH.
Qed.

Lemma insert_desc_sorted x l :
  StronglySorted (newest_first ts) l → StronglySorted (newest_first ts) (insert_desc ts x l).
Proof.
  induction 1 as [|y l Hl IH Hy]; simpl.
  - repeat constructor.
  - destruct (Qle_bool (ts y) (ts x)) eqn:E.
    + apply Qle_bool_iff in E. constructor; [by constructor|].
      constructor; [done|]. eapply Forall_impl; [exact Hy|].
      intros z Hz. unfold newest_first in *. by eapply Qle_trans.
    + assert (ts x < ts y)%Q as Hlt.
      { apply Qnot_le_lt. intros Hle. apply Qle_bool_iff in Hle. congruence. }
      constructor; [done|]. rewrite insert_desc_perm.
      constructor; [|done]. unfold newest_first. by apply Qlt_le_weak.
Qed.

Lemma sort_desc_sorted l : StronglySorted (newest_first ts) (sort_desc ts l).
Proof.
  induction l as [|x l IH]; simpl; [constructor|]. by apply insert_desc_sorted.
Qed.

(** An entry more recent than all others is sorted to the front. *)
Lemma sort_desc_newest l1 x l2 :
  Forall (λ y, ts y < ts x)%Q (l1 ++ l2) →
  sort_desc ts (l1 ++ x :: l2) = x :: sort_desc ts (l1 ++ l2).
Proof.
  induction l1 as [|z l1 IH]; simpl.
  - intros Hl. destruct (sort_desc ts l2) as [|y s] eqn:Es; [done|]. simpl.
    assert (y ∈ l2) as Hy by (rewrite <-(sort_desc_perm l2), Es; left).
    eapply Forall_forall in Hl; [|done].
    by rewrite (Qle_bool_true _ _ (Qlt_le_weak _ _ Hl)).
  - intros [Hz Hl]%Forall_cons_1. rewrite IH by done. simpl.
    by rewrite (Qle_bool_false _ _ Hz).
Qed.

End sort_desc.

Lemma update_peer_Some ip port now l l' :
  update_peer ip port now l = Some l' →
  ∃ l1 ts l2, l = l1 ++ (ip, port, ts) :: l2 ∧ l' = l1 ++ (ip, port, now) :: l2.
Proof.
  revert l'. induction l as [|[[p_ip p_port] ts] l IH]; intros l'; simpl; [done|].
  case_bool_decide as Hk.
  - injection Hk as -> ->. intros [= <-]. by exists [], ts, l.
  - destruct (update_peer ip port now l) as [r|]; [|done]. intros [= <-].
    destruct (IH r eq_refl) as (l1 & ts' & l2 & -> & ->).
    by exists ((p_ip, p_port, ts) :: l1), ts', l2.
Qed.

Lemma update_peer_None ip port now l :
  update_peer ip port now l = None → (ip, port) ∉ map peer_key l.
Proof.
  induction l as [|[[p_ip p_port] ts] l IH]; simpl; [intros _; apply not_elem_of_nil|].
  case_bool_decide as Hk; [done|].
  destruct (update_peer ip port now l); [done|]. intros _.
  apply not_elem_of_cons. split; [|by apply IH]. intros Heq. apply Hk.
  by rewrite Heq.
Qed.

(** The list that [mark_ok] sorts: the stored peers with the marked one
    set to [now], in place or at the end. *)
Lemma mark_ok_eq now ip port s :
  valid_port port →
  ∃ peers,
    mark_ok now (ip, port) s
    = mk (ttl_seconds s) (max_peers s)
        (if (max_peers s <? length (sort_desc snd peers))%nat
         then take (max_peers s) (sort_desc snd peers) else sort_desc snd peers)
    ∧ ((∃ l1 ts l2, _peers s = l1 ++ (ip, port, ts) :: l2
                    ∧ peers = l1 ++ (ip, port, now) :: l2)
       ∨ (((ip, port) ∉ map peer_key (_peers s))
          ∧ peers = _peers s ++ [(ip, port, now)])).
Proof.
  intros [H1 H2]. unfold mark_ok.
  replace ((port <? 1) || (65535 <? port)) with false
    by (symmetry; apply orb_false_intro; [apply Z.ltb_ge|apply Z.ltb_ge]; lia).
  destruct (update_peer ip port now (_peers s)) as [l|] eqn:Eu.
  - exists l. split; [done|]. left. by apply update_peer_Some.
  - exists (_peers s ++ [(ip, port, now)]). split; [done|]. right.
    split; [by eapply update_peer_None|done].
Qed.

(** X16. [mark_ok] keeps the metadata peer store well-formed: one entry
    per address, most recent [last_ok] first, at most [max_peers]
    entries, every port in [1..65535]. *)
Theorem metadata_mark_ok_keeps (now : Q) (a : address) (s : MetadataPeerStore.t) :
  metadata_store_ok s → metadata_store_ok (mark_ok now a s).
Proof.
  intros (Hnd & Hs & Hl & Hp). destruct a as [ip port].
  destruct (decide (valid_port port)) as [Hv|Hv].
  2:{ unfold mark_ok. destruct (_ || _) eqn:E; [done|].
      apply orb_false_elim in E as [?%Z.ltb_ge ?%Z.ltb_ge]. destruct Hv. split; lia. }
  destruct (mark_ok_eq now ip port s Hv) as (peers & -> & Hpeers).
  assert (NoDup (map peer_key peers) ∧ Forall (λ p, valid_port p.1.2) peers
          ∧ (length peers ≤ S (length (_peers s)))%nat) as (Hnd' & Hp' & Hl').
  { destruct Hpeers as [(l1 & ts & l2 & El & ->)|[Hnew ->]].
    - rewrite El in *. rewrite !map_app in *. simpl in *.
      split; [done|]. rewrite !Forall_app, !Forall_cons in *.
      split; [naive_solver|]. rewrite !length_app. simpl. lia.
    - rewrite map_app, Forall_app, length_app. simpl. split.
      + apply NoDup_app. split; [done|]. split; [|apply NoDup_singleton].
        intros x Hx ->%list_elem_of_singleton. done.
      + split; [|lia]. split; [done|]. by apply Forall_singleton. }
  pose proof (sort_desc_perm snd peers) as Hperm.
  pose proof (sort_desc_sorted snd peers) as Hsorted.
  set (sorted := sort_desc snd peers) in *.
  assert (NoDup (map peer_key sorted)) as Hnds by (by rewrite Hperm).
  assert (Forall (λ p, valid_port p.1.2) sorted) as Hps by (by rewrite Hperm).
  unfold metadata_store_ok. cbn [_peers max_peers].
  destruct (_ <? _)%nat eqn:E.
  - split; [|split; [|split]].
    + rewrite map_fmap in Hnds |- *. rewrite fmap_take.
      exact (sublist_NoDup _ _ Hnds (sublist_take _ _)).
    + rewrite <-(take_drop (max_peers s) sorted) in Hsorted.
      by apply StronglySorted_app_1_l in Hsorted.
    + rewrite length_take. lia.
    + by apply Forall_take.
  - apply Nat.ltb_ge in E. done.
Qed.

(** X17. When the clock has moved past every stored [last_ok], the peer
    that [mark_ok] marks (with a valid port, in a store that may hold at
    least one peer) is the first entry afterwards, with [last_ok = now]. *)
Theorem metadata_mark_ok_first (now : Q) (a : address) (s : MetadataPeerStore.t) :
  valid_port a.2 → (0 < max_peers s)%nat →
  Forall (λ p : string * Z * Q, p.2 < now)%Q (_peers s) →
  head (_peers (mark_ok now a s)) = Some (a.1, a.2, now).
Proof.
  destruct a as [ip port]. intros Hv Hmax Hold.
  destruct (mark_ok_eq now ip port s Hv) as (peers & -> & Hpeers). cbn [_peers fst snd].
  assert (∃ l1 l2, peers = l1 ++ (ip, port, now) :: l2
                   ∧ Forall (λ p : string * Z * Q, p.2 < now)%Q (l1 ++ l2))
    as (l1 & l2 & -> & Hrest).
  { destruct Hpeers as [(l1 & ts & l2 & El & ->)|[_ ->]].
    - exists l1, l2. split; [done|]. rewrite El in Hold.
      rewrite Forall_app, Forall_cons in Hold. rewrite Forall_app.
      destruct Hold as (? & _ & ?). by split.
    - exists (_peers s), []. by rewrite app_nil_r. }
  rewrite (sort_desc_newest snd) by done.
  destruct (_ <? _)%nat; [|done]. by destruct (max_peers s); [lia|].
Qed.

Lemma NoDup_fmap_inj_on {A C} (f : A → C) (l : list A) x y :
  NoDup (f <$> l) → x ∈ l → y ∈ l → f x = f y → x = y.
Proof.
  induction l as [|z l IH]; [by intros _ ?%elem_of_nil|].
  rewrite fmap_cons. intros [Hz Hl]%NoDup_cons.
  intros [->|Hx]%elem_of_cons [->|Hy]%elem_of_cons Hf; [done| | |by apply IH].
  - destruct Hz. rewrite Hf. by apply list_elem_of_fmap_2.
  - destruct Hz. rewrite <-Hf. by apply list_elem_of_fmap_2.
Qed.

Lemma omap_lookup_valid {A} (pool : list A) (draw : list nat) :
  Forall (λ i, (i < length pool)%nat) draw →
  length (omap (λ i, pool !! i) draw) = length draw
  ∧ (NoDup pool → NoDup draw → NoDup (omap (λ i, pool !! i) draw)).
Proof.
  induction 1 as [|i draw Hi Hd [IHl IHn]]; [split; [done|constructor]|].
  destruct (lookup_lt_is_Some_2 pool i Hi) as [x Hx]. csimpl. rewrite Hx. simpl.
  split; [by rewrite IHl|]. intros Hp [Hni Hnd]%NoDup_cons. constructor; [|by apply IHn].
  rewrite list_elem_of_omap. intros (j & Hj & Hxj). apply Hni.
  by rewrite (NoDup_lookup pool i j x Hp Hx Hxj).
Qed.

Lemma random_sample_valid {A} (pool : list A) (n : Z) (draw : list nat) :
  0 ≤ n → valid_draw (length pool) (Z.to_nat n) draw →
  ∃ r, random_sample pool n draw = Some r
    ∧ length r = Z.to_nat n ∧ (NoDup pool → NoDup r) ∧ (∀ x, x ∈ r → x ∈ pool).
Proof.
  intros Hn (Hl & Hnd & Hr). unfold random_sample.
  replace (n <? 0) with false by (symmetry; apply Z.ltb_ge; lia).
  eexists. split; [done|]. destruct (omap_lookup_valid pool draw Hr) as [Hlen Hdup].
  split; [by rewrite Hlen|]. split; [auto|].
  intros x (i & _ & Hi)%list_elem_of_omap. by eapply list_elem_of_lookup_2.
Qed.

(** X18. [sample(k)] for [k >= 0] returns exactly [min(k, len(peers))]
    addresses, each of a stored peer, and pairwise distinct when the store
    holds one entry per address. *)
Theorem metadata_sample_exact (k : Z) (draw : list nat) (s : MetadataPeerStore.t) :
  0 ≤ k →
  valid_draw (length (_peers s)) (Z.to_nat (Z.min k (Z.of_nat (length (_peers s))))) draw →
  ∃ r, sample k draw s = Some r
    ∧ length r = Z.to_nat (Z.min k (Z.of_nat (length (_peers s))))
    ∧ (∀ x, x ∈ r → x ∈ map peer_key (_peers s))
    ∧ (NoDup (map peer_key (_peers s)) → NoDup r).
Proof.
  intros Hk Hd. unfold sample.
  destruct (_peers s) as [|p ps] eqn:Ep.
  { exists []. split; [done|]. split; [simpl; lia|].
    split; [by intros x ?%elem_of_nil|constructor]. }
  remember (p :: ps) as pool eqn:E0 in *. clear E0 Ep.
  set (n := Z.min k (Z.of_nat (length pool))) in *.
  destruct (n <? Z.of_nat (length pool)) eqn:E.
  - destruct (random_sample_valid pool n draw ltac:(lia) Hd) as (r & -> & Hl & Hnd & Hin).
    exists (map peer_key r). rewrite length_map.
    split; [done|]. split; [done|]. split.
    + intros x. rewrite !map_fmap, !list_elem_of_fmap. intros (y & -> & Hy). eauto.
    + intros Hkeys. rewrite map_fmap in Hkeys |- *.
      apply NoDup_fmap_2_strong; [|apply Hnd; by eapply NoDup_fmap_1].
      intros x y Hx%Hin Hy%Hin Hxy. by eapply NoDup_fmap_inj_on.
  - apply Z.ltb_ge in E. exists (map peer_key pool). rewrite length_map.
    split; [done|]. split; [lia|]. split; [done|done].
Qed.

End metadata_store.

(** ** master.py: below the failure threshold *)

Section master_more.
Import master calls dispatch store_spec.

(** One more failure for [a]: the count grows by one at most, and [a] is
    marked bad only when the count reaches the threshold. *)
Lemma _record_failure_same now now_mark a m n :
  bad m !! a = None →
  match fail_counts m !! a with Some (c, _) => c ≤ n | None => True end →
  0 ≤ n → n + 1 < fail_threshold m →
  bad (_record_failure now now_mark a m) !! a = None
  ∧ (∃ c u, fail_counts (_record_failure now now_mark a m) !! a = Some (c, u) ∧ c ≤ n + 1)
  ∧ fail_threshold (_record_failure now now_mark a m) = fail_threshold m.
Proof.
  intros Hb Hc Hn Ht. unfold _record_failure.
  assert (∀ c' u', c' ≤ n + 1 →
            let m1 := set_fail_counts (<[a:=(c', u')]> (fail_counts m)) m in
            let m2 := if fail_threshold m1 <=? c' then _mark_bad now_mark a m1 else m1 in
            bad m2 !! a = None
            ∧ (∃ c u, fail_counts m2 !! a = Some (c, u) ∧ c ≤ n + 1)
            ∧ fail_threshold m2 = fail_threshold m) as Hstep.
  { intros c' u' Hc' m1 m2. subst m1 m2. cbn [fail_threshold set_fail_counts].
    replace (fail_threshold m <=? c') with false by (symmetry; apply Z.leb_gt; lia).
    cbn [bad fail_counts fail_threshold set_fail_counts]. rewrite lookup_insert_eq.
    split; [done|]. split; [|done]. by exists c', u'. }
  destruct (fail_counts m !! a) as [[c u]|]; simpl;
    match goal with |- context [Qle_bool ?x now] => destruct (Qle_bool x now) end;
    apply Hstep; lia.
Qed.

(** [_enqueue_once] marks no address bad. *)
Lemma _enqueue_once_marks_none now ih address m a :
  bad m !! a = None → bad (_enqueue_once now ih address m).2 !! a = None.
Proof.
  intros Hb. destruct (decide (address = Some a)) as [->|Hne].
  - unfold _enqueue_once, _is_bad. rewrite Hb. case_bool_decide; [done|].
    case_bool_decide; done.
  - destruct (_enqueue_once_frame now ih address m a) as (Hf & _). by rewrite Hf.
Qed.

Lemma run_master_below log : ∀ m a (n : Z),
  bad m !! a = None →
  match fail_counts m !! a with Some (c, _) => c ≤ n | None => True end →
  0 ≤ n → n + Z.of_nat (failures_of a log) < fail_threshold m →
  bad (run_master log m) !! a = None.
Proof.
  induction log as [|e log IH]; intros m a n Hb Hc Hn Ht; [done|].
  unfold run_master. cbn [foldl]. fold (run_master log (master_step m e)).
  unfold failures_of in Ht. cbn [List.filter] in Ht.
  destruct (counted_failure a e) eqn:Ec.
  - destruct e as [r t t' a'|?]; [|done]. cbn [counted_failure] in Ec.
    apply bool_decide_eq_true in Ec as [-> Hq]. cbn [master_step length] in *.
    rewrite Nat2Z.inj_succ in Ht. fold (failures_of a log) in Ht.
    rewrite _worker_qualifying by done.
    edestruct (_record_failure_same t t' a
                 (set_counts (ok_count m) (fail_count m + 1) (peer_store m) m) n)
      as (Hb' & (c & u & Hc' & Hle) & Ht'); [done|done|done|simpl; lia|].
    apply (IH _ a (n + 1)); [done|by rewrite Hc'|lia|rewrite Ht'; simpl; lia].
  - fold (failures_of a log) in Ht.
    destruct (master_step_frame m e a Ec) as (Hframe & Hf & Hs).
    injection Hs as Hth _ _.
    apply (IH _ a n); [|by rewrite Hf|done|by rewrite Hth].
    destruct e as [r t t' a'|c]; [by rewrite Hframe|].
    cbn [master_step]. unfold do_call. by apply _enqueue_once_marks_none.
Qed.

(** X19. In any interleaving of the master's threads: an address with
    no bad entry and no failure counter, for which fewer than
    [fail_threshold] results in {timeout, os_error} are recorded, is
    never marked bad, whatever else is recorded and enqueued. *)
Theorem no_quarantine_below_threshold (log : list master_event)
    (m : Master) (a : address) :
  bad m !! a = None → fail_counts m !! a = None →
  Z.of_nat (failures_of a log) < fail_threshold m →
  bad (run_master log m) !! a = None.
Proof.
  intros Hb Hc Ht. apply (run_master_below log m a 0); [done|by rewrite Hc|done|lia].
Qed.

End master_more.

Section log_infohash_more.
Import master master.MetadataPeerStore store_spec.

(** A call of [_enqueue_once] appends its job or nothing, and only for a
    20-byte infohash; it leaves the peer store and [hint_k] alone. *)
Lemma _enqueue_once_queue now ih address m :
  let r := _enqueue_once now ih address m in
  peer_store r.2 = peer_store m ∧ hint_k r.2 = hint_k m
  ∧ (if r.1
     then ∃ a, address = Some a ∧ length ih = 20%nat ∧ queue r.2 = queue m ++ [(a, ih)]
     else queue r.2 = queue m).
Proof.
  unfold _enqueue_once. destruct address as [a|]; [|done].
  case_bool_decide as Hlen; [done|].
  assert (peer_store (_is_bad now a m).2 = peer_store m
          ∧ hint_k (_is_bad now a m).2 = hint_k m
          ∧ queue (_is_bad now a m).2 = queue m) as Hk.
  { unfold _is_bad. destruct (bad m !! a) as [u|]; [|done].
    destruct (Qeq_bool u 0); [done|]. by destruct (Qle_bool u now). }
  destruct (_is_bad now a m) as [b m1]. cbn [snd] in Hk. destruct Hk as (Hp & Hh & Hq).
  destruct b; [done|]. case_bool_decide; [done|].
  cbn [fst snd peer_store hint_k queue set_seen_queue]. split; [done|]. split; [done|].
  exists a. split; [done|]. split; [|by rewrite Hq].
  destruct (decide (length ih = 20%nat)); [done|by destruct Hlen].
Qed.

(** The hint loop of [log_infohash]: it appends jobs for hinted peers
    other than the sender, at most one per hint. *)
Lemma hint_loop_queue (clock : nat → Q) ih (a : address) (hints : list (nat * address)) :
  ∀ m, ∃ new,
    queue (foldl (λ m ip, if bool_decide (ip.2 = a) then m
                          else (_enqueue_once (clock (S ip.1)) ih (Some ip.2) m).2)
             m hints) = queue m ++ new
    ∧ peer_store (foldl (λ m ip, if bool_decide (ip.2 = a) then m
                          else (_enqueue_once (clock (S ip.1)) ih (Some ip.2) m).2)
             m hints) = peer_store m
    ∧ (length new ≤ length hints)%nat
    ∧ Forall (λ j : address * bytes, j.1 ≠ a ∧ j.1 ∈ hints.*2 ∧ j.2 = ih) new.
Proof.
  induction hints as [|[i p] hints IH]; intros m.
  { exists []. by rewrite app_nil_r. }
  cbn [foldl fst snd]. case_bool_decide as Hp.
  - destruct (IH m) as (new & Hq & Hs & Hl & Hf). exists new.
    split; [done|]. split; [done|]. split; [simpl; lia|].
    eapply Forall_impl; [exact Hf|]. intros j (? & ? & ?). split; [done|].
    split; [|done]. rewrite fmap_cons. by right.
  - pose proof (_enqueue_once_queue (clock (S i)) ih (Some p) m) as (Hs1 & _ & Hq1).
    cbv zeta in Hs1, Hq1.
    destruct (IH (_enqueue_once (clock (S i)) ih (Some p) m).2) as (new & Hq & Hs & Hl & Hf).
    assert (Forall (λ j : address * bytes,
                      j.1 ≠ a ∧ j.1 ∈ ((i, p) :: hints).*2 ∧ j.2 = ih) new) as Hf'.
    { eapply Forall_impl; [exact Hf|]. intros j (? & ? & ?). split; [done|].
      split; [|done]. rewrite fmap_cons. by right. }
    destruct (_enqueue_once (clock (S i)) ih (Some p) m).1.
    + destruct Hq1 as (a' & [= <-] & _ & Hq1). exists ((p, ih) :: new).
      rewrite Hq, Hq1, <-app_assoc. split; [done|]. split; [by rewrite Hs|].
      split; [simpl; lia|]. constructor; [|done].
      split; [done|]. split; [|done]. rewrite fmap_cons. by left.
    + exists new. rewrite Hq, Hq1. split; [done|]. split; [by rewrite Hs|].
      split; [simpl; lia|done].
Qed.

(** What [sample] returns comes from the store, and is no longer than
    [k] when the draw is not. *)
Lemma sample_members k draw s r :
  (length draw ≤ Z.to_nat k)%nat →
  sample k draw s = Some r →
  (∀ x, x ∈ r → x ∈ map peer_key (_peers s)) ∧ (length r ≤ Z.to_nat k)%nat.
Proof.
  intros Hd. unfold sample. destruct (_peers s) as [|p0 l] eqn:El.
  { intros [= <-]. split; [by intros x ?%elem_of_nil|simpl; lia]. }
  rewrite <-El. clear El p0 l.
  destruct (_ <? Z.of_nat (length (_peers s))) eqn:En.
  - unfold random_sample. destruct (_ <? 0); [done|]. cbn [fmap option_fmap option_map].
    intros [= <-]. split.
    + intros x Hx. apply list_elem_of_fmap in Hx as (y & -> & Hy).
      apply list_elem_of_omap in Hy as (i & _ & Hi).
      apply (list_elem_of_fmap_2 peer_key). by eapply list_elem_of_lookup_2.
    + rewrite length_map. etrans; [apply omap_length_le|done].
  - cbn [fmap option_fmap option_map]. intros [= <-]. split; [done|].
    rewrite length_map. apply Z.ltb_ge in En. lia.
Qed.


(** With a [hint_k] that is not negative, [log_infohash] returns. *)
Lemma log_infohash_returns clock draw ih a m :
  0 ≤ hint_k m → is_Some (log_infohash clock draw ih a m).
Proof.
  intros Hk. unfold log_infohash.
  pose proof (_enqueue_once_queue (clock 0%nat) ih (Some a) m) as (_ & Hh & _).
  cbv zeta in Hh. destruct (_enqueue_once (clock 0%nat) ih (Some a) m) as [okb m1].
  cbn [snd] in Hh. destruct (okb && _); [|done].
  unfold sample. destruct (_peers (peer_store m1)); [done|].
  destruct (_ <? Z.of_nat _); [|done]. unfold random_sample.
  rewrite (proj2 (Z.ltb_ge _ 0)) by (rewrite Hh; lia). done.
Qed.

End log_infohash_more.

(** ** dht.py: the bootstrap store *)

Section bootstrap_store.
Import dht dht.DHTBootstrapStore store_spec.

Lemma dict_set_keys key ts l :
  map fst (dict_set key ts l)
  = if bool_decide (key ∈ map fst l) then map fst l else map fst l ++ [key].
Proof.
  induction l as [|[k v] l IH]; [done|]. cbn [dict_set map fst].
  destruct (decide (k = key)) as [->|Hk].
  - rewrite bool_decide_eq_true_2 by done. rewrite bool_decide_eq_true_2 by left. done.
  - rewrite (bool_decide_eq_false_2 (k = key)) by done. cbn [map fst]. rewrite IH.
    destruct (decide (key ∈ map fst l)) as [Hin|Hin].
    + rewrite !bool_decide_eq_true_2; [done|by right|done].
    + rewrite !bool_decide_eq_false_2; [done| |done].
      intros [?|?]%elem_of_cons; [by apply Hk|by apply Hin].
Qed.

Lemma dict_set_NoDup key ts l : NoDup (map fst l) → NoDup (map fst (dict_set key ts l)).
Proof.
  intros Hl. rewrite dict_set_keys. case_bool_decide as Hin; [done|].
  apply NoDup_app. split; [done|]. split; [|apply NoDup_singleton].
  intros x Hx ->%list_elem_of_singleton. by apply Hin.
Qed.

Lemma dict_set_Forall (P : address * Q → Prop) key ts l :
  P (key, ts) → Forall P l → Forall P (dict_set key ts l).
Proof.
  intros Hk. induction 1 as [|[k v] l Hx Hl IH]; cbn [dict_set]; [by repeat constructor|].
  case_bool_decide; constructor; done.
Qed.

Lemma bootstrap_mark_ok_keeps_aux (now : Q) (a : address) (s : DHTBootstrapStore.t) :
  bootstrap_store_ok s → bootstrap_store_ok (mark_ok now a s).
Proof.
  intros (Hnd & Hl & Hp). unfold mark_ok. destruct a as [ip_ port_].
  destruct (_ || _) eqn:E; [done|].
  apply orb_false_elim in E as [?%Z.ltb_ge ?%Z.ltb_ge].
  assert (valid_port port_) as Hv by (unfold valid_port; lia).
  set (peers := match dict_get (ip_, port_) (_peers s) with
                | Some prev => if Qle_bool now prev then _peers s
                               else dict_set (ip_, port_) now (_peers s)
                | None => dict_set (ip_, port_) now (_peers s)
                end).
  assert (NoDup (map fst peers) ∧ Forall (λ p : address * Q, valid_port p.1.2) peers)
    as [Hnd' Hp'].
  { subst peers. destruct (dict_get _ _) as [prev|]; [destruct (Qle_bool now prev)|];
      (split; [done || by apply dict_set_NoDup|done || by apply dict_set_Forall]). }
  unfold bootstrap_store_ok. cbn [_peers max_peers].
  destruct (max_peers s <? length peers)%nat eqn:Em.
  - apply Nat.ltb_lt in Em.
    pose proof (sort_desc_perm snd peers) as Hperm.
    split; [|split].
    + assert (NoDup (fst <$> master.sort_desc snd peers)) as Hnds
        by (rewrite Hperm; by rewrite map_fmap in Hnd').
      rewrite map_fmap, fmap_take. exact (sublist_NoDup _ _ Hnds (sublist_take _ _)).
    + rewrite length_take. lia.
    + apply Forall_take. by rewrite Hperm.
  - apply Nat.ltb_ge in Em. done.
Qed.

Lemma dict_get_elem key ts l :
  NoDup (map fst l) → dict_get key l = Some ts ↔ (key, ts) ∈ l.
Proof.
  induction l as [|[k v] l IH]; cbn [dict_get map fst].
  { intros _. split; [done|by intros ?%elem_of_nil]. }
  intros [Hk Hl]%NoDup_cons. case_bool_decide as Hkey.
  - subst k. split; [intros [= ->]; left|].
    intros [[= ->]|Hin]%elem_of_cons; [done|].
    destruct Hk. apply (list_elem_of_fmap_2 fst) in Hin. by rewrite map_fmap.
  - rewrite IH by done. split; [by right|].
    intros [[= -> ->]|Hin]%elem_of_cons; [by destruct Hkey|done].
Qed.

Lemma dict_set_elem key ts l k v :
  NoDup (map fst l) →
  (k, v) ∈ dict_set key ts l → (k = key ∧ v = ts) ∨ (k ≠ key ∧ (k, v) ∈ l).
Proof.
  induction l as [|[k0 v0] l IH]; cbn [dict_set map fst].
  { intros _ [= -> ->]%list_elem_of_singleton. by left. }
  intros [Hk Hl]%NoDup_cons. case_bool_decide as Hkey.
  - subst k0. intros [[= -> ->]|Hin]%elem_of_cons; [by left|].
    right. split; [|by right]. intros ->. destruct Hk.
    apply (list_elem_of_fmap_2 fst) in Hin. by rewrite map_fmap.
  - intros [[= -> ->]|Hin]%elem_of_cons; [right; split; [done|left]|].
    destruct (IH Hl Hin) as [?|[? ?]]; [by left|]. right. split; [done|by right].
Qed.

(** X21. [DHTBootstrapStore.mark_ok] keeps the store well-formed (one
    entry per address, at most [max_peers] entries, every port in
    [1..65535]) and never moves a [last_ok] backwards: an address that
    stays in the store keeps its time or gets a later one. *)
Theorem bootstrap_mark_ok_keeps (now : Q) (a : address) (s : DHTBootstrapStore.t) :
  bootstrap_store_ok s →
  bootstrap_store_ok (mark_ok now a s)
  ∧ (∀ k t t', dict_get k (_peers s) = Some t →
               dict_get k (_peers (mark_ok now a s)) = Some t' → (t <= t')%Q).
Proof.
  intros Hok. pose proof (bootstrap_mark_ok_keeps_aux now a s Hok) as Hok'.
  split; [done|]. intros k t t'.
  destruct Hok as (Hnd & _ & _). destruct Hok' as (Hnd' & _ & _).
  rewrite !dict_get_elem by done. clear Hnd'. intros Ht.
  unfold mark_ok. destruct a as [ip_ port_]. destruct (_ || _).
  { intros Ht'. rewrite <-!dict_get_elem in Ht, Ht' by done.
    rewrite Ht in Ht'. injection Ht' as <-. apply Qle_refl. }
  cbn [_peers].
  set (peers := match dict_get (ip_, port_) (_peers s) with
                | Some prev => if Qle_bool now prev then _peers s
                               else dict_set (ip_, port_) now (_peers s)
                | None => dict_set (ip_, port_) now (_peers s)
                end).
  assert ((k, t') ∈ peers → (t <= t')%Q) as Hpeers.
  { assert ((k, t') ∈ _peers s → (t <= t')%Q) as Hsame.
    { intros Ht'. rewrite <-!dict_get_elem in Ht, Ht' by done.
      rewrite Ht in Ht'. injection Ht' as <-. apply Qle_refl. }
    assert ((k, t') ∈ dict_set (ip_, port_) now (_peers s) →
            (∀ prev, dict_get (ip_, port_) (_peers s) = Some prev → (prev < now)%Q) →
            (t <= t')%Q) as Hset.
    { intros [[-> ->]|[_ Hin]]%dict_set_elem Hprev; [|by apply Hsame|done].
      apply Qlt_le_weak, Hprev. by apply dict_get_elem. }
    subst peers. destruct (dict_get (ip_, port_) (_peers s)) as [prev|] eqn:Eg.
    - destruct (Qle_bool now prev) eqn:El; [done|]. intros Hin. apply Hset; [done|].
      intros ? [= <-]. apply Qnot_le_lt. intros Hle%Qle_bool_iff. congruence.
    - intros Hin. by apply Hset. }
  destruct (_ <? _)%nat; [|done].
  intros Hin. apply Hpeers. rewrite <-(sort_desc_perm snd peers).
  eapply elem_of_sublist; [exact Hin|apply sublist_take].
Qed.

End bootstrap_store.

(** ** dht.py: the compact node format and the node queue *)

Section dht_more.
Import dht store_spec.

Lemma length_compact_node n :
  length n.1.1 = 20%nat → length n.1.2 = 4%nat → length (compact_node n) = 26%nat.
Proof.
  intros H1 H2. unfold compact_node. rewrite !length_app, length_to_be. lia.
Qed.

Lemma decode_nodes_go_compact entries :
  Forall (λ n : bytes * bytes * Z,
            length n.1.1 = 20%nat ∧ length n.1.2 = 4%nat ∧ 0 ≤ n.2 < 65536) entries →
  decode_nodes_go (length entries) (concat (map compact_node entries))
  = map (λ n, (n.1.1, inet_ntoa n.1.2, n.2)) entries.
Proof.
  induction 1 as [|n entries (H1 & H2 & H3) _ IH]; [done|].
  cbn [length map concat decode_nodes_go]. f_equal.
  - unfold compact_node. rewrite <-!app_assoc.
    set (rest := concat (map _ entries)).
    rewrite (slice_layout _ [] n.1.1 (n.1.2 ++ to_be 2 n.2 ++ rest) 0 20);
      [|done|done|simpl; lia].
    rewrite (slice_layout _ n.1.1 n.1.2 (to_be 2 n.2 ++ rest) 20 24); [|done|done|lia].
    rewrite (slice_layout _ (n.1.1 ++ n.1.2) (to_be 2 n.2) rest 24 26);
      [|by rewrite <-app_assoc|rewrite length_app; lia|rewrite length_to_be; lia].
    rewrite of_be_to_be; [done|]. change (256 ^ Z.of_nat 2) with 65536. done.
  - rewrite <-IH. f_equal. rewrite <-(length_compact_node n) by done.
    apply drop_app_length.
Qed.

Lemma length_concat_compact entries :
  Forall (λ n : bytes * bytes * Z,
            length n.1.1 = 20%nat ∧ length n.1.2 = 4%nat ∧ 0 ≤ n.2 < 65536) entries →
  length (concat (map compact_node entries)) = (26 * length entries)%nat.
Proof.
  induction 1 as [|n entries (H1 & H2 & _) _ IH]; [done|].
  cbn [map concat length]. rewrite length_app, IH, length_compact_node by done. lia.
Qed.

(** X22. [decode_nodes] inverts the compact node format: on the
    concatenation of 26-byte entries (20 bytes of id, 4 of IPv4 address,
    the port in 2 bytes, big-endian) it returns the ids, the dotted
    addresses and the ports, in order. *)
Theorem decode_nodes_compact (entries : list (bytes * bytes * Z)) :
  Forall (λ n : bytes * bytes * Z,
            length n.1.1 = 20%nat ∧ length n.1.2 = 4%nat ∧ 0 ≤ n.2 < 65536) entries →
  decode_nodes (concat (map compact_node entries))
  = map (λ n, (n.1.1, inet_ntoa n.1.2, n.2)) entries.
Proof.
  intros He. unfold decode_nodes. rewrite length_concat_compact by done.
  rewrite bool_decide_eq_false_2.
  - replace (26 * length entries / 26)%nat with (length entries).
    + by apply decode_nodes_go_compact.
    + symmetry. rewrite Nat.mul_comm. apply Nat.div_mul. lia.
  - intros Hm. apply Hm. rewrite Nat.mul_comm. apply Nat.Div0.mod_mul.
Qed.

Lemma deque_append_length {A} maxlen (x : A) q :
  (length q ≤ maxlen)%nat → (length (deque_append maxlen x q) ≤ maxlen)%nat.
Proof.
  intros Hq. unfold deque_append. rewrite length_drop, length_app. simpl. lia.
Qed.

Lemma process_find_node_response_keeps self now msg a :
  node_queue_ok self → bootstrap_store_ok (bootstrap_store self) →
  node_queue_ok (process_find_node_response self now msg a)
  ∧ bootstrap_store_ok (bootstrap_store (process_find_node_response self now msg a)).
Proof.
  intros Hq Hs. unfold process_find_node_response.
  destruct msg as [| | | |m]; try done.
  destruct (m !! inr "r"%string) as [[| | | |r]|]; try done.
  generalize (decode_nodes
    match r !! inr "nodes"%string with
    | Some (PBytes b) => b
    | Some (PStr s) => list_byte_of_string s
    | _ => []
    end).
  intros found. cbv zeta. split.
  - unfold node_queue_ok in *. cbn [nodes max_node_qsize ip set_nodes].
    destruct Hq as [Hl Hf]. revert Hl Hf. generalize (nodes self).
    induction found as [|[[n i] p] found IH]; intros q Hl Hf; [done|].
    cbn [foldl]. apply IH.
    + case_bool_decide; [done|]. case_bool_decide; [done|].
      destruct (_ || _); [done|]. by apply deque_append_length.
    + case_bool_decide as Hn; [done|]. case_bool_decide as Hi; [done|].
      destruct (_ || _) eqn:E; [done|].
      apply orb_false_elim in E as [?%Z.ltb_ge ?%Z.ltb_ge].
      apply deque_append_Forall; [done|]. cbn [k_nid k_port k_ip].
      split; [by destruct (decide (length n = 20%nat)); [|destruct Hn]|].
      split; [unfold valid_port; lia|done].
  - cbn [bootstrap_store set_nodes]. destruct found; [done|].
    by apply bootstrap_mark_ok_keeps_aux.
Qed.


Lemma outcome_of_send body a :
  (∀ evs, body = inr evs → ∃ msg, evs = [SendKrpc msg a]) →
  Forall (goes_to a) (outcome_of body).1 ∧ (length (outcome_of body).1 ≤ 1)%nat
  ∧ Forall (λ e, is_send e = true) (outcome_of body).1.
Proof.
  intros Hb. destruct body as [[]|evs]; cbn [outcome_of fst]; [by repeat constructor..|].
  destruct (Hb evs eq_refl) as [msg ->]. split; [by repeat constructor|].
  split; [simpl; lia|by repeat constructor].
Qed.

Lemma ebind_inr {A C} (x : pyerr + A) (f : A → pyerr + C) r :
  ebind x f = inr r → ∃ v, x = inr v ∧ f v = inr r.
Proof. destruct x as [e|v]; [done|]. intros H. by exists v. Qed.

Lemma ok_sends self msg a :
  Forall (goes_to a) (ok self msg a).1 ∧ (length (ok self msg a).1 ≤ 1)%nat
  ∧ Forall (λ e, is_send e = true) (ok self msg a).1.
Proof.
  unfold ok. apply outcome_of_send. intros evs Hb.
  repeat (apply ebind_inr in Hb as (? & _ & Hb)). injection Hb as <-. eauto.
Qed.

Lemma on_get_peers_request_sends self msg a :
  Forall (goes_to a) (on_get_peers_request self msg a).1
  ∧ (length (on_get_peers_request self msg a).1 ≤ 1)%nat
  ∧ Forall (λ e, is_send e = true) (on_get_peers_request self msg a).1.
Proof.
  unfold on_get_peers_request. apply outcome_of_send. intros evs Hb.
  repeat (apply ebind_inr in Hb as (? & _ & Hb)). injection Hb as <-. eauto.
Qed.

Lemma play_dead_sends self msg a :
  Forall (goes_to a) (play_dead self msg a).1 ∧ (length (play_dead self msg a).1 ≤ 1)%nat
  ∧ Forall (λ e, is_send e = true) (play_dead self msg a).1.
Proof.
  unfold play_dead. apply outcome_of_send. intros evs Hb.
  repeat (apply ebind_inr in Hb as (? & _ & Hb)). injection Hb as <-. eauto.
Qed.

Lemma announce_body_logs self msg a evs :
  announce_body self msg a = inr evs →
  Forall (goes_to a) evs ∧ Forall (λ e, is_send e = false) evs.
Proof.
  unfold announce_body. intros Hb.
  repeat (apply ebind_inr in Hb as (? & _ & Hb)).
  destruct (negb _); [injection Hb as <-; by split|].
  apply ebind_inr in Hb as ([p|] & _ & Hb); [|injection Hb as <-; by split].
  injection Hb as <-. case_bool_decide; by repeat constructor.
Qed.

Lemma filter_is_send_app (l1 l2 : list event) :
  Forall (λ e, is_send e = false) l1 →
  List.filter is_send (l1 ++ l2) = List.filter is_send l2.
Proof.
  induction 1 as [|e l1 He _ IH]; [done|]. cbn [app List.filter]. by rewrite He.
Qed.

(** X24. Whatever the message, [on_message] sends at most one datagram,
    and only to the sender; every infohash it logs is logged for the
    sender's ip; and a message that changes the node's state (a response
    with nodes) causes no action at all. *)
Theorem on_message_answers_sender (self : DHTProcess) (now : Q) (msg : pyval)
    (a : address) :
  Forall (goes_to a) (on_message self now msg a).1.1
  ∧ (length (List.filter is_send (on_message self now msg a).1.1) ≤ 1)%nat
  ∧ ((on_message self now msg a).1.1 = [] ∨ (on_message self now msg a).2 = self).
Proof.
  assert (∀ l : list event, (length l ≤ 1)%nat →
            (length (List.filter is_send l) ≤ 1)%nat) as Hfl.
  { intros l Hl. etrans; [|exact Hl]. clear Hl. induction l as [|e l IH]; [done|].
    cbn [List.filter]. destruct (is_send e); simpl; lia. }
  unfold on_message.
  destruct (getitem msg "y") as [[]|y]; [by repeat split; auto..|].
  destruct (pyval_eqb y (PStr "r")).
  { destruct (contains_nodes _) as [e|[]]; by repeat split; auto. }
  destruct (pyval_eqb y (PStr "q")); [|by repeat split; auto].
  assert (let r := (play_dead self msg a, self) in
          Forall (goes_to a) r.1.1 ∧ (length (List.filter is_send r.1.1) ≤ 1)%nat
          ∧ (r.1.1 = [] ∨ r.2 = self)) as Hdead.
  { cbn [fst snd]. destruct (play_dead_sends self msg a) as (? & ? & _). auto. }
  destruct (getitem msg "q") as [e|[| |q| |]]; try exact Hdead; [|by repeat split; auto..].
  case_bool_decide.
  { cbn [fst snd]. destruct (on_get_peers_request_sends self msg a) as (? & ? & _). auto. }
  case_bool_decide; [|exact Hdead].
  cbn [fst snd]. unfold on_announce_peer_request.
  destruct (ok_sends self msg a) as (Hg & Hl & _).
  destruct (ok self msg a) as [sent raised]. cbn [fst] in *.
  destruct (announce_body self msg a) as [e|evs] eqn:Eb; cbn [app fst]; [auto|].
  destruct (announce_body_logs self msg a evs Eb) as [Hga Hna].
  split; [by apply Forall_app|]. split; [|by right].
  rewrite filter_is_send_app by done. auto.
Qed.


End dht_more.

(** ** Concrete runs of the stores and the dispatcher *)

Lemma mstore5_ok : store_spec.metadata_store_ok dht_data.mstore5.
Proof.
  split; [|split; [|split]].
  - refine (bool_decide_unpack _ _). by vm_compute.
  - repeat (constructor; [|by repeat constructor]). constructor.
  - simpl. lia.
  - repeat constructor; by vm_compute.
Qed.

Lemma metadata_mark_ok_keeps_witness :
  store_spec.metadata_store_ok
    (master.MetadataPeerStore.mark_ok 60 ("10.0.0.9"%string, 6881) dht_data.mstore5).
Proof. apply metadata_mark_ok_keeps. exact mstore5_ok. Defined.

Lemma metadata_mark_ok_first_witness :
  head (master.MetadataPeerStore._peers
          (master.MetadataPeerStore.mark_ok 60 ("10.0.0.3"%string, 6881) dht_data.mstore5))
  = Some ("10.0.0.3"%string, 6881, 60%Q).
Proof.
  apply (metadata_mark_ok_first 60 ("10.0.0.3"%string, 6881) dht_data.mstore5).
  - by vm_compute.
  - simpl. lia.
  - repeat constructor; by vm_compute.
Defined.

Lemma metadata_sample_exact_witness :
  ∃ r, master.MetadataPeerStore.sample 2 [4%nat; 0%nat] dht_data.mstore5 = Some r
    ∧ length r = 2%nat.
Proof.
  destruct (metadata_sample_exact 2 [4%nat; 0%nat] dht_data.mstore5) as (r & Hr & Hl & _).
  - lia.
  - split; [reflexivity|]. split; [refine (bool_decide_unpack _ _); by vm_compute|].
    repeat constructor; simpl; lia.
  - exists r. split; [exact Hr|exact Hl].
Defined.

Lemma no_quarantine_below_threshold_witness :
  master.bad
    (dispatch.run_master
       [ dispatch.Finished st_timeout 1000 1000 addr0;
         dispatch.Enqueue (calls.mkCall 1010 ih0 (Some addr0));
         dispatch.Finished st_os_error 1060 1060 addr0;
         dispatch.Finished st_sha1_mismatch 1100 1100 addr0 ]
       (master.init store0)) !! addr0 = None.
Proof.
  apply no_quarantine_below_threshold.
  - reflexivity.
  - reflexivity.
  - by vm_compute.
Defined.

Lemma store1_ok : store_spec.bootstrap_store_ok dht_data.store1.
Proof. split; [constructor|]. split; [simpl; lia|constructor]. Qed.

Lemma bootstrap_mark_ok_keeps_witness :
  store_spec.bootstrap_store_ok
    (dht.DHTBootstrapStore.mark_ok 100 addr0 dht_data.store1).
Proof. apply (bootstrap_mark_ok_keeps 100 addr0 dht_data.store1). exact store1_ok. Defined.

Lemma decode_nodes_compact_witness :
  dht.decode_nodes
    (replicate 20 Byte.x11 ++ [Byte.x05; Byte.x06; Byte.x07; Byte.x08] ++ [Byte.x1a; Byte.xe1])
  = [(replicate 20 Byte.x11, "5.6.7.8"%string, 6881)].
Proof.
  apply (decode_nodes_compact
           [(replicate 20 Byte.x11, [Byte.x05; Byte.x06; Byte.x07; Byte.x08], 6881)]).
  repeat constructor; simpl; lia.
Defined.

Lemma dht1_ok : store_spec.node_queue_ok dht_data.dht1.
Proof.
  split; [simpl; lia|]. repeat constructor; [simpl; lia..|done].
Qed.



